(** * The aggregation path separator of HiGHS (mip/HighsPathSeparator.cpp)

    A shallow embedding of [HighsPathSeparator::separateLpSolution]: row
    classification, detection of forced substitutions, construction of the
    in-arc / out-arc lists and the path extension loop.

    - [double] is IEEE binary64, embedded as Rocq's primitive floats, so every
      comparison and quotient below is the one the compiled code performs;
    - [HighsInt] is embedded as [Z] and the sentinel [-1] is kept; the
      counters of the function are bounded by vector sizes and by the path
      length, far from any overflow. The sum [random_seed +
      getNumLpIterations()] is handed to the generator as a number: how it
      is converted to a seed is the generator's business;
    - [std::vector] is a [list]; an access outside the vector is undefined
      behaviour in C++ and is embedded as the result [Fault (OutOfRange ..)];
    - the while loop of a seed row is run with fuel, [OutOfFuel] being the
      result of a run that needs more rounds than it was given;
    - the collaborators whose code is not part of the separator (the row
      aggregator, the cut generator, the random generator, the transformed
      relaxation) are parameters of the development, and the calls made to
      them are recorded in a trace carried along with their states;
    - the two [assert]s of the function are compiled out of a release build
      and are not embedded. *)

From Stdlib Require Import String ZArith List Bool Lia Floats.
Import ListNotations.

Set Warnings "-inexact-float".
Local Open Scope Z_scope.

(* ================================================================== *)
(** ** Results: values, undefined behaviour, exhausted fuel *)
(* ================================================================== *)

Inductive fault : Type :=
| OutOfRange (vec : string) (idx : Z)   (* v[idx] outside of v *)
| BadSize (vec : string) (n : Z)        (* a vector built with a negative size *)
| RunawayLoop (lo hi : Z).              (* for (i = lo; i != hi; ++i) with hi < lo *)

Inductive res (A : Type) : Type :=
| Ok (a : A)
| Fault (f : fault)
| OutOfFuel.

Arguments Ok {A} a.
Arguments Fault {A} f.
Arguments OutOfFuel {A}.

Definition bind {A B} (m : res A) (k : A -> res B) : res B :=
  match m with
  | Ok a => k a
  | Fault f => Fault f
  | OutOfFuel => OutOfFuel
  end.

Declare Scope res_scope.
Delimit Scope res_scope with res.
Notation "x <- m ;; k" := (bind m (fun x => k))
  (at level 61, m at next level, right associativity) : res_scope.
Notation "' p <- m ;; k" := (bind m (fun x => match x with p => k end))
  (at level 61, p pattern, m at next level, right associativity) : res_scope.
Local Open Scope res_scope.

(** Monadic left fold: the body of a C++ loop run over the values its
    counter takes. *)
Fixpoint foldM {X S} (body : X -> S -> res S) (xs : list X) (s : S) : res S :=
  match xs with
  | [] => Ok s
  | x :: xs' => s' <- body x s ;; foldM body xs' s'
  end.

(** The values of [i] in [for (i = lo; i < hi; ++i)]. *)
Definition zrange (lo hi : Z) : list Z :=
  map (fun n => lo + Z.of_nat n) (seq 0 (Z.to_nat (hi - lo))).

(** [for (i = lo; i < hi; ++i) body] *)
Definition forLt {S} (lo hi : Z) (body : Z -> S -> res S) (s : S) : res S :=
  foldM body (zrange lo hi) s.

(** [for (i = lo; i != hi; ++i) body]: with [hi < lo] the counter never
    meets its bound and the loop runs off every vector it indexes. *)
Definition forNe {S} (lo hi : Z) (body : Z -> S -> res S) (s : S) : res S :=
  if hi <? lo then Fault (RunawayLoop lo hi) else foldM body (zrange lo hi) s.

(* ================================================================== *)
(** ** Vectors indexed by [HighsInt] *)
(* ================================================================== *)

Definition vget {A} (name : string) (v : list A) (i : Z) : res A :=
  if i <? 0 then Fault (OutOfRange name i)
  else match nth_error v (Z.to_nat i) with
       | Some x => Ok x
       | None => Fault (OutOfRange name i)
       end.

Fixpoint update {A} (v : list A) (n : nat) (x : A) : list A :=
  match v, n with
  | [], _ => []
  | _ :: v', O => x :: v'
  | y :: v', S n' => y :: update v' n' x
  end.

Definition vset {A} (name : string) (v : list A) (i : Z) (x : A) : res (list A) :=
  if (i <? 0) || (Z.of_nat (length v) <=? i) then Fault (OutOfRange name i)
  else Ok (update v (Z.to_nat i) x).

(** [std::vector<T> v(n, x)] and [v.resize(n)] on an empty vector. *)
Definition vnew {A} (name : string) (n : Z) (x : A) : res (list A) :=
  if n <? 0 then Fault (BadSize name n) else Ok (repeat x (Z.to_nat n)).

(** [v.size()] as a [HighsInt]. *)
Definition vsize {A} (v : list A) : Z := Z.of_nat (length v).

(** The entries [v[lo], ..., v[hi-1]] of a vector. *)
Definition slice {A} (v : list A) (lo hi : Z) : list A :=
  firstn (Z.to_nat (hi - lo)) (skipn (Z.to_nat lo) v).

(* ================================================================== *)
(** ** Doubles *)
(* ================================================================== *)

(** [double]: IEEE binary64. *)
Abbreviation double := float.

(** [kHighsInf]: [std::numeric_limits<double>::infinity()], the constant of
    lp_data/HConst.h (there under its earlier name [HIGHS_CONST_INF]). *)
Definition kHighsInf : double := infinity.

Definition feq (x y : double) : bool := PrimFloat.eqb x y.     (* x == y *)
Definition fne (x y : double) : bool := negb (PrimFloat.eqb x y). (* x != y *)
Definition flt (x y : double) : bool := PrimFloat.ltb x y.     (* x <  y *)
Definition fgt (x y : double) : bool := PrimFloat.ltb y x.     (* x >  y *)
Definition fle (x y : double) : bool := PrimFloat.leb x y.     (* x <= y *)
Definition fge (x y : double) : bool := PrimFloat.leb y x.     (* x >= y *)

(* ================================================================== *)
(** ** The data the separator reads *)
(* ================================================================== *)

(** [enum class RowType : int8_t] *)
Inductive RowType : Type :=
| kUnusuable   (* -2 *)
| kGeq         (* -1 *)
| kEq          (*  0 *)
| kLeq.        (*  1 *)

Definition RowType_eqb (a b : RowType) : bool :=
  match a, b with
  | kUnusuable, kUnusuable | kGeq, kGeq | kEq, kEq | kLeq, kLeq => true
  | _, _ => false
  end.

(** Modelled from the spec: the variable type of a column, "continuous vs.
    integer" ([HighsVarType], whose declaration is not among the sources).
    The separator only tests a type against [kContinuous]. *)
Inductive HighsVarType : Type :=
| kContinuous
| kInteger.

Definition isContinuousType (t : HighsVarType) : bool :=
  match t with kContinuous => true | _ => false end.

(** The fields of [HighsLp] the separator reads (column-wise matrix). *)
Record HighsLp : Type := {
  num_col_ : Z;
  num_row_ : Z;
  row_lower_ : list double;
  row_upper_ : list double;
  a_start_ : list Z;
  a_index_ : list Z;
  a_value_ : list double
}.

Record HighsSolution : Type := {
  row_value : list double;
  row_dual : list double
}.

(** What the separator reads from its collaborators during one call:
    [lpRelaxation] (the LP, its solution, its rows, integrality), [mip]
    (tolerance, continuous columns, seed, variable types) and [transLp]
    (bound distances). None of it changes during the call. *)
Class Relaxation : Type := {
  lp : HighsLp;                        (* lpRelaxation.getLp() *)
  lpSolution : HighsSolution;          (* lpRelaxation.getSolution() *)
  getNumLpIterations : Z;              (* lpRelaxation.getNumLpIterations() *)
  getRow : Z -> list (Z * double);     (* lpRelaxation.getRow(i, len, rowinds, rowvals) *)
  isColIntegral : Z -> bool;           (* lpRelaxation.isColIntegral(col) *)
  feastol : double;                    (* mip.mipdata_->feastol *)
  continuous_cols : list Z;            (* mip.mipdata_->continuous_cols *)
  random_seed : Z;                     (* mip.options_mip_->random_seed *)
  variableType : Z -> HighsVarType;    (* mip.variableType(col) *)
  boundDistance : Z -> double          (* transLp.boundDistance(col) *)
}.

(** [HighsLpAggregator]: [getCurrentAggregation (inds, vals, negate)] fills
    the two vectors and may tidy the aggregator's own storage. *)
Class LpAggregator (Agg : Type) : Type := {
  addRow : Agg -> Z -> double -> Agg;
  getCurrentAggregation : Agg -> bool -> list Z * list double * Agg;
  clear : Agg -> Agg
}.

(** [HighsCutGeneration] together with the cut pool it feeds:
    [generateCut (transLp, inds, vals, rhs)] reports success. *)
Class CutGeneration (Cut : Type) : Type := {
  generateCut : Cut -> list Z -> list double -> double -> bool * Cut
}.

(** [HighsRandom]: the member [randgen] of the separator. *)
Class Random (Rng : Type) : Type := {
  initialise : Z -> Rng;
  bit : Rng -> bool * Rng
}.

(** The calls made to the collaborators, most recent first. *)
Inductive RowRole : Type := SeedRow | SubstitutionRow | ExtensionRow.

Inductive event : Type :=
| EvAddRow (role : RowRole) (row : Z) (weight : double)
| EvGenerateCut (negate : bool) (inds : list Z) (vals : list double)
                (rhs : double) (success : bool)
| EvBit (b : bool)
| EvClear.

Record SepState (Agg Cut Rng : Type) : Type := mkSepState {
  aggregator : Agg;
  cutGen : Cut;
  randgen : Rng;
  trace : list event
}.

Arguments mkSepState {Agg Cut Rng}.
Arguments aggregator {Agg Cut Rng}.
Arguments cutGen {Agg Cut Rng}.
Arguments randgen {Agg Cut Rng}.
Arguments trace {Agg Cut Rng}.

(** The vectors built before the path loop and only read by it. *)
Record Adjacency : Type := mkAdjacency {
  rowtype : list RowType;
  colSubstitutions : list (Z * double);
  inArcRows : list (Z * double);
  colInArcs : list (Z * Z);
  outArcRows : list (Z * double);
  colOutArcs : list (Z * Z)
}.

(** The two running best candidates of one round of the path loop. *)
Record Candidates : Type := mkCandidates {
  bestOutArcCol : Z;
  outArcColVal : double;
  outArcColBoundDist : double;
  bestInArcCol : Z;
  inArcColVal : double;
  inArcColBoundDist : double
}.

Definition noCandidates : Candidates :=
  mkCandidates (-1) 0%float 0%float (-1) 0%float 0%float.

Definition maxPathLen : Z := 6.

(* ================================================================== *)
(** ** Row classification, substitutions and arc lists (lines 41-162) *)
(* ================================================================== *)

Section Construction.
Context {R : Relaxation}.

(** The body of the first loop over the rows (lines 44-64). *)
Definition classifyRow (i : Z) : res RowType :=
  lower <- vget "row_lower_" (row_lower_ lp) i ;;
  upper <- vget "row_upper_" (row_upper_ lp) i ;;
  if feq lower upper then Ok kEq
  else
    lowerslack <-
      (if fne lower (- kHighsInf)%float
       then v <- vget "row_value" (row_value lpSolution) i ;; Ok (v - lower)%float
       else Ok kHighsInf) ;;
    upperslack <-
      (if fne upper kHighsInf
       then v <- vget "row_value" (row_value lpSolution) i ;; Ok (upper - v)%float
       else Ok kHighsInf) ;;
    Ok (if fgt lowerslack feastol && fgt upperslack feastol then kUnusuable
        else if flt lowerslack upperslack then kGeq
        else kLeq).

(** Lines 41-65. *)
Definition classifyRows : res (list RowType) :=
  rowtype0 <- vnew "rowtype" (num_row_ lp) kEq ;;
  forNe 0 (num_row_ lp)
    (fun i rt => k <- classifyRow i ;; vset "rowtype" rt i k)
    rowtype0.

(** Whether a column takes part at all: [transLp.boundDistance(col) == 0.0]
    excludes it. *)
Definition atBound (col : Z) : bool := feq (boundDistance col) 0%float.

(** Lines 67-76; [maxAggrRowSize] only sizes a [reserve] and is left out. *)
Definition countContinuous : res (list Z) :=
  numContinuous0 <- vnew "numContinuous" (num_row_ lp) 0 ;;
  foldM
    (fun col nc =>
       if atBound col then Ok nc
       else
         b <- vget "a_start_" (a_start_ lp) col ;;
         e <- vget "a_start_" (a_start_ lp) (col + 1) ;;
         forNe b e
           (fun i nc =>
              r <- vget "a_index_" (a_index_ lp) i ;;
              c <- vget "numContinuous" nc r ;;
              vset "numContinuous" nc r (c + 1))
           nc)
    continuous_cols numContinuous0.

(** The loop of lines 94-99: the position of the first entry of a row that
    is a continuous column off its bound, or the row's length. *)
Fixpoint firstEligible (row : list (Z * double)) (j : Z) : Z :=
  match row with
  | [] => j
  | (col, _) :: row' =>
      if negb (isContinuousType (variableType col)) then firstEligible row' (j + 1)
      else if atBound col then firstEligible row' (j + 1)
      else j
  end.

(** The body of the loop of lines 85-113 (the two [assert]s are compiled
    out of a release build and are not part of the model). *)
Definition detectRow (numContinuous : list Z) (i : Z)
    (st : list (Z * double) * list RowType) : res (list (Z * double) * list RowType) :=
  let '(subst, rt) := st in
  k <- vget "rowtype" rt i ;;
  if RowType_eqb k kEq then
    n <- vget "numContinuous" numContinuous i ;;
    if n =? 1 then
      let row := getRow i in
      let j := firstEligible row 0 in
      '(col, val) <- vget "rowinds" row j ;;
      s <- vget "colSubstitutions" subst col ;;
      if negb (fst s =? -1) then Ok st
      else
        subst' <- vset "colSubstitutions" subst col (i, val) ;;
        rt' <- vset "rowtype" rt i kUnusuable ;;
        Ok (subst', rt')
    else Ok st
  else Ok st.

(** Lines 78-113. *)
Definition detectSubstitutions (rowtype0 : list RowType) (numContinuous : list Z)
  : res (list (Z * double) * list RowType) :=
  subst0 <- vnew "colSubstitutions" (num_col_ lp) (-1, 0%float) ;;
  forNe 0 (num_row_ lp) (detectRow numContinuous) (subst0, rowtype0).

(** The sign test of lines 144-156: does an entry of a usable row go to the
    in-arc list? *)
Definition isInArc (k : RowType) (val : double) : bool :=
  match k with
  | kLeq => flt val 0%float
  | _ => fgt val 0%float
  end.

Record ArcTables : Type := mkArcTables {
  t_inArcRows : list (Z * double);
  t_colInArcs : list (Z * Z);
  t_outArcRows : list (Z * double);
  t_colOutArcs : list (Z * Z)
}.

(** The body of the loop of lines 140-158. *)
Definition arcEntry (rt : list RowType) (i : Z) (t : ArcTables) : res ArcTables :=
  r <- vget "a_index_" (a_index_ lp) i ;;
  k <- vget "rowtype" rt r ;;
  match k with
  | kUnusuable => Ok t
  | _ =>
      v <- vget "a_value_" (a_value_ lp) i ;;
      if isInArc k v
      then Ok (mkArcTables (t_inArcRows t ++ [(r, v)]) (t_colInArcs t)
                           (t_outArcRows t) (t_colOutArcs t))
      else Ok (mkArcTables (t_inArcRows t) (t_colInArcs t)
                           (t_outArcRows t ++ [(r, v)]) (t_colOutArcs t))
  end.

(** The body of the loop of lines 134-162. *)
Definition arcColumn (rt : list RowType) (subst : list (Z * double)) (col : Z)
    (t : ArcTables) : res ArcTables :=
  if atBound col then Ok t
  else
    s <- vget "colSubstitutions" subst col ;;
    if negb (fst s =? -1) then Ok t
    else
      ci <- vget "colInArcs" (t_colInArcs t) col ;;
      cin1 <- vset "colInArcs" (t_colInArcs t) col (vsize (t_inArcRows t), snd ci) ;;
      co <- vget "colOutArcs" (t_colOutArcs t) col ;;
      cout1 <- vset "colOutArcs" (t_colOutArcs t) col (vsize (t_outArcRows t), snd co) ;;
      b <- vget "a_start_" (a_start_ lp) col ;;
      e <- vget "a_start_" (a_start_ lp) (col + 1) ;;
      t2 <- forNe b e (arcEntry rt)
              (mkArcTables (t_inArcRows t) cin1 (t_outArcRows t) cout1) ;;
      ci2 <- vget "colInArcs" (t_colInArcs t2) col ;;
      cin3 <- vset "colInArcs" (t_colInArcs t2) col (fst ci2, vsize (t_inArcRows t2)) ;;
      co2 <- vget "colOutArcs" (t_colOutArcs t2) col ;;
      cout3 <- vset "colOutArcs" (t_colOutArcs t2) col (fst co2, vsize (t_outArcRows t2)) ;;
      Ok (mkArcTables (t_inArcRows t2) cin3 (t_outArcRows t2) cout3).

(** Lines 126-162. *)
Definition buildArcs (rt : list RowType) (subst : list (Z * double)) : res ArcTables :=
  cin0 <- vnew "colInArcs" (num_col_ lp) (0, 0) ;;
  cout0 <- vnew "colOutArcs" (num_col_ lp) (0, 0) ;;
  foldM (arcColumn rt subst) continuous_cols (mkArcTables [] cin0 [] cout0).

(** Everything the path loop reads, lines 41-162. *)
Definition buildAdjacency : res Adjacency :=
  rowtype0 <- classifyRows ;;
  numContinuous <- countContinuous ;;
  '(subst, rt) <- detectSubstitutions rowtype0 numContinuous ;;
  t <- buildArcs rt subst ;;
  Ok (mkAdjacency rt subst (t_inArcRows t) (t_colInArcs t)
                  (t_outArcRows t) (t_colOutArcs t)).

End Construction.

(* ================================================================== *)
(** ** The path loop (lines 164-309) *)
(* ================================================================== *)

Section PathLoop.
Context {R : Relaxation}.
Context {Agg Cut Rng : Type}.
Context {AggOps : LpAggregator Agg} {CutOps : CutGeneration Cut} {RngOps : Random Rng}.

Abbreviation State := (SepState Agg Cut Rng).

Definition maxWeight : double := (1 / feastol)%float.
Definition minWeight : double := feastol.

(** The lambda [checkWeight] of lines 184-187. *)
Definition checkWeight (w : double) : bool :=
  let w := abs w in
  fle w maxWeight && fge w minWeight.

(** [lpAggregator.addRow(row, weight)], recorded in the trace. *)
Definition doAddRow (role : RowRole) (row : Z) (weight : double) (s : State) : State :=
  mkSepState (addRow (aggregator s) row weight) (cutGen s) (randgen s)
             (EvAddRow role row weight :: trace s).

(** [lpAggregator.getCurrentAggregation(baseRowInds, baseRowVals, negate)] *)
Definition doGetAggregation (negate : bool) (s : State) : list Z * list double * State :=
  let '(inds, vals, a) := getCurrentAggregation (aggregator s) negate in
  (inds, vals, mkSepState a (cutGen s) (randgen s) (trace s)).

(** [rhs = 0; cutGen.generateCut(transLp, baseRowInds, baseRowVals, rhs)] *)
Definition doGenerateCut (negate : bool) (inds : list Z) (vals : list double)
    (s : State) : bool * State :=
  let '(ok, c) := generateCut (cutGen s) inds vals 0%float in
  (ok, mkSepState (aggregator s) c (randgen s)
                  (EvGenerateCut negate inds vals 0%float ok :: trace s)).

(** [randgen.bit()] *)
Definition doBit (s : State) : bool * State :=
  let '(b, r) := bit (randgen s) in
  (b, mkSepState (aggregator s) (cutGen s) r (EvBit b :: trace s)).

(** [lpAggregator.clear()] *)
Definition doClear (s : State) : State :=
  mkSepState (clear (aggregator s)) (cutGen s) (randgen s) (EvClear :: trace s).

Section WithAdjacency.
Variable adj : Adjacency.

Record ScanState : Type := mkScanState {
  sc_state : State;
  addedSubstitutionRows : bool;
  sc_cands : Candidates
}.

(** The body of the loop of lines 202-234 over the aggregated row. *)
Definition scanEntry (baseRowInds : list Z) (baseRowVals : list double) (j : Z)
    (sc : ScanState) : res ScanState :=
  col <- vget "baseRowInds" baseRowInds j ;;
  if (col >=? num_col_ lp) || atBound col || isColIntegral col then Ok sc
  else
    sub <- vget "colSubstitutions" (colSubstitutions adj) col ;;
    if negb (fst sub =? -1) then
      v <- vget "baseRowVals" baseRowVals j ;;
      Ok (mkScanState
            (doAddRow SubstitutionRow (fst sub) (- v / snd sub)%float (sc_state sc))
            true (sc_cands sc))
    else if addedSubstitutionRows sc then Ok sc
    else
      v <- vget "baseRowVals" baseRowVals j ;;
      let c := sc_cands sc in
      if flt v 0%float then
        arcs <- vget "colInArcs" (colInArcs adj) col ;;
        if fst arcs =? snd arcs then Ok sc
        else if (bestOutArcCol c =? -1) || fgt (boundDistance col) (outArcColBoundDist c)
        then Ok (mkScanState (sc_state sc) (addedSubstitutionRows sc)
                   (mkCandidates col v (boundDistance col)
                      (bestInArcCol c) (inArcColVal c) (inArcColBoundDist c)))
        else Ok sc
      else
        arcs <- vget "colOutArcs" (colOutArcs adj) col ;;
        if fst arcs =? snd arcs then Ok sc
        else if (bestInArcCol c =? -1) || fgt (boundDistance col) (inArcColBoundDist c)
        then Ok (mkScanState (sc_state sc) (addedSubstitutionRows sc)
                   (mkCandidates (bestOutArcCol c) (outArcColVal c) (outArcColBoundDist c)
                      col v (boundDistance col)))
        else Ok sc.

(** Lines 190-234: read the aggregation and scan it. *)
Definition scanBaseRow (s : State) : res (list Z * list double * ScanState) :=
  let '(baseRowInds, baseRowVals, s1) := doGetAggregation false s in
  sc <- forNe 0 (vsize baseRowInds) (scanEntry baseRowInds baseRowVals)
          (mkScanState s1 false noCandidates) ;;
  Ok (baseRowInds, baseRowVals, sc).

(** The row chosen so far by a scan of an arc list: [row], [weight], [score]. *)
Record ArcChoice : Type := mkArcChoice {
  ac_row : Z;
  ac_weight : double;
  ac_score : double
}.

Definition noChoice : ArcChoice := mkArcChoice (-1) 0%float 0%float.

(** The body of the loops of lines 261-275 and 286-300, which differ only
    in the arc table read and the coefficient cancelled. *)
Definition arcStep (name : string) (arcRows : list (Z * double)) (colVal : double)
    (k : Z) (st : ArcChoice * State) : res (ArcChoice * State) :=
  let '(ch, s) := st in
  '(thisRow, coef) <- vget name arcRows k ;;
  let thisWeight := (- colVal / coef)%float in
  if negb (checkWeight thisWeight) then Ok st
  else
    dual <- vget "row_dual" (row_dual lpSolution) thisRow ;;
    let thisScore := abs (thisWeight * dual)%float in
    let chosen := mkArcChoice thisRow thisWeight thisScore in
    if (ac_row ch =? -1) || fgt thisScore (ac_score ch + feastol)%float
    then Ok (chosen, s)
    else if fge thisScore (ac_score ch - feastol)%float
    then let '(b, s') := doBit s in Ok (if b then chosen else ch, s')
    else Ok st.

Definition scanArcRows (name : string) (arcRows : list (Z * double))
    (range : Z * Z) (colVal : double) (s : State) : res (ArcChoice * State) :=
  forLt (fst range) (snd range) (arcStep name arcRows colVal) (noChoice, s).

Inductive RoundResult : Type :=
| RoundContinue (s : State) (currPathLen : Z)   (* next iteration of the while loop *)
| RoundBreak (s : State).                       (* break *)

(** Lines 281-305, the block labelled [check_out_arc_col]. *)
Definition checkOutArcCol (c : Candidates) (currPathLen : Z) (s : State) : res RoundResult :=
  range <- vget "colOutArcs" (colOutArcs adj) (bestInArcCol c) ;;
  '(ch, s1) <- scanArcRows "outArcRows" (outArcRows adj) range (inArcColVal c) s ;;
  if ac_row ch =? -1 then Ok (RoundBreak s1)
  else Ok (RoundContinue (doAddRow ExtensionRow (ac_row ch) (ac_weight ch) s1) currPathLen).

(** The test of lines 255-257: is the out-arc candidate tried first? *)
Definition preferOutArc (c : Candidates) : bool :=
  (bestInArcCol c =? -1)
  || (negb (bestOutArcCol c =? -1)
      && fge (outArcColBoundDist c) (inArcColBoundDist c - feastol)%float).

(** Lines 250-305: extend the path by one row. *)
Definition extendPath (c : Candidates) (currPathLen : Z) (s : State) : res RoundResult :=
  let currPathLen := currPathLen + 1 in
  if preferOutArc c then
    range <- vget "colInArcs" (colInArcs adj) (bestOutArcCol c) ;;
    '(ch, s1) <- scanArcRows "inArcRows" (inArcRows adj) range (outArcColVal c) s ;;
    if ac_row ch =? -1 then checkOutArcCol c currPathLen s1
    else Ok (RoundContinue (doAddRow ExtensionRow (ac_row ch) (ac_weight ch) s1) currPathLen)
  else checkOutArcCol c currPathLen s.

(** Lines 238-246: the two cut generation attempts; the second call is the
    right operand of [||]. *)
Definition attemptCuts (baseRowInds : list Z) (baseRowVals : list double) (s : State)
  : bool * State :=
  let '(success, s1) := doGenerateCut false baseRowInds baseRowVals s in
  let '(inds', vals', s2) := doGetAggregation true s1 in
  if success then (true, s2)
  else doGenerateCut true inds' vals' s2.

(** One iteration of the while loop, lines 190-305. *)
Definition pathRound (s : State) (currPathLen : Z) : res RoundResult :=
  '(baseRowInds, baseRowVals, sc) <- scanBaseRow s ;;
  if addedSubstitutionRows sc then Ok (RoundContinue (sc_state sc) currPathLen)
  else
    let c := sc_cands sc in
    let '(success, s2) := attemptCuts baseRowInds baseRowVals (sc_state sc) in
    if success || ((bestOutArcCol c =? -1) && (bestInArcCol c =? -1))
    then Ok (RoundBreak s2)
    else extendPath c currPathLen s2.

(** [while (currPathLen != maxPathLen) ...], lines 189-306. *)
Fixpoint pathLoop (fuel : nat) (s : State) (currPathLen : Z) : res State :=
  if currPathLen =? maxPathLen then Ok s
  else
    match fuel with
    | O => OutOfFuel
    | S fuel' =>
        r <- pathRound s currPathLen ;;
        match r with
        | RoundContinue s' len' => pathLoop fuel' s' len'
        | RoundBreak s' => Ok s'
        end
    end.

(** The body of the loop over the seed rows, lines 170-308. *)
Definition separateRow (fuel : nat) (i : Z) (s : State) : res State :=
  k <- vget "rowtype" (rowtype adj) i ;;
  match k with
  | kUnusuable => Ok s
  | _ =>
      let w := match k with kLeq => (-1)%float | _ => 1%float end in
      s' <- pathLoop fuel (doAddRow SeedRow i w s) 1 ;;
      Ok (doClear s')
  end.

(** Lines 164-309. *)
Definition separateRows (fuel : nat) (s : State) : res State :=
  forNe 0 (num_row_ lp) (separateRow fuel) s.

End WithAdjacency.

(** [HighsPathSeparator::separateLpSolution]. The state passed in holds the
    aggregator, the cut generator with its pool, and the generator the
    separator object was left with by its previous call. [fuel] bounds the
    iterations of the while loop of each seed row. *)
Definition separateLpSolution (fuel : nat) (s : State) : res State :=
  let s0 := mkSepState (aggregator s) (cutGen s)
              (initialise (random_seed + getNumLpIterations)) (trace s) in
  adj <- buildAdjacency ;;
  separateRows adj fuel s0.

End PathLoop.


(* ================================================================== *)
(** ** The specification's wording, as definitions to compare with *)
(* ================================================================== *)

(** Row classification as the specification words it: a slack is infinite
    when its bound is infinite, and otherwise measured from the activity. *)
Definition lowerSlack (lower value : double) : double :=
  if feq lower (- kHighsInf)%float then kHighsInf else (value - lower)%float.

Definition upperSlack (upper value : double) : double :=
  if feq upper kHighsInf then kHighsInf else (upper - value)%float.

Definition specRowKind (tol lower upper value : double) : RowType :=
  if feq lower upper then kEq
  else if fgt (lowerSlack lower value) tol && fgt (upperSlack upper value) tol
  then kUnusuable
  else if flt (lowerSlack lower value) (upperSlack upper value) then kGeq
  else kLeq.

Section SubstitutionSpec.
Context {R : Relaxation}.

(** A column the separator works with: continuous type, nonzero bound
    distance. *)
Definition eligibleCol (col : Z) : bool :=
  isContinuousType (variableType col) && negb (atBound col).

(** Row [i] qualifies as the substitution source of column [col] with pivot
    [val]: it was classified Equality, its count of eligible continuous
    incidences is one, and the first eligible entry of the row is
    [(col, val)]. *)
Definition qualifies (rowtype0 : list RowType) (numContinuous : list Z)
    (i col : Z) (val : double) : Prop :=
  0 <= i < num_row_ lp /\
  vget "rowtype" rowtype0 i = Ok kEq /\
  vget "numContinuous" numContinuous i = Ok 1 /\
  vget "rowinds" (getRow i) (firstEligible (getRow i) 0) = Ok (col, val) /\
  eligibleCol col = true.

End SubstitutionSpec.

Section ArcSpec.
Context {R : Relaxation}.

(** The incidences of a column in the column-wise matrix: the entries
    [a_start_[col]], ..., [a_start_[col + 1] - 1], each a row index with its
    coefficient. *)
Definition entryAt (p : Z) : Z * double :=
  (nth (Z.to_nat p) (a_index_ lp) 0, nth (Z.to_nat p) (a_value_ lp) 0%float).

Definition columnEntries (col : Z) : list (Z * double) :=
  map entryAt (zrange (nth (Z.to_nat col) (a_start_ lp) 0)
                      (nth (Z.to_nat (col + 1)) (a_start_ lp) 0)).

Definition kindOf (rt : list RowType) (r : Z) : RowType :=
  nth (Z.to_nat r) rt kUnusuable.

(** An incidence goes to the in-arc side ([side = true]) or to the out-arc
    side ([side = false]) when its row is usable and the sign test says so. *)
Definition goesTo (rt : list RowType) (side : bool) (e : Z * double) : bool :=
  match kindOf rt (fst e) with
  | kUnusuable => false
  | k => Bool.eqb (isInArc k (snd e)) side
  end.

(** The arc lists of a column, read through its two index ranges. *)
Definition inArcsOf (t : ArcTables) (col : Z) : list (Z * double) :=
  let r := nth (Z.to_nat col) (t_colInArcs t) (0, 0) in
  slice (t_inArcRows t) (fst r) (snd r).

Definition outArcsOf (t : ArcTables) (col : Z) : list (Z * double) :=
  let r := nth (Z.to_nat col) (t_colOutArcs t) (0, 0) in
  slice (t_outArcRows t) (fst r) (snd r).

(** The number of incidences of row [r] in column [col], and the number of
    incidences of row [r] in the continuous columns off their bound. *)
Definition incidencesIn (col r : Z) : Z :=
  Z.of_nat (length (filter (fun e => fst e =? r) (columnEntries col))).

Definition eligibleIncidences (cols : list Z) (r : Z) : Z :=
  fold_right (fun col acc => (if atBound col then 0 else incidencesIn col r) + acc) 0 cols.

End ArcSpec.

(** *** Reading the trace *)

(** A row folded into the aggregation that counts toward the path length:
    the seed row or an extension row, not a substitution row. *)
Definition isPathRow (e : event) : bool :=
  match e with
  | EvAddRow SeedRow _ _ | EvAddRow ExtensionRow _ _ => true
  | _ => false
  end.

Definition isAddRow (e : event) : bool :=
  match e with EvAddRow _ _ _ => true | _ => false end.

Definition isGenerateCut (e : event) : bool :=
  match e with EvGenerateCut _ _ _ _ _ => true | _ => false end.

(** The rows counting toward the path length among some events. *)
Definition pathRows (tr : list event) : list event := filter isPathRow tr.

(** The numerically safe band of the specification:
    tolerance <= |weight| <= 1 / tolerance, in binary64 arithmetic. *)
Definition inSafeBand (tol w : double) : Prop :=
  PrimFloat.leb tol (abs w) = true /\ PrimFloat.leb (abs w) (1 / tol)%float = true.

(** Every extension row among some events was folded with a safe weight. *)
Definition extensionsSafe (tol : double) (tr : list event) : Prop :=
  forall row w, In (EvAddRow ExtensionRow row w) tr -> inSafeBand tol w.

(** [a] exceeds [b] by more than the tolerance: a - tol > b, in binary64
    arithmetic. *)
Definition exceedsByMoreThan (tol a b : double) : bool := fgt (a - tol)%float b.

(** The same relaxation under another configured seed and another count of
    LP iterations. *)
Definition withSeed (R : Relaxation) (seed iters : Z) : Relaxation := {|
  lp := @lp R;
  lpSolution := @lpSolution R;
  getNumLpIterations := iters;
  getRow := @getRow R;
  isColIntegral := @isColIntegral R;
  feastol := @feastol R;
  continuous_cols := @continuous_cols R;
  random_seed := seed;
  variableType := @variableType R;
  boundDistance := @boundDistance R
|}.

(* ================================================================== *)
(** ** Loop invariants and shapes used in the proofs *)
(* ================================================================== *)

(** Events that fold no path row: substitution rows, cut generation
    attempts, random bits. *)
Definition quiet (new : list event) : Prop :=
  Forall (fun e => isPathRow e = false) new.

(** Events that are substitution rows only. *)
Definition subsOnly (new : list event) : Prop :=
  Forall (fun e => exists r w, e = EvAddRow SubstitutionRow r w) new.

Section Invariants.
Context {R : Relaxation}.

(** The state of the detection loop once the rows below [k] are done. *)
Definition detectInv (rowtype0 : list RowType) (numContinuous : list Z) (k : Z)
    (st : list (Z * double) * list RowType) : Prop :=
  let '(subst, rt) := st in
  vsize subst = num_col_ lp /\
  vsize rt = vsize rowtype0 /\
  (forall j, k <= j -> vget "rowtype" rt j = vget "rowtype" rowtype0 j) /\
  (forall j, 0 <= j < k ->
     vget "rowtype" rt j = vget "rowtype" rowtype0 j \/
     exists col val, vget "colSubstitutions" subst col = Ok (j, val)) /\
  (forall col i val, vget "colSubstitutions" subst col = Ok (i, val) ->
     (i = -1 /\ forall i' v', i' < k -> ~ qualifies rowtype0 numContinuous i' col v') \/
     (0 <= i < k /\ qualifies rowtype0 numContinuous i col val /\
      (forall i' v', qualifies rowtype0 numContinuous i' col v' -> i <= i') /\
      vget "rowtype" rt i = Ok kUnusuable)).

(** What the tables say about a column whose arcs have been built. *)
Definition colGood (rt : list RowType) (t : ArcTables) (c : Z) : Prop :=
  exists li hi lo ho,
    vget "colInArcs" (t_colInArcs t) c = Ok (li, hi) /\
    0 <= li <= hi /\ hi <= vsize (t_inArcRows t) /\
    slice (t_inArcRows t) li hi = filter (goesTo rt true) (columnEntries c) /\
    vget "colOutArcs" (t_colOutArcs t) c = Ok (lo, ho) /\
    0 <= lo <= ho /\ ho <= vsize (t_outArcRows t) /\
    slice (t_outArcRows t) lo ho = filter (goesTo rt false) (columnEntries c).

Definition takesPart (subst : list (Z * double)) (c : Z) : Prop :=
  atBound c = false /\ exists x, vget "colSubstitutions" subst c = Ok (-1, x).

End Invariants.

Section RoundShapes.
Context {R : Relaxation}.
Context {Agg Cut Rng : Type}.
Context {AggOps : LpAggregator Agg} {CutOps : CutGeneration Cut} {RngOps : Random Rng}.

(** What a round ends with: a break that folded no path row, a
    continuation after substitutions only, or a continuation that folded
    exactly one extension row whose weight passed [checkWeight]. *)
Definition roundShape (s : SepState Agg Cut Rng) (currPathLen : Z)
    (r : @RoundResult Agg Cut Rng) : Prop :=
  match r with
  | RoundBreak s' => exists new, trace s' = new ++ trace s /\ quiet new
  | RoundContinue s' len' =>
      (len' = currPathLen /\ exists new, trace s' = new ++ trace s /\ quiet new) \/
      (len' = currPathLen + 1 /\
       exists new row w,
         trace s' = EvAddRow ExtensionRow row w :: new ++ trace s /\
         quiet new /\ checkWeight w = true)
  end.


End RoundShapes.

(* ================================================================== *)
(** ** Further properties of the separator: what they speak about *)
(* ================================================================== *)

Section ScanDefs.
Context {R : Relaxation}.

(** The test of lines 204-206: an entry of the aggregated row whose column
    is a structural column, off its bound and not integral. *)
Definition scanned (col : Z) : bool :=
  negb ((col >=? num_col_ lp) || atBound col || isColIntegral col).

(** An entry [(col, v)] of the aggregated row that the scan of lines
    202-234 accepts as an out-arc candidate: scanned, without recorded
    substitution, with a negative coefficient and a non-empty in-arc range. *)
Definition outEntry (adj : Adjacency) (col : Z) (v : double) : Prop :=
  scanned col = true /\
  (exists p, vget "colSubstitutions" (colSubstitutions adj) col = Ok (-1, p)) /\
  flt v 0%float = true /\
  exists lo hi, vget "colInArcs" (colInArcs adj) col = Ok (lo, hi) /\ lo <> hi.

(** The same for an in-arc candidate: a coefficient that is not negative
    and a non-empty out-arc range. *)
Definition inEntry (adj : Adjacency) (col : Z) (v : double) : Prop :=
  scanned col = true /\
  (exists p, vget "colSubstitutions" (colSubstitutions adj) col = Ok (-1, p)) /\
  flt v 0%float = false /\
  exists lo hi, vget "colOutArcs" (colOutArcs adj) col = Ok (lo, hi) /\ lo <> hi.

End ScanDefs.

Section ScanInvariants.
Context {R : Relaxation}.
Context {Agg Cut Rng : Type}.
Context {AggOps : LpAggregator Agg} {CutOps : CutGeneration Cut} {RngOps : Random Rng}.

Abbreviation State := (SepState Agg Cut Rng).

(** The state of a scan that has seen the arcs [lo .. p-1]. *)
Definition scanInv (name : string) (arcRows : list (Z * double)) (colVal : double)
    (lo : Z) (s : State) (p : Z) (st : ArcChoice * State) : Prop :=
  let '(ch, s') := st in
  aggregator s' = aggregator s /\ cutGen s' = cutGen s /\
  (ac_row ch = -1 ->
   trace s' = trace s /\ randgen s' = randgen s /\
   forall k r coef, lo <= k < p -> vget name arcRows k = Ok (r, coef) ->
     checkWeight (- colVal / coef)%float = false) /\
  (ac_row ch <> -1 ->
   exists k coef dual,
     lo <= k < p /\
     vget name arcRows k = Ok (ac_row ch, coef) /\
     vget "row_dual" (row_dual lpSolution) (ac_row ch) = Ok dual /\
     ac_weight ch = (- colVal / coef)%float /\
     checkWeight (ac_weight ch) = true /\
     ac_score ch = abs (ac_weight ch * dual)%float) /\
  exists bs, trace s' = map EvBit bs ++ trace s.

(** Entry [j] of the aggregated row, among the first [p] entries. *)
Definition entryBefore (inds : list Z) (vals : list double) (p j col : Z) (v : double)
  : Prop :=
  0 <= j < p /\
  vget "baseRowInds" inds j = Ok col /\ vget "baseRowVals" vals j = Ok v.

(** The out-arc candidate [bestOutArcCol], [outArcColVal],
    [outArcColBoundDist] is the right one for the first [p] entries of the
    aggregated row: there is none exactly when no entry is acceptable; the
    one there is an acceptable entry with its coefficient and its bound
    distance; and no acceptable entry has a larger bound distance. *)
Definition outBest (adj : Adjacency) (inds : list Z) (vals : list double) (p : Z)
    (c : Candidates) : Prop :=
  (bestOutArcCol c = -1 ->
   forall j col v, entryBefore inds vals p j col v -> ~ outEntry adj col v) /\
  (bestOutArcCol c <> -1 ->
   (exists j, entryBefore inds vals p j (bestOutArcCol c) (outArcColVal c)) /\
   outEntry adj (bestOutArcCol c) (outArcColVal c) /\
   outArcColBoundDist c = boundDistance (bestOutArcCol c)) /\
  (forall j col v, entryBefore inds vals p j col v -> outEntry adj col v ->
     fgt (boundDistance col) (outArcColBoundDist c) = false).

(** The same for the in-arc candidate. *)
Definition inBest (adj : Adjacency) (inds : list Z) (vals : list double) (p : Z)
    (c : Candidates) : Prop :=
  (bestInArcCol c = -1 ->
   forall j col v, entryBefore inds vals p j col v -> ~ inEntry adj col v) /\
  (bestInArcCol c <> -1 ->
   (exists j, entryBefore inds vals p j (bestInArcCol c) (inArcColVal c)) /\
   inEntry adj (bestInArcCol c) (inArcColVal c) /\
   inArcColBoundDist c = boundDistance (bestInArcCol c)) /\
  (forall j col v, entryBefore inds vals p j col v -> inEntry adj col v ->
     fgt (boundDistance col) (inArcColBoundDist c) = false).

(** No scanned entry among the first [p] has a recorded substitution. *)
Definition noSubstitutionBefore (adj : Adjacency) (inds : list Z) (p : Z) : Prop :=
  forall j col, 0 <= j < p -> vget "baseRowInds" inds j = Ok col -> scanned col = true ->
    exists piv, vget "colSubstitutions" (colSubstitutions adj) col = Ok (-1, piv).

(** The substitution row that entry [j] of the aggregated row asks for, if
    any (lines 204-213): the row recorded for its column and the weight
    [-baseRowVals[j] / pivot]. *)
Definition substitutionFold (adj : Adjacency) (inds : list Z) (vals : list double)
    (j : Z) : list (Z * double) :=
  match vget "baseRowInds" inds j with
  | Ok col =>
      if scanned col then
        match vget "colSubstitutions" (colSubstitutions adj) col with
        | Ok (row, piv) =>
            if row =? -1 then []
            else match vget "baseRowVals" vals j with
                 | Ok v => [(row, (- v / piv)%float)]
                 | _ => []
                 end
        | _ => []
        end
      else []
  | _ => []
  end.

(** The substitution rows asked for by the first [p] entries, in order. *)
Definition substitutionFolds (adj : Adjacency) (inds : list Z) (vals : list double)
    (p : Z) : list (Z * double) :=
  flat_map (substitutionFold adj inds vals) (zrange 0 p).

(** Folding rows into the aggregation as substitution rows, one by one. *)
Definition foldSubstitutions (rows : list (Z * double)) (s : State) : State :=
  fold_left (fun st rw => doAddRow SubstitutionRow (fst rw) (snd rw) st) rows s.

(** What the scan of the first [p] entries has done to the state it
    started in, and when it has set [addedSubstitutionRows]. *)
Definition foldsInv (adj : Adjacency) (inds : list Z) (vals : list double) (s1 : State)
    (p : Z) (sc : @ScanState Agg Cut Rng) : Prop :=
  sc_state sc = foldSubstitutions (substitutionFolds adj inds vals p) s1 /\
  (addedSubstitutionRows sc = true <->
   exists j col row piv,
     0 <= j < p /\ vget "baseRowInds" inds j = Ok col /\ scanned col = true /\
     vget "colSubstitutions" (colSubstitutions adj) col = Ok (row, piv) /\ row <> -1).

(** What the scan of the first [p] entries has established as long as it
    has folded in no substitution row: the state is the one the aggregation
    was read in, and both candidates are the right ones. *)
Definition candInv (adj : Adjacency) (inds : list Z) (vals : list double) (s1 : State)
    (p : Z) (sc : @ScanState Agg Cut Rng) : Prop :=
  addedSubstitutionRows sc = false ->
  sc_state sc = s1 /\
  outBest adj inds vals p (sc_cands sc) /\
  inBest adj inds vals p (sc_cands sc) /\
  noSubstitutionBefore adj inds p.

End ScanInvariants.

Section RowRoles.
Context {R : Relaxation}.

(** A row the separator may aggregate: classified, and not [kUnusuable]. *)
Definition usable (rt : list RowType) (r : Z) : Prop :=
  exists k, vget "rowtype" rt r = Ok k /\ k <> kUnusuable.

(** The rows of both arc lists are usable. *)
Definition arcRowsUsable (rt : list RowType) (t : ArcTables) : Prop :=
  Forall (fun e => usable rt (fst e)) (t_inArcRows t) /\
  Forall (fun e => usable rt (fst e)) (t_outArcRows t).

(** What the construction phase guarantees about the tables the path loop
    reads: a row recorded as the source of a substitution is unusable, and
    every row of an arc list is usable. *)
Definition adjSound (adj : Adjacency) : Prop :=
  (forall col r piv,
     vget "colSubstitutions" (colSubstitutions adj) col = Ok (r, piv) -> r <> -1 ->
     vget "rowtype" (rowtype adj) r = Ok kUnusuable) /\
  (forall k r coef,
     vget "inArcRows" (inArcRows adj) k = Ok (r, coef) -> usable (rowtype adj) r) /\
  (forall k r coef,
     vget "outArcRows" (outArcRows adj) k = Ok (r, coef) -> usable (rowtype adj) r).

(** The weight a seed row is folded in with (lines 176-178). *)
Definition seedWeight (k : RowType) : double :=
  match k with kLeq => (-1)%float | _ => 1%float end.

(** The role a row is folded into the aggregation in fits the tables:
    a seed row is a usable row with the weight of its kind; a substitution
    row is the recorded source of the substitution of a scanned column, and
    unusable; an extension row is a usable row taken from an arc list. *)
Definition rolesOk (adj : Adjacency) (e : event) : Prop :=
  match e with
  | EvAddRow SeedRow r w =>
      exists k, vget "rowtype" (rowtype adj) r = Ok k /\ k <> kUnusuable /\
                w = seedWeight k
  | EvAddRow SubstitutionRow r w =>
      vget "rowtype" (rowtype adj) r = Ok kUnusuable /\
      exists col piv,
        scanned col = true /\
        vget "colSubstitutions" (colSubstitutions adj) col = Ok (r, piv)
  | EvAddRow ExtensionRow r w =>
      usable (rowtype adj) r /\
      ((exists k coef, vget "inArcRows" (inArcRows adj) k = Ok (r, coef)) \/
       (exists k coef, vget "outArcRows" (outArcRows adj) k = Ok (r, coef)))
  | _ => True
  end.

End RowRoles.

(** The events of [tr'] are those of [tr] and, before them, new ones that
    all satisfy [P]. *)
Definition grows (P : event -> Prop) (tr tr' : list event) : Prop :=
  exists new, tr' = new ++ tr /\ Forall P new.




Section WellFormed.
Context {R : Relaxation}.

(** A continuous column as the construction phase needs it, unless the
    column is at its bound and skipped: the column is a column of the LP,
    its entries [a_start_[col] .. a_start_[col+1]-1] lie within [a_index_]
    and [a_value_], and each entry is a row of the LP. *)
Definition wfColumn (col : Z) : bool :=
  atBound col ||
  let b := nth (Z.to_nat col) (a_start_ lp) 0 in
  let e := nth (Z.to_nat (col + 1)) (a_start_ lp) 0 in
  (0 <=? col) && (col <? num_col_ lp) &&
  (0 <=? b) && (b <=? e) &&
  (e <=? vsize (a_index_ lp)) && (e <=? vsize (a_value_ lp)) &&
  forallb (fun i => let r := nth (Z.to_nat i) (a_index_ lp) 0 in
                    (0 <=? r) && (r <? num_row_ lp))
          (zrange b e).

(** A row with one incidence in the continuous columns off their bound
    holds, in the row-wise copy, an entry whose column is of continuous
    type and off its bound, and that column is a column of the LP: the
    search of lines 94-99 stops inside the row. *)
Definition rowLocated (i : Z) : bool :=
  negb (eligibleIncidences continuous_cols i =? 1) ||
  match vget "rowinds" (getRow i) (firstEligible (getRow i) 0) with
  | Ok (col, _) => (0 <=? col) && (col <? num_col_ lp)
  | _ => false
  end.

(** The data the construction phase is called with is consistent. *)
Definition wellFormed : bool :=
  (0 <=? num_row_ lp) && (0 <=? num_col_ lp) &&
  (num_row_ lp <=? vsize (row_lower_ lp)) &&
  (num_row_ lp <=? vsize (row_upper_ lp)) &&
  (num_row_ lp <=? vsize (row_value lpSolution)) &&
  (num_col_ lp <? vsize (a_start_ lp)) &&
  forallb wfColumn continuous_cols &&
  forallb rowLocated (zrange 0 (num_row_ lp)).

(** The sizes of the tables the construction phase returns, and the arc
    ranges of the columns, which lie within the arc lists. *)
Definition rangesWithin (cols : list (Z * Z)) (n : Z) : Prop :=
  Forall (fun p => 0 <= fst p <= snd p /\ snd p <= n) cols.

Definition adjShape (adj : Adjacency) : Prop :=
  vsize (rowtype adj) = num_row_ lp /\
  vsize (colSubstitutions adj) = num_col_ lp /\
  vsize (colInArcs adj) = num_col_ lp /\
  vsize (colOutArcs adj) = num_col_ lp /\
  rangesWithin (colInArcs adj) (vsize (inArcRows adj)) /\
  rangesWithin (colOutArcs adj) (vsize (outArcRows adj)).

End WellFormed.

Section ArcShape.
Context {R : Relaxation}.

(** The arc tables while they are built: one range per column, each
    within the arc list it points into. *)
Definition tablesShape (t : ArcTables) : Prop :=
  vsize (t_colInArcs t) = num_col_ lp /\
  vsize (t_colOutArcs t) = num_col_ lp /\
  rangesWithin (t_colInArcs t) (vsize (t_inArcRows t)) /\
  rangesWithin (t_colOutArcs t) (vsize (t_outArcRows t)).

End ArcShape.

Section ReadContract.
Context {Agg Cut Rng : Type}.
Context {AggOps : LpAggregator Agg}.

(** What the loop needs of the aggregation it reads: a value for every
    index, and no negative column index. *)
Definition readOk (s : SepState Agg Cut Rng) : Prop :=
  vsize (fst (fst (doGetAggregation false s))) <=
    vsize (snd (fst (doGetAggregation false s))) /\
  Forall (fun col => 0 <= col) (fst (fst (doGetAggregation false s))).

End ReadContract.
(* ================================================================== *)
(** ** Small collaborators and relaxations to run the separator on *)
(* ================================================================== *)

(** Modelled from the spec: the Row Aggregator ([HighsLpAggregator], whose
    code is not among the sources). The spec describes it as the weighted
    sum of the rows added so far, kept as a sparse vector over the columns,
    read back as it is or in its other form, and reset by [clear]. Here the
    vector is an association list in order of first appearance, entries that
    compare equal to zero are not reported, and the other form is the
    negated row. *)
Fixpoint addEntry (col : Z) (x : double) (v : list (Z * double)) : list (Z * double) :=
  match v with
  | [] => [(col, x)]
  | (c, y) :: v' =>
      if c =? col then (c, (y + x)%float) :: v' else (c, y) :: addEntry col x v'
  end.

Definition sumAddRow (rowOf : Z -> list (Z * double)) (a : list (Z * double))
    (row : Z) (weight : double) : list (Z * double) :=
  fold_left (fun acc e => addEntry (fst e) (weight * snd e)%float acc) (rowOf row) a.

Definition sumRead (a : list (Z * double)) (negate : bool)
  : list Z * list double * list (Z * double) :=
  let nz := filter (fun e => fne (snd e) 0%float) a in
  (map fst nz, map (fun e => if negate then (- snd e)%float else snd e) nz, a).

#[local] Instance SumAggregator (rowOf : Z -> list (Z * double))
  : LpAggregator (list (Z * double)) := {
  addRow := sumAddRow rowOf;
  getCurrentAggregation := sumRead;
  clear := fun _ => []
}.

(** A cut generator to run the separator with: it answers from a script.
    The state is the list of the answers still to give, and it finds no cut
    once the script is used up. *)
#[local] Instance ScriptedCuts : CutGeneration (list bool) := {
  generateCut := fun script _ _ _ =>
    match script with
    | [] => (false, [])
    | b :: script' => (b, script')
    end
}.

(** A generator to run the separator with, in place of [HighsRandom]: the
    state is a number, a bit is its parity, and the number is halved after
    each draw. *)
#[local] Instance ParityBits : Random Z := {
  initialise := fun seed => seed;
  bit := fun r => (Z.odd r, r / 2)
}.

Definition tol6 : double := 1e-6%float.

(** Relaxation A. One continuous column off its bound in two [>=] rows that
    are tight at their lower bound:
      row 0:  -1e7 x0 >= 0        row 1:  x0 >= 0. *)
Definition lpA : HighsLp := {|
  num_col_ := 1; num_row_ := 2;
  row_lower_ := [0%float; 0%float];
  row_upper_ := [kHighsInf; kHighsInf];
  a_start_ := [0; 2];
  a_index_ := [0; 1];
  a_value_ := [(-1e7)%float; 1%float]
|}.

Definition rowsA (i : Z) : list (Z * double) :=
  if i =? 0 then [(0, (-1e7)%float)]
  else if i =? 1 then [(0, 1%float)]
  else [].

Definition relaxA : Relaxation := {|
  lp := lpA;
  lpSolution := {| row_value := [0%float; 0%float]; row_dual := [1%float; 1%float] |};
  getNumLpIterations := 10;
  getRow := rowsA;
  isColIntegral := fun _ => false;
  feastol := tol6;
  continuous_cols := [0];
  random_seed := 0;
  variableType := fun _ => kContinuous;
  boundDistance := fun _ => 1%float
|}.

Definition startA (script : list bool) : SepState (list (Z * double)) (list bool) Z :=
  mkSepState [] script 0 [].

(** Relaxation B. Columns x0, x1 continuous and off their bounds, x2
    integer:
      row 0:  x0 + 2 x2 = 3       row 1:  3 x0 + x2 = 1
      row 2:  x0 - x1 >= 0  (tight).
    Rows 0 and 1 both have x0 as their only eligible continuous column. *)
Definition lpB : HighsLp := {|
  num_col_ := 3; num_row_ := 3;
  row_lower_ := [3%float; 1%float; 0%float];
  row_upper_ := [3%float; 1%float; kHighsInf];
  a_start_ := [0; 3; 4; 6];
  a_index_ := [0; 1; 2; 2; 0; 1];
  a_value_ := [1%float; 3%float; 1%float; (-1)%float; 2%float; 1%float]
|}.

Definition rowsB (i : Z) : list (Z * double) :=
  if i =? 0 then [(0, 1%float); (2, 2%float)]
  else if i =? 1 then [(0, 3%float); (2, 1%float)]
  else if i =? 2 then [(0, 1%float); (1, (-1)%float)]
  else [].

Definition relaxB : Relaxation := {|
  lp := lpB;
  lpSolution := {| row_value := [3%float; 1%float; 0%float];
                   row_dual := [1%float; 1%float; 1%float] |};
  getNumLpIterations := 7;
  getRow := rowsB;
  isColIntegral := fun col => col =? 2;
  feastol := tol6;
  continuous_cols := [0; 1];
  random_seed := 0;
  variableType := fun col => if col =? 2 then kInteger else kContinuous;
  boundDistance := fun col =>
    if col =? 0 then 1%float else if col =? 1 then 0.5%float else 0.6%float
|}.

(** Relaxation C. Two continuous columns off their bounds in three [>=]
    rows that are tight at their lower bound:
      row 0:  -1e7 x0 + x1 >= 0     row 1:  x0 >= 0     row 2:  -x1 >= 0.
    Seeded with row 0, column 0 is the out-arc candidate and column 1 the
    in-arc candidate, at equal bound distance. *)
Definition lpC : HighsLp := {|
  num_col_ := 2; num_row_ := 3;
  row_lower_ := [0%float; 0%float; 0%float];
  row_upper_ := [kHighsInf; kHighsInf; kHighsInf];
  a_start_ := [0; 2; 4];
  a_index_ := [0; 1; 0; 2];
  a_value_ := [(-1e7)%float; 1%float; 1%float; (-1)%float]
|}.

Definition rowsC (i : Z) : list (Z * double) :=
  if i =? 0 then [(0, (-1e7)%float); (1, 1%float)]
  else if i =? 1 then [(0, 1%float)]
  else if i =? 2 then [(1, (-1)%float)]
  else [].

Definition relaxC : Relaxation := {|
  lp := lpC;
  lpSolution := {| row_value := [0%float; 0%float; 0%float];
                   row_dual := [1%float; 1%float; 1%float] |};
  getNumLpIterations := 3;
  getRow := rowsC;
  isColIntegral := fun _ => false;
  feastol := tol6;
  continuous_cols := [0; 1];
  random_seed := 0;
  variableType := fun _ => kContinuous;
  boundDistance := fun _ => 1%float
|}.

Definition adjC : Adjacency := {|
  rowtype := [kGeq; kGeq; kGeq];
  colSubstitutions := [(-1, 0%float); (-1, 0%float)];
  inArcRows := [(1, 1%float); (0, 1%float)];
  colInArcs := [(0, 1); (1, 2)];
  outArcRows := [(0, (-1e7)%float); (2, (-1)%float)];
  colOutArcs := [(0, 1); (1, 2)]
|}.

(** The separator run on a relaxation with the small collaborators. *)
Definition runSeparator (R : Relaxation) (fuel : nat)
    (s : SepState (list (Z * double)) (list bool) Z)
  : res (SepState (list (Z * double)) (list bool) Z) :=
  @separateLpSolution R _ _ _ (SumAggregator getRow) ScriptedCuts ParityBits fuel s.

(** The state of the small collaborators once seed row [i] of relaxation C
    (a [>=] row, weight 1) has been folded in; [script] holds the answers of
    the cut generator. *)
Definition seedC (i : Z) (script : list bool) : SepState (list (Z * double)) (list bool) Z :=
  @doAddRow _ _ _ (SumAggregator rowsC) SeedRow i 1%float (startA script).

(** The candidates found when row 0 of relaxation C is the aggregation:
    column 0 (coefficient -1e7) is the out-arc candidate and column 1
    (coefficient 1) the in-arc candidate, both at bound distance 1. *)
Definition candsC0 : Candidates :=
  mkCandidates 0 (-1e7)%float 1%float 1 1%float 1%float.

(** The separator on relaxation C with a cut generator that succeeds on
    its third and on its eighth attempt. *)
Definition scriptC : list bool :=
  [false; false; true; false; false; false; false; true].

(** Seed row 1 of relaxation C: column 0 (coefficient 1) is the in-arc
    candidate and there is no out-arc candidate. [afterCutsC1] is the state
    after the two failed cut generation attempts of the first round. *)
Definition candsC1 : Candidates :=
  mkCandidates (-1) 0%float 0%float 0 1%float 1%float.

Definition afterCutsC1 : SepState (list (Z * double)) (list bool) Z :=
  snd (@attemptCuts _ _ _ (SumAggregator rowsC) ScriptedCuts [0] [1%float] (seedC 1 [])).

(** What the construction phase builds for relaxation B: row 0 is the
    source of the substitution of column 0 (pivot 1) and column 1 has one
    out-arc row. *)
Definition adjB : Adjacency := {|
  rowtype := [kUnusuable; kEq; kGeq];
  colSubstitutions := [(0, 1%float); (-1, 0%float); (-1, 0%float)];
  inArcRows := [];
  colInArcs := [(0, 0); (0, 0); (0, 0)];
  outArcRows := [(2, (-1)%float)];
  colOutArcs := [(0, 0); (0, 1); (0, 0)]
|}.

(** The collaborators of relaxation B once seed row [i] has been folded in
    with weight 1. *)
Definition seedB (i : Z) (script : list bool) : SepState (list (Z * double)) (list bool) Z :=
  @doAddRow _ _ _ (SumAggregator rowsB) SeedRow i 1%float (startA script).

(** What the construction phase builds for relaxation A, and its
    collaborators once seed row [i] has been folded in with weight 1. *)
Definition adjA : Adjacency := {|
  rowtype := [kGeq; kGeq];
  colSubstitutions := [(-1, 0%float)];
  inArcRows := [(1, 1%float)];
  colInArcs := [(0, 1)];
  outArcRows := [(0, (-1e7)%float)];
  colOutArcs := [(0, 1)]
|}.

Definition seedA (i : Z) (script : list bool) : SepState (list (Z * double)) (list bool) Z :=
  @doAddRow _ _ _ (SumAggregator rowsA) SeedRow i 1%float (startA script).

(** Collaborators of relaxation B whose aggregation holds the integer
    column 2 only. *)
Definition integerRowB : SepState (list (Z * double)) (list bool) Z :=
  mkSepState [(2, 1%float)] [] 0 [].







(* ================================================================== *)
(** ** Loops and vectors *)
(* ================================================================== *)

Lemma bind_Ok_inv {A B} (m : res A) (k : A -> res B) (b : B) :
  bind m k = Ok b -> exists a, m = Ok a /\ k a = Ok b.
Proof. destruct m; simpl; intros H; try discriminate; eauto. Qed.

Ltac inv_bind H :=
  let x := fresh "x" in
  let Hx := fresh "Hx" in
  apply bind_Ok_inv in H; destruct H as (x & Hx & H).

Lemma zrange_nil (lo hi : Z) : hi <= lo -> zrange lo hi = [].
Proof.
  intros H. unfold zrange. replace (Z.to_nat (hi - lo)) with 0%nat by lia. reflexivity.
Qed.

Lemma zrange_cons (lo hi : Z) : lo < hi -> zrange lo hi = lo :: zrange (lo + 1) hi.
Proof.
  intros H. unfold zrange.
  replace (Z.to_nat (hi - lo)) with (S (Z.to_nat (hi - (lo + 1)))) by lia.
  simpl. f_equal; [lia|].
  rewrite <- seq_shift, map_map. apply map_ext. intros n. lia.
Qed.

Lemma zrange_In (lo hi i : Z) : In i (zrange lo hi) <-> lo <= i < hi.
Proof.
  unfold zrange. rewrite in_map_iff. split.
  - intros (n & <- & Hn). apply in_seq in Hn. lia.
  - intros H. exists (Z.to_nat (i - lo)). split; [lia|]. apply in_seq. lia.
Qed.

(** Invariant rule for a counted loop that returns. *)
Lemma foldM_range_inv {S} (I : Z -> S -> Prop) (body : Z -> S -> res S) (hi : Z) :
  (forall i s s', i < hi -> I i s -> body i s = Ok s' -> I (i + 1) s') ->
  forall n lo s s',
    Z.to_nat (hi - lo) = n -> lo <= hi -> I lo s ->
    foldM body (zrange lo hi) s = Ok s' -> I hi s'.
Proof.
  intros Hstep. induction n as [|n IH]; intros lo s s' Hn Hle HI Hrun.
  - rewrite zrange_nil in Hrun by lia. simpl in Hrun. injection Hrun as <-.
    replace hi with lo by lia. exact HI.
  - rewrite zrange_cons in Hrun by lia. simpl in Hrun. inv_bind Hrun.
    apply (IH (lo + 1) x s'); try lia; auto.
    apply (Hstep lo s x); auto; lia.
Qed.

Lemma forNe_inv {S} (I : Z -> S -> Prop) (body : Z -> S -> res S) (lo hi : Z) (s s' : S) :
  I lo s ->
  (forall i s s', lo <= i < hi -> I i s -> body i s = Ok s' -> I (i + 1) s') ->
  forNe lo hi body s = Ok s' -> lo <= hi /\ I hi s'.
Proof.
  intros HI Hstep Hrun. unfold forNe in Hrun.
  destruct (hi <? lo) eqn:E; [discriminate|]. apply Z.ltb_ge in E. split; [exact E|].
  assert (Hall : lo <= hi /\ I hi s'); [|tauto].
  apply (foldM_range_inv (fun i s => lo <= i /\ I i s) body hi) with (n := Z.to_nat (hi - lo))
    (lo := lo) (s := s) (s' := s'); auto; try lia.
  - intros i t t' Hi [Hlo Hinv] Hb. split; [lia|]. apply (Hstep i t t'); auto; lia.
  - split; [lia|exact HI].
Qed.

Lemma forLt_inv {S} (I : Z -> S -> Prop) (body : Z -> S -> res S) (lo hi : Z) (s s' : S) :
  lo <= hi -> I lo s ->
  (forall i s s', lo <= i < hi -> I i s -> body i s = Ok s' -> I (i + 1) s') ->
  forLt lo hi body s = Ok s' -> I hi s'.
Proof.
  intros Hle HI Hstep Hrun. unfold forLt in Hrun.
  assert (Hall : lo <= hi /\ I hi s'); [|tauto].
  apply (foldM_range_inv (fun i s => lo <= i /\ I i s) body hi) with (n := Z.to_nat (hi - lo))
    (lo := lo) (s := s) (s' := s'); auto; try lia.
  - intros i t t' Hi [Hlo Hinv] Hb. split; [lia|]. apply (Hstep i t t'); auto; lia.
  - split; [lia|exact HI].
Qed.

(** Invariant rule for a counted loop, with the proof that it returns. *)
Lemma foldM_range_total {S} (I : Z -> S -> Prop) (body : Z -> S -> res S) (hi : Z) :
  (forall i s, i < hi -> I i s -> exists s', body i s = Ok s' /\ I (i + 1) s') ->
  forall n lo s,
    Z.to_nat (hi - lo) = n -> lo <= hi -> I lo s ->
    exists s', foldM body (zrange lo hi) s = Ok s' /\ I hi s'.
Proof.
  intros Hstep. induction n as [|n IH]; intros lo s Hn Hle HI.
  - rewrite zrange_nil by lia. exists s. split; [reflexivity|].
    replace hi with lo by lia. exact HI.
  - rewrite zrange_cons by lia. simpl.
    destruct (Hstep lo s) as (s1 & Hb & HI1); [lia|exact HI|].
    rewrite Hb. simpl. apply IH; auto; lia.
Qed.

Lemma forNe_total {S} (I : Z -> S -> Prop) (body : Z -> S -> res S) (lo hi : Z) (s : S) :
  lo <= hi -> I lo s ->
  (forall i s, lo <= i < hi -> I i s -> exists s', body i s = Ok s' /\ I (i + 1) s') ->
  exists s', forNe lo hi body s = Ok s' /\ I hi s'.
Proof.
  intros Hle HI Hstep. unfold forNe.
  destruct (hi <? lo) eqn:E; [apply Z.ltb_lt in E; lia|].
  destruct (foldM_range_total (fun i s => lo <= i /\ I i s) body hi) with
    (n := Z.to_nat (hi - lo)) (lo := lo) (s := s) as (s' & Hrun & _ & HI'); auto; try lia.
  - intros i t Hi [Hlo Hinv]. destruct (Hstep i t) as (t' & Hb & HI1); auto; try lia.
    exists t'. split; [exact Hb|]. split; [lia|exact HI1].
  - split; [lia|exact HI].
  - exists s'. auto.
Qed.

Lemma vget_Ok {A} (name : string) (v : list A) (i : Z) (x : A) :
  vget name v i = Ok x <-> 0 <= i /\ nth_error v (Z.to_nat i) = Some x.
Proof.
  unfold vget. destruct (i <? 0) eqn:E.
  - apply Z.ltb_lt in E. split; [discriminate|lia].
  - apply Z.ltb_ge in E. destruct (nth_error v (Z.to_nat i)) eqn:En.
    + split; [intros [= <-]; auto|intros [_ [= <-]]; reflexivity].
    + split; [discriminate|intros [_ H]; discriminate].
Qed.

Lemma vget_range {A} (name : string) (v : list A) (i : Z) (x : A) :
  vget name v i = Ok x -> 0 <= i < vsize v.
Proof.
  intros H. apply vget_Ok in H. destruct H as [H0 H].
  assert (Z.to_nat i < length v)%nat by (apply nth_error_Some; congruence).
  unfold vsize. lia.
Qed.

Lemma vget_name {A} (n1 n2 : string) (v : list A) (i : Z) (x : A) :
  vget n1 v i = Ok x -> vget n2 v i = Ok x.
Proof. intros H. apply vget_Ok. apply vget_Ok in H. exact H. Qed.

Lemma vget_in_range {A} (name : string) (v : list A) (i : Z) (d : A) :
  0 <= i < vsize v -> vget name v i = Ok (nth (Z.to_nat i) v d).
Proof.
  intros H. apply vget_Ok. split; [lia|].
  apply nth_error_nth'. unfold vsize in H. lia.
Qed.

Lemma update_length {A} (v : list A) (n : nat) (x : A) : length (update v n x) = length v.
Proof. revert n. induction v; intros [|n]; simpl; auto. Qed.

Lemma nth_error_update_same {A} (v : list A) (n : nat) (x : A) :
  (n < length v)%nat -> nth_error (update v n x) n = Some x.
Proof.
  revert n. induction v; intros [|n] H; simpl in *; try lia; auto. apply IHv. lia.
Qed.

Lemma nth_error_update_other {A} (v : list A) (n m : nat) (x : A) :
  n <> m -> nth_error (update v n x) m = nth_error v m.
Proof.
  revert n m. induction v; intros [|n] [|m] H; simpl; auto; try congruence.
Qed.

Lemma vset_Ok {A} (name : string) (v v' : list A) (i : Z) (x : A) :
  vset name v i x = Ok v' <-> 0 <= i < vsize v /\ v' = update v (Z.to_nat i) x.
Proof.
  unfold vset, vsize. destruct (i <? 0) eqn:E1; simpl.
  - apply Z.ltb_lt in E1. split; [discriminate|lia].
  - apply Z.ltb_ge in E1. destruct (Z.of_nat (length v) <=? i) eqn:E2.
    + apply Z.leb_le in E2. split; [discriminate|lia].
    + apply Z.leb_gt in E2. split; [intros [= <-]; auto|intros [_ ->]; reflexivity].
Qed.

Lemma vset_in_range {A} (name : string) (v : list A) (i : Z) (x : A) :
  0 <= i < vsize v -> vset name v i x = Ok (update v (Z.to_nat i) x).
Proof. intros H. apply vset_Ok. auto. Qed.

Lemma vsize_update {A} (v : list A) (n : nat) (x : A) : vsize (update v n x) = vsize v.
Proof. unfold vsize. now rewrite update_length. Qed.

Lemma vget_update_same {A} (name : string) (v : list A) (i : Z) (x : A) :
  0 <= i < vsize v -> vget name (update v (Z.to_nat i) x) i = Ok x.
Proof.
  intros H. apply vget_Ok. split; [lia|]. apply nth_error_update_same. unfold vsize in H. lia.
Qed.

Lemma vget_update_other {A} (name : string) (v : list A) (i j : Z) (x : A) :
  0 <= i -> 0 <= j -> i <> j ->
  vget name (update v (Z.to_nat i) x) j = vget name v j.
Proof.
  intros Hi Hj Hne. unfold vget. destruct (j <? 0); [reflexivity|].
  rewrite nth_error_update_other by lia. reflexivity.
Qed.

Lemma vnew_Ok {A} (name : string) (n : Z) (x : A) (v : list A) :
  vnew name n x = Ok v <-> 0 <= n /\ v = repeat x (Z.to_nat n).
Proof.
  unfold vnew. destruct (n <? 0) eqn:E.
  - apply Z.ltb_lt in E. split; [discriminate|lia].
  - apply Z.ltb_ge in E. split; [intros [= <-]; auto|intros [_ ->]; reflexivity].
Qed.

Lemma vsize_repeat {A} (x : A) (n : Z) : 0 <= n -> vsize (repeat x (Z.to_nat n)) = n.
Proof. intros H. unfold vsize. rewrite repeat_length. lia. Qed.

Lemma vget_repeat {A} (name : string) (x : A) (n i : Z) :
  0 <= i < n -> vget name (repeat x (Z.to_nat n)) i = Ok x.
Proof.
  intros H. apply vget_Ok. split; [lia|].
  rewrite nth_error_repeat; [reflexivity|lia].
Qed.

(* ================================================================== *)
(** ** Row classification *)
(* ================================================================== *)

Section ClassificationFacts.
Context {R : Relaxation}.

Lemma classifyRow_spec (i : Z) (lower upper value : double) :
  vget "row_lower_" (row_lower_ lp) i = Ok lower ->
  vget "row_upper_" (row_upper_ lp) i = Ok upper ->
  vget "row_value" (row_value lpSolution) i = Ok value ->
  classifyRow i = Ok (specRowKind feastol lower upper value).
Proof.
  intros Hl Hu Hv. unfold classifyRow, specRowKind, lowerSlack, upperSlack, fne, feq.
  rewrite Hl, Hu. cbn [bind]. destruct (PrimFloat.eqb lower upper); [reflexivity|].
  rewrite Hv.
  destruct (PrimFloat.eqb lower (- kHighsInf)%float);
    destruct (PrimFloat.eqb upper kHighsInf); reflexivity.
Qed.

(** C4. With one lower bound, one upper bound and one activity per row, the
    classification loop returns a vector holding exactly one kind per row,
    and the kind of row [i] is the one the specification words: Equality
    when the bounds are equal, otherwise Unusable when both slacks exceed
    the tolerance, GreaterOrEqual when the lower slack is strictly the
    smaller one, LessOrEqual in every remaining case. *)
Theorem classification_partition :
  0 <= num_row_ lp ->
  num_row_ lp <= vsize (row_lower_ lp) ->
  num_row_ lp <= vsize (row_upper_ lp) ->
  num_row_ lp <= vsize (row_value lpSolution) ->
  exists rt,
    classifyRows = Ok rt /\
    vsize rt = num_row_ lp /\
    forall i, 0 <= i < num_row_ lp ->
      vget "rowtype" rt i =
        Ok (specRowKind feastol
              (nth (Z.to_nat i) (row_lower_ lp) 0%float)
              (nth (Z.to_nat i) (row_upper_ lp) 0%float)
              (nth (Z.to_nat i) (row_value lpSolution) 0%float)).
Proof.
  intros Hn Hl Hu Hv. unfold classifyRows.
  pose (kind := fun i => specRowKind feastol
              (nth (Z.to_nat i) (row_lower_ lp) 0%float)
              (nth (Z.to_nat i) (row_upper_ lp) 0%float)
              (nth (Z.to_nat i) (row_value lpSolution) 0%float)).
  assert (Hnew : vnew "rowtype" (num_row_ lp) kEq = Ok (repeat kEq (Z.to_nat (num_row_ lp))))
    by (apply vnew_Ok; auto).
  rewrite Hnew. simpl.
  destruct (forNe_total
              (fun k rt => vsize rt = num_row_ lp /\
                           forall i, 0 <= i < k -> vget "rowtype" rt i = Ok (kind i))
              (fun i rt => k <- classifyRow i ;; vset "rowtype" rt i k)
              0 (num_row_ lp) (repeat kEq (Z.to_nat (num_row_ lp))))
    as (rt & Hrun & Hsz & Hall); auto.
  - split; [apply vsize_repeat; auto|]. intros i Hi. lia.
  - intros i rt Hi [Hsz Hdone].
    rewrite (classifyRow_spec i
               (nth (Z.to_nat i) (row_lower_ lp) 0%float)
               (nth (Z.to_nat i) (row_upper_ lp) 0%float)
               (nth (Z.to_nat i) (row_value lpSolution) 0%float))
      by (apply vget_in_range; lia).
    simpl. rewrite vset_in_range by lia.
    eexists. split; [reflexivity|]. split; [rewrite vsize_update; exact Hsz|].
    intros j Hj. destruct (Z.eq_dec j i) as [->|Hne].
    + rewrite vget_update_same by lia. reflexivity.
    + rewrite vget_update_other by lia. apply Hdone. lia.
  - exists rt. auto.
Qed.

End ClassificationFacts.

(** The theorem at relaxation A: both rows are GreaterOrEqual. *)
Lemma classification_partition_witness :
  exists rt,
    @classifyRows relaxA = Ok rt /\
    vsize rt = 2 /\
    forall i, 0 <= i < 2 ->
      vget "rowtype" rt i =
        Ok (specRowKind tol6
              (nth (Z.to_nat i) [0%float; 0%float] 0%float)
              (nth (Z.to_nat i) [kHighsInf; kHighsInf] 0%float)
              (nth (Z.to_nat i) [0%float; 0%float] 0%float)).
Proof.
  apply (@classification_partition relaxA); simpl; unfold vsize; simpl; lia.
Defined.

(* ================================================================== *)
(** ** Detection of forced substitutions *)
(* ================================================================== *)

Section SubstitutionFacts.
Context {R : Relaxation}.

Lemma firstEligible_found (row : list (Z * double)) :
  forall j col val,
    0 <= j ->
    nth_error row (Z.to_nat (firstEligible row j - j)) = Some (col, val) ->
    j <= firstEligible row j ->
    eligibleCol col = true.
Proof.
  induction row as [|[c v] row IH]; intros j col val Hj Hnth Hle.
  - simpl in Hnth. destruct (Z.to_nat (j - j)); discriminate.
  - simpl in *. unfold eligibleCol.
    destruct (isContinuousType (variableType c)) eqn:Ec; simpl in *.
    + destruct (atBound c) eqn:Eb.
      * assert (Hge : j + 1 <= firstEligible row (j + 1)).
        { clear. revert j. induction row as [|[c' v'] row' IH']; intros j; simpl; [lia|].
          destruct (negb _); [specialize (IH' (j + 1)); lia|].
          destruct (atBound c'); [specialize (IH' (j + 1)); lia|lia]. }
        replace (Z.to_nat (firstEligible row (j + 1) - j))
          with (S (Z.to_nat (firstEligible row (j + 1) - (j + 1)))) in Hnth by lia.
        simpl in Hnth. apply (IH (j + 1) col val); auto; lia.
      * replace (Z.to_nat (j - j)) with 0%nat in Hnth by lia. simpl in Hnth.
        injection Hnth as <- <-. rewrite Ec, Eb. reflexivity.
    + assert (Hge : j + 1 <= firstEligible row (j + 1)).
      { clear. revert j. induction row as [|[c' v'] row' IH']; intros j; simpl; [lia|].
        destruct (negb _); [specialize (IH' (j + 1)); lia|].
        destruct (atBound c'); [specialize (IH' (j + 1)); lia|lia]. }
      replace (Z.to_nat (firstEligible row (j + 1) - j))
        with (S (Z.to_nat (firstEligible row (j + 1) - (j + 1)))) in Hnth by lia.
      simpl in Hnth. apply (IH (j + 1) col val); auto; lia.
Qed.

Lemma located_eligible (row : list (Z * double)) (col : Z) (val : double) :
  vget "rowinds" row (firstEligible row 0) = Ok (col, val) -> eligibleCol col = true.
Proof.
  intros H. apply vget_Ok in H. destruct H as [H0 H].
  apply (firstEligible_found row 0 col val); auto; try lia.
  now rewrite Z.sub_0_r.
Qed.


Lemma RowType_eqb_eq (a b : RowType) : RowType_eqb a b = true <-> a = b.
Proof. destruct a, b; simpl; split; intros H; congruence. Qed.

Lemma detectRow_inv (rowtype0 : list RowType) (numContinuous : list Z) (k : Z)
    (st st' : list (Z * double) * list RowType) :
  0 <= k < num_row_ lp ->
  detectInv rowtype0 numContinuous k st ->
  detectRow numContinuous k st = Ok st' ->
  detectInv rowtype0 numContinuous (k + 1) st'.
Proof.
  intros Hk Hinv Hrun. destruct st as [subst rt].
  destruct Hinv as (Hs & Hr & Hlater & Hearlier & Hrec).
  unfold detectRow in Hrun. inv_bind Hrun. rename x into kind.
  assert (Hkind : vget "rowtype" rowtype0 k = Ok kind)
    by (rewrite <- Hlater by lia; exact Hx).
  (* the state is left as it is when row k does not qualify for any column,
     or qualifies for a column that already has a substitution *)
  assert (Hskip : (forall col v, vget "colSubstitutions" subst col = Ok (-1, v) ->
                     forall v', ~ qualifies rowtype0 numContinuous k col v') ->
                  detectInv rowtype0 numContinuous (k + 1) (subst, rt)).
  { intros Hnot. split; [exact Hs|]. split; [exact Hr|]. split; [|split].
    - intros j Hj. apply Hlater. lia.
    - intros j Hj. destruct (Z.eq_dec j k) as [->|Hne].
      + left. apply Hlater. lia.
      + apply Hearlier. lia.
    - intros col i val Hget. destruct (Hrec col i val Hget) as [[-> Hno]|(Hi & Hq & Hmin & Hu)].
      + left. split; [reflexivity|]. intros i' v' Hi'.
        destruct (Z.eq_dec i' k) as [->|Hne]; [eapply Hnot; eauto|apply Hno; lia].
      + right. split; [lia|]. split; [exact Hq|]. split; [exact Hmin|exact Hu]. }
  destruct (RowType_eqb kind kEq) eqn:Ekind.
  2:{ injection Hrun as <-. apply Hskip. intros col v _ v' (_ & Hq & _).
      rewrite Hkind in Hq. injection Hq as ->. discriminate. }
  apply RowType_eqb_eq in Ekind. subst kind.
  inv_bind Hrun. rename x into n.
  destruct (n =? 1) eqn:En.
  2:{ injection Hrun as <-. apply Hskip. intros col v _ v' (_ & _ & Hq & _).
      rewrite Hx0 in Hq. injection Hq as ->. discriminate. }
  apply Z.eqb_eq in En. subst n.
  inv_bind Hrun. destruct x as [col val].
  inv_bind Hrun. destruct x as [i0 v0]. simpl in Hrun.
  destruct (i0 =? -1) eqn:Ei0; simpl in Hrun.
  2:{ injection Hrun as <-. apply Hskip. intros col' v Hget v' (_ & _ & _ & Hq & _).
      rewrite Hx1 in Hq. injection Hq as <- <-. rewrite Hx2 in Hget.
      injection Hget as -> _. discriminate. }
  apply Z.eqb_eq in Ei0. subst i0.
  inv_bind Hrun. rename x into subst'. inv_bind Hrun. rename x into rt'.
  injection Hrun as <-.
  apply vset_Ok in Hx3. destruct Hx3 as [Hcol ->].
  apply vset_Ok in Hx4. destruct Hx4 as [Hrow ->].
  assert (Hqk : qualifies rowtype0 numContinuous k col val).
  { split; [lia|]. split; [exact Hkind|]. split; [exact Hx0|]. split; [exact Hx1|].
    eapply located_eligible; eauto. }
  destruct (Hrec col (-1) v0 Hx2) as [[_ Hnone]|(Hbad & _)]; [|lia].
  split; [|split; [|split; [|split]]].
  - rewrite vsize_update. exact Hs.
  - rewrite vsize_update. exact Hr.
  - intros j Hj. rewrite vget_update_other by lia. apply Hlater. lia.
  - intros j Hj. destruct (Z.eq_dec j k) as [->|Hne].
    + right. exists col, val. apply vget_update_same. exact Hcol.
    + destruct (Hearlier j ltac:(lia)) as [Hsame|(c & v & Hget)].
      * left. rewrite vget_update_other by lia. exact Hsame.
      * right. exists c, v. destruct (Z.eq_dec c col) as [->|Hc].
        -- rewrite Hx2 in Hget. injection Hget as Hj' _. lia.
        -- pose proof (vget_range _ _ _ _ Hget). rewrite vget_update_other by lia. exact Hget.
  - intros c i v Hget. destruct (Z.eq_dec c col) as [->|Hc].
    + rewrite vget_update_same in Hget by exact Hcol. injection Hget as <- <-.
      right. split; [lia|]. split; [exact Hqk|]. split.
      * intros i' v' Hq. destruct (Z_lt_le_dec i' k) as [Hlt|Hge]; [|exact Hge].
        exfalso. exact (Hnone i' v' Hlt Hq).
      * apply vget_update_same. exact Hrow.
    + pose proof (vget_range _ _ _ _ Hget) as Hcr. rewrite vsize_update in Hcr.
      rewrite vget_update_other in Hget by lia.
      destruct (Hrec c i v Hget) as [[-> Hno]|(Hi & Hq & Hmin & Hu)].
      * left. split; [reflexivity|]. intros i' v' Hi' Hq.
        destruct (Z.eq_dec i' k) as [->|Hne]; [|apply (Hno i' v'); auto; lia].
        destruct Hq as (_ & _ & _ & Hq & _). rewrite Hx1 in Hq. injection Hq as <- _.
        congruence.
      * right. split; [lia|]. split; [exact Hq|]. split; [exact Hmin|].
        rewrite vget_update_other by lia. exact Hu.
Qed.

End SubstitutionFacts.

Section SubstitutionTheorem.
Context {R : Relaxation}.

Lemma detectSubstitutions_inv (rowtype0 : list RowType) (numContinuous : list Z)
    (subst : list (Z * double)) (rt : list RowType) :
  detectSubstitutions rowtype0 numContinuous = Ok (subst, rt) ->
  detectInv rowtype0 numContinuous (num_row_ lp) (subst, rt).
Proof.
  intros Hrun. unfold detectSubstitutions in Hrun. inv_bind Hrun. rename x into subst0.
  apply vnew_Ok in Hx. destruct Hx as [Hnc ->].
  apply (forNe_inv (detectInv rowtype0 numContinuous)) in Hrun; [tauto| |].
  - split; [apply vsize_repeat; exact Hnc|]. split; [reflexivity|].
    split; [reflexivity|]. split; [intros j Hj; lia|].
    intros col i val Hget. left.
    pose proof (vget_range _ _ _ _ Hget) as Hr. rewrite vsize_repeat in Hr by exact Hnc.
    rewrite vget_repeat in Hget by exact Hr. injection Hget as <- _.
    split; [reflexivity|]. intros i' v' Hi' (Hq & _). lia.
  - intros i s s' Hi Hinv Hb. eapply detectRow_inv; eauto.
Qed.

(** C5. After substitution detection, the entry recorded for a column is
    either [-1], and then no row qualifies for the column, or the first row
    in index order that qualifies: an Equality row with one eligible
    continuous incidence whose eligible entry (continuous type, nonzero
    bound distance) is this column. The recorded row is reclassified
    Unusable, every other row that qualifies for the column is left as it
    was (Equality) and recorded nowhere, and a second run on the same input
    returns the same substitution map. *)
Theorem substitution_first_row_wins (rowtype0 : list RowType) (numContinuous : list Z)
    (subst : list (Z * double)) (rt : list RowType) (col i : Z) (val : double) :
  detectSubstitutions rowtype0 numContinuous = Ok (subst, rt) ->
  vget "colSubstitutions" subst col = Ok (i, val) ->
  ((i = -1 /\ forall i' v', ~ qualifies rowtype0 numContinuous i' col v') \/
   (qualifies rowtype0 numContinuous i col val /\
    (forall i' v', qualifies rowtype0 numContinuous i' col v' -> i <= i') /\
    vget "rowtype" rt i = Ok kUnusuable /\
    (forall i' v', qualifies rowtype0 numContinuous i' col v' -> i' <> i ->
       vget "rowtype" rt i' = Ok kEq /\
       forall c v, vget "colSubstitutions" subst c <> Ok (i', v)))) /\
  (forall subst2 rt2,
     detectSubstitutions rowtype0 numContinuous = Ok (subst2, rt2) -> subst2 = subst).
Proof.
  intros Hrun Hget. split; [|intros subst2 rt2 H2; congruence].
  destruct (detectSubstitutions_inv _ _ _ _ Hrun) as (Hs & Hr & Hlater & Hearlier & Hrec).
  destruct (Hrec col i val Hget) as [[-> Hno]|(Hi & Hq & Hmin & Hu)].
  - left. split; [reflexivity|]. intros i' v' Hq. apply (Hno i' v'); [|exact Hq].
    destruct Hq as (Hq & _). lia.
  - right. split; [exact Hq|]. split; [exact Hmin|]. split; [exact Hu|].
    intros i' v' Hq' Hne.
    assert (Hnone : forall c v, vget "colSubstitutions" subst c <> Ok (i', v)).
    { intros c v Hc. destruct (Hrec c i' v Hc) as [[-> _]|(_ & Hqc & _)].
      - destruct Hq' as (Hq' & _). lia.
      - destruct Hqc as (_ & _ & _ & Hloc & _). destruct Hq' as (_ & _ & _ & Hloc' & _).
        rewrite Hloc in Hloc'. injection Hloc' as -> _.
        rewrite Hget in Hc. injection Hc as Hc _. congruence. }
    split; [|exact Hnone].
    assert (Hi' : 0 <= i' < num_row_ lp) by (destruct Hq' as (Hq' & _); exact Hq').
    destruct (Hearlier i' Hi') as [Hsame|(c & v & Hc)].
    + rewrite Hsame. destruct Hq' as (_ & Hk & _). exact Hk.
    + exfalso. exact (Hnone c v Hc).
Qed.

End SubstitutionTheorem.

(** The theorem at relaxation B, where rows 0 and 1 both qualify for column
    0: row 0 is recorded with pivot 1. *)
Lemma substitution_first_row_wins_witness :
  ((0 = -1 /\ forall i' v', ~ @qualifies relaxB [kEq; kEq; kGeq] [1; 1; 2] i' 0 v') \/
   (@qualifies relaxB [kEq; kEq; kGeq] [1; 1; 2] 0 0 1%float /\
    (forall i' v', @qualifies relaxB [kEq; kEq; kGeq] [1; 1; 2] i' 0 v' -> 0 <= i') /\
    vget "rowtype" [kUnusuable; kEq; kGeq] 0 = Ok kUnusuable /\
    (forall i' v', @qualifies relaxB [kEq; kEq; kGeq] [1; 1; 2] i' 0 v' -> i' <> 0 ->
       vget "rowtype" [kUnusuable; kEq; kGeq] i' = Ok kEq /\
       forall c v, vget "colSubstitutions"
                     [(0, 1%float); (-1, 0%float); (-1, 0%float)] c <> Ok (i', v)))) /\
  (forall subst2 rt2,
     @detectSubstitutions relaxB [kEq; kEq; kGeq] [1; 1; 2] = Ok (subst2, rt2) ->
     subst2 = [(0, 1%float); (-1, 0%float); (-1, 0%float)]).
Proof.
  apply (@substitution_first_row_wins relaxB [kEq; kEq; kGeq] [1; 1; 2]
           [(0, 1%float); (-1, 0%float); (-1, 0%float)] [kUnusuable; kEq; kGeq]
           0 0 1%float); reflexivity.
Defined.

(* ================================================================== *)
(** ** Arc lists *)
(* ================================================================== *)

Lemma zrange_snoc (lo hi : Z) : lo <= hi -> zrange lo (hi + 1) = zrange lo hi ++ [hi].
Proof.
  intros H. unfold zrange.
  replace (Z.to_nat (hi + 1 - lo)) with (Z.to_nat (hi - lo) + 1)%nat by lia.
  rewrite seq_app, map_app. simpl. do 2 f_equal. lia.
Qed.

Lemma vget_nth {A} (name : string) (v : list A) (i : Z) (x d : A) :
  vget name v i = Ok x -> nth (Z.to_nat i) v d = x.
Proof. intros H. apply vget_Ok in H. destruct H as [_ H]. now apply nth_error_nth. Qed.

Lemma slice_app_tail {A} (l l' : list A) :
  slice (l ++ l') (vsize l) (vsize (l ++ l')) = l'.
Proof.
  unfold slice, vsize. rewrite length_app.
  replace (Z.to_nat (Z.of_nat (length l))) with (length l) by lia.
  replace (Z.to_nat (Z.of_nat (length l + length l') - Z.of_nat (length l)))
    with (length l') by lia.
  rewrite skipn_app, skipn_all, Nat.sub_diag. simpl. apply firstn_all.
Qed.

Lemma slice_app_head {A} (l l' : list A) (lo hi : Z) :
  0 <= lo <= hi -> hi <= vsize l -> slice (l ++ l') lo hi = slice l lo hi.
Proof.
  intros Hlo Hhi. unfold slice, vsize in *.
  rewrite skipn_app, firstn_app.
  replace (Z.to_nat (hi - lo) - length (skipn (Z.to_nat lo) l))%nat with 0%nat
    by (rewrite length_skipn; lia).
  simpl. apply app_nil_r.
Qed.

(** Comparisons of a double with zero exclude each other. *)
Lemma flt_zero_not_fgt (v : double) : flt v 0%float = true -> fgt v 0%float = false.
Proof.
  unfold flt, fgt. rewrite !ltb_spec.
  change (Prim2SF 0%float) with (S754_zero false).
  destruct (Prim2SF v) as [s|s| |s m e]; try destruct s;
    unfold SFltb, SFcompare; intros H; try discriminate H; reflexivity.
Qed.

Lemma fgt_zero_not_flt (v : double) : fgt v 0%float = true -> flt v 0%float = false.
Proof.
  intros H. destruct (flt v 0%float) eqn:E; [|reflexivity].
  apply flt_zero_not_fgt in E. congruence.
Qed.

Section ArcFacts.
Context {R : Relaxation}.
Variable rt : list RowType.
Variable subst : list (Z * double).

Lemma arcEntry_step (p : Z) (t t' : ArcTables) :
  arcEntry rt p t = Ok t' ->
  t_inArcRows t' = t_inArcRows t ++ filter (goesTo rt true) [entryAt p] /\
  t_outArcRows t' = t_outArcRows t ++ filter (goesTo rt false) [entryAt p] /\
  t_colInArcs t' = t_colInArcs t /\
  t_colOutArcs t' = t_colOutArcs t.
Proof.
  intros H. unfold arcEntry in H. inv_bind H. rename x into r.
  inv_bind H. rename x into k.
  pose proof (vget_nth _ _ _ _ 0 Hx) as Hr.
  pose proof (vget_nth _ _ _ _ kUnusuable Hx0) as Hk.
  assert (Hkind : kindOf rt (fst (entryAt p)) = k)
    by (unfold entryAt, kindOf; simpl; rewrite Hr; exact Hk).
  simpl. unfold goesTo. rewrite Hkind.
  destruct k.
  - injection H as <-. rewrite !app_nil_r. auto.
  - inv_bind H. pose proof (vget_nth _ _ _ _ 0%float Hx1) as Hv.
    assert (He : entryAt p = (r, x)) by (unfold entryAt; rewrite Hr, Hv; reflexivity).
    rewrite He. unfold isInArc in *. simpl snd.
    destruct (fgt x 0%float); injection H as <-; simpl;
      rewrite ?app_nil_r; auto.
  - inv_bind H. pose proof (vget_nth _ _ _ _ 0%float Hx1) as Hv.
    assert (He : entryAt p = (r, x)) by (unfold entryAt; rewrite Hr, Hv; reflexivity).
    rewrite He. unfold isInArc in *. simpl snd.
    destruct (fgt x 0%float); injection H as <-; simpl;
      rewrite ?app_nil_r; auto.
  - inv_bind H. pose proof (vget_nth _ _ _ _ 0%float Hx1) as Hv.
    assert (He : entryAt p = (r, x)) by (unfold entryAt; rewrite Hr, Hv; reflexivity).
    rewrite He. unfold isInArc in *. simpl snd.
    destruct (flt x 0%float); injection H as <-; simpl;
      rewrite ?app_nil_r; auto.
Qed.

Lemma arcEntries_run (b e : Z) (t t' : ArcTables) :
  forNe b e (arcEntry rt) t = Ok t' ->
  b <= e /\
  t_inArcRows t' = t_inArcRows t ++ filter (goesTo rt true) (map entryAt (zrange b e)) /\
  t_outArcRows t' = t_outArcRows t ++ filter (goesTo rt false) (map entryAt (zrange b e)) /\
  t_colInArcs t' = t_colInArcs t /\
  t_colOutArcs t' = t_colOutArcs t.
Proof.
  intros H.
  apply (forNe_inv (fun p u =>
           t_inArcRows u = t_inArcRows t ++ filter (goesTo rt true) (map entryAt (zrange b p)) /\
           t_outArcRows u = t_outArcRows t ++ filter (goesTo rt false) (map entryAt (zrange b p)) /\
           t_colInArcs u = t_colInArcs t /\
           t_colOutArcs u = t_colOutArcs t)) in H; [exact H| |].
  - rewrite zrange_nil by lia. simpl. rewrite !app_nil_r. auto.
  - intros p u u' Hp (Hi & Ho & Hci & Hco) Hstep.
    apply arcEntry_step in Hstep. destruct Hstep as (Hi' & Ho' & Hci' & Hco').
    rewrite zrange_snoc by lia. rewrite map_app, !filter_app, !app_assoc.
    rewrite <- Hi, <- Ho. simpl map. split; [exact Hi'|]. split; [exact Ho'|].
    split; congruence.
Qed.


Lemma vsize_app {A} (l l' : list A) : vsize (l ++ l') = vsize l + vsize l'.
Proof. unfold vsize. rewrite length_app. lia. Qed.

Lemma vsize_nonneg {A} (l : list A) : 0 <= vsize l.
Proof. unfold vsize. lia. Qed.

Lemma arcColumn_step (col : Z) (t t' : ArcTables) :
  arcColumn rt subst col t = Ok t' ->
  (forall c, colGood rt t c -> colGood rt t' c) /\
  (takesPart subst col -> colGood rt t' col).
Proof.
  intros H. unfold arcColumn in H.
  destruct (atBound col) eqn:Eb.
  { injection H as <-. split; [auto|]. intros [Hb _]. congruence. }
  inv_bind H. rename x into s.
  destruct (fst s =? -1) eqn:Es; simpl in H.
  2:{ injection H as <-. split; [auto|]. intros [_ [y Hy]].
      rewrite Hx in Hy. injection Hy as ->. simpl in Es. discriminate. }
  inv_bind H. rename x into ci. inv_bind H. rename x into cin1.
  inv_bind H. rename x into co. inv_bind H. rename x into cout1.
  inv_bind H. rename x into b. inv_bind H. rename x into e.
  inv_bind H. rename x into t2.
  inv_bind H. rename x into ci2. inv_bind H. rename x into cin3.
  inv_bind H. rename x into co2. inv_bind H. rename x into cout3.
  injection H as <-.
  apply vset_Ok in Hx1. destruct Hx1 as [Hc1 ->].
  apply vset_Ok in Hx3. destruct Hx3 as [Hc2 ->].
  apply arcEntries_run in Hx6. simpl in Hx6.
  destruct Hx6 as (Hbe & Hin & Hout & Hci & Hco).
  rewrite Hci in Hx7, Hx8. rewrite Hco in Hx9, Hx10.
  rewrite vget_update_same in Hx7 by exact Hc1. injection Hx7 as <-.
  rewrite vget_update_same in Hx9 by exact Hc2. injection Hx9 as <-.
  apply vset_Ok in Hx8. destruct Hx8 as [_ ->].
  apply vset_Ok in Hx10. destruct Hx10 as [_ ->].
  simpl fst in *.
  assert (Hentries : map entryAt (zrange b e) = columnEntries col).
  { unfold columnEntries. rewrite (vget_nth _ _ _ _ 0 Hx4), (vget_nth _ _ _ _ 0 Hx5).
    reflexivity. }
  rewrite Hentries in Hin, Hout.
  assert (Hnew : colGood rt
            (mkArcTables (t_inArcRows t2)
               (update (update (t_colInArcs t) (Z.to_nat col) (vsize (t_inArcRows t), snd ci))
                  (Z.to_nat col) (vsize (t_inArcRows t), vsize (t_inArcRows t2)))
               (t_outArcRows t2)
               (update (update (t_colOutArcs t) (Z.to_nat col) (vsize (t_outArcRows t), snd co))
                  (Z.to_nat col) (vsize (t_outArcRows t), vsize (t_outArcRows t2)))) col).
  { exists (vsize (t_inArcRows t)), (vsize (t_inArcRows t2)),
           (vsize (t_outArcRows t)), (vsize (t_outArcRows t2)). simpl.
    pose proof (vsize_nonneg (t_inArcRows t)). pose proof (vsize_nonneg (t_outArcRows t)).
    split; [apply vget_update_same; rewrite vsize_update; exact Hc1|].
    split; [rewrite Hin, vsize_app; pose proof (vsize_nonneg
              (filter (goesTo rt true) (columnEntries col))); lia|].
    split; [lia|].
    split; [rewrite Hin at 1; rewrite Hin at 1; apply slice_app_tail|].
    split; [apply vget_update_same; rewrite vsize_update; exact Hc2|].
    split; [rewrite Hout, vsize_app; pose proof (vsize_nonneg
              (filter (goesTo rt false) (columnEntries col))); lia|].
    split; [lia|].
    rewrite Hout at 1; rewrite Hout at 1; apply slice_app_tail. }
  split; [|intros _; exact Hnew].
  intros c (li & hi & lo & ho & Hgi & Hli & Hhi & Hsi & Hgo & Hlo & Hho & Hso).
  destruct (Z.eq_dec c col) as [->|Hne]; [exact Hnew|].
  exists li, hi, lo, ho. simpl.
  pose proof (vget_range _ _ _ _ Hgi). pose proof (vget_range _ _ _ _ Hgo).
  split; [rewrite !vget_update_other by lia; exact Hgi|].
  split; [exact Hli|].
  split; [rewrite Hin, vsize_app; pose proof (vsize_nonneg
            (filter (goesTo rt true) (columnEntries col))); lia|].
  split; [rewrite Hin, slice_app_head by lia; exact Hsi|].
  split; [rewrite !vget_update_other by lia; exact Hgo|].
  split; [exact Hlo|].
  split; [rewrite Hout, vsize_app; pose proof (vsize_nonneg
            (filter (goesTo rt false) (columnEntries col))); lia|].
  rewrite Hout, slice_app_head by lia; exact Hso.
Qed.

Lemma arcColumns_run (cols : list Z) :
  forall t t',
    foldM (arcColumn rt subst) cols t = Ok t' ->
    (forall c, colGood rt t c -> colGood rt t' c) /\
    (forall c, In c cols -> takesPart subst c -> colGood rt t' c).
Proof.
  induction cols as [|col cols IH]; intros t t' H; simpl in H.
  - injection H as <-. split; [auto|]. intros c [].
  - inv_bind H. rename x into t1.
    destruct (arcColumn_step col t t1 Hx) as [Hkeep Hcol].
    destruct (IH t1 t' H) as [Hkeep' Hcols].
    split; [auto|]. intros c [<-|Hin] Hp; auto.
Qed.

End ArcFacts.

Lemma nodup_fst_unique {A B} (l : list (A * B)) (a : A) (b b' : B) :
  NoDup (map fst l) -> In (a, b) l -> In (a, b') l -> b = b'.
Proof.
  induction l as [|[a0 b0] l IH]; simpl; intros Hnd Hb Hb'; [contradiction|].
  inversion Hnd as [|? ? Hnotin Hnd']; subst.
  destruct Hb as [Hb|Hb], Hb' as [Hb'|Hb'].
  - congruence.
  - injection Hb as <- <-. exfalso. apply Hnotin. apply in_map_iff. exists (a0, b'). auto.
  - injection Hb' as <- <-. exfalso. apply Hnotin. apply in_map_iff. exists (a0, b). auto.
  - auto.
Qed.

Section ArcTheorem.
Context {R : Relaxation}.

Lemma buildArcs_lists (rt : list RowType) (subst : list (Z * double)) (t : ArcTables)
    (col : Z) :
  buildArcs rt subst = Ok t ->
  In col continuous_cols ->
  takesPart subst col ->
  inArcsOf t col = filter (goesTo rt true) (columnEntries col) /\
  outArcsOf t col = filter (goesTo rt false) (columnEntries col).
Proof.
  intros H Hin Hp. unfold buildArcs in H. inv_bind H. inv_bind H.
  destruct (arcColumns_run rt subst _ _ _ H) as [_ Hcols].
  destruct (Hcols col Hin Hp) as (li & hi & lo & ho & Hgi & _ & _ & Hsi & Hgo & _ & _ & Hso).
  unfold inArcsOf, outArcsOf.
  rewrite (vget_nth _ _ _ _ (0, 0) Hgi), (vget_nth _ _ _ _ (0, 0) Hgo). simpl. auto.
Qed.

Lemma goesTo_usable (rt : list RowType) (side : bool) (r : Z) (v : double) (k : RowType) :
  vget "rowtype" rt r = Ok k -> k <> kUnusuable ->
  goesTo rt side (r, v) = Bool.eqb (isInArc k v) side.
Proof.
  intros Hk Hu. unfold goesTo, kindOf. simpl.
  rewrite (vget_nth _ _ _ _ kUnusuable Hk). destruct k; [congruence|reflexivity..].
Qed.

(** C6. Once the arc lists are built, take a continuous column off its
    bound that has no substitution, and any of its incidences [(r, v)]
    whose row is usable. The incidence is in exactly one of the column's
    in-arc and out-arc lists, and when the column holds each row once the
    row itself occurs in exactly one of the two lists. For a LessOrEqual row
    a negative coefficient puts the incidence in the in-arc list and a
    positive one in the out-arc list; for a GreaterOrEqual or Equality row
    it is the other way round. *)
Theorem arc_partition (rt : list RowType) (subst : list (Z * double)) (t : ArcTables)
    (col r : Z) (v x : double) (k : RowType) :
  buildArcs rt subst = Ok t ->
  In col continuous_cols ->
  atBound col = false ->
  vget "colSubstitutions" subst col = Ok (-1, x) ->
  In (r, v) (columnEntries col) ->
  vget "rowtype" rt r = Ok k ->
  k <> kUnusuable ->
  ((In (r, v) (inArcsOf t col) /\ ~ In (r, v) (outArcsOf t col)) \/
   (~ In (r, v) (inArcsOf t col) /\ In (r, v) (outArcsOf t col))) /\
  (NoDup (map fst (columnEntries col)) ->
   (In r (map fst (inArcsOf t col)) /\ ~ In r (map fst (outArcsOf t col))) \/
   (~ In r (map fst (inArcsOf t col)) /\ In r (map fst (outArcsOf t col)))) /\
  (k = kLeq ->
   (flt v 0%float = true -> In (r, v) (inArcsOf t col)) /\
   (fgt v 0%float = true -> In (r, v) (outArcsOf t col))) /\
  (k <> kLeq ->
   (fgt v 0%float = true -> In (r, v) (inArcsOf t col)) /\
   (flt v 0%float = true -> In (r, v) (outArcsOf t col))).
Proof.
  intros Hrun Hin Hb Hs He Hk Hu.
  destruct (buildArcs_lists rt subst t col Hrun Hin) as [Hi Ho].
  { split; [exact Hb|]. exists x. exact Hs. }
  rewrite Hi, Ho.
  assert (Hmem : forall side, In (r, v) (filter (goesTo rt side) (columnEntries col)) <->
                                Bool.eqb (isInArc k v) side = true).
  { intros side. rewrite filter_In, (goesTo_usable rt side r v k Hk Hu). tauto. }
  split; [|split; [|split]].
  - rewrite !Hmem. destruct (isInArc k v); simpl; [left|right]; split;
      try reflexivity; discriminate.
  - intros Hnd.
    assert (Hrow : forall side, In r (map fst (filter (goesTo rt side) (columnEntries col))) <->
                                  Bool.eqb (isInArc k v) side = true).
    { intros side. rewrite <- Hmem. rewrite in_map_iff. split.
      - intros ([r' v'] & Hr' & Hin'). simpl in Hr'. subst r'.
        pose proof Hin' as Hin''. apply filter_In in Hin''. destruct Hin'' as [Hin'' _].
        rewrite (nodup_fst_unique _ _ _ _ Hnd He Hin''). exact Hin'.
      - intros Hin'. exists (r, v). auto. }
    rewrite !Hrow. destruct (isInArc k v); simpl; [left|right]; split;
      try reflexivity; discriminate.
  - intros ->. rewrite !Hmem. simpl. split; intros Hv.
    + rewrite Hv. reflexivity.
    + rewrite (fgt_zero_not_flt v Hv). reflexivity.
  - intros Hne. rewrite !Hmem. split; intros Hv.
    + destruct k; try congruence; simpl; rewrite Hv; reflexivity.
    + destruct k; try congruence; simpl; rewrite (flt_zero_not_fgt v Hv); reflexivity.
Qed.

End ArcTheorem.

(** The theorem at relaxation A: the entry of column 0 in row 1, a
    GreaterOrEqual row with coefficient 1, is an in-arc. *)
Lemma arc_partition_witness :
  let t := mkArcTables [(1, 1%float)] [(0, 1)] [(0, (-1e7)%float)] [(0, 1)] in
  ((In (1, 1%float) (inArcsOf t 0) /\ ~ In (1, 1%float) (outArcsOf t 0)) \/
   (~ In (1, 1%float) (inArcsOf t 0) /\ In (1, 1%float) (outArcsOf t 0))) /\
  (NoDup (map fst (@columnEntries relaxA 0)) ->
   (In 1 (map fst (inArcsOf t 0)) /\ ~ In 1 (map fst (outArcsOf t 0))) \/
   (~ In 1 (map fst (inArcsOf t 0)) /\ In 1 (map fst (outArcsOf t 0)))) /\
  (kGeq = kLeq ->
   (flt 1%float 0%float = true -> In (1, 1%float) (inArcsOf t 0)) /\
   (fgt 1%float 0%float = true -> In (1, 1%float) (outArcsOf t 0))) /\
  (kGeq <> kLeq ->
   (fgt 1%float 0%float = true -> In (1, 1%float) (inArcsOf t 0)) /\
   (flt 1%float 0%float = true -> In (1, 1%float) (outArcsOf t 0))).
Proof.
  apply (@arc_partition relaxA [kGeq; kGeq] [(-1, 0%float)]
           (mkArcTables [(1, 1%float)] [(0, 1)] [(0, (-1e7)%float)] [(0, 1)])
           0 1 1%float 0%float kGeq).
  - reflexivity.
  - simpl. auto.
  - reflexivity.
  - reflexivity.
  - simpl. auto.
  - reflexivity.
  - discriminate.
Defined.

(* ================================================================== *)
(** ** What one round of the path loop adds to the trace *)
(* ================================================================== *)

Section TraceFacts.
Context {R : Relaxation}.
Context {Agg Cut Rng : Type}.
Context {AggOps : LpAggregator Agg} {CutOps : CutGeneration Cut} {RngOps : Random Rng}.
Variable adj : Adjacency.

Abbreviation State := (SepState Agg Cut Rng).
Abbreviation Round := (@RoundResult Agg Cut Rng).


Lemma quiet_nil : quiet [].
Proof. constructor. Qed.

Lemma quiet_app (a b : list event) : quiet a -> quiet b -> quiet (a ++ b).
Proof. intros Ha Hb. apply Forall_app. auto. Qed.

Lemma quiet_cons (e : event) (a : list event) :
  isPathRow e = false -> quiet a -> quiet (e :: a).
Proof. intros He Ha. constructor; auto. Qed.

Lemma quiet_pathRows (new : list event) : quiet new -> pathRows new = [].
Proof.
  unfold pathRows. induction 1 as [|e new He _ IH]; simpl; [reflexivity|].
  rewrite He. exact IH.
Qed.

Lemma quiet_no_addRow (new : list event) (role : RowRole) (row : Z) (w : double) :
  quiet new -> In (EvAddRow role row w) new -> role = SubstitutionRow.
Proof.
  intros Hq Hin. unfold quiet in Hq. rewrite Forall_forall in Hq.
  specialize (Hq _ Hin). destruct role; simpl in Hq; congruence.
Qed.

Lemma checkWeight_band (w : double) : checkWeight w = true <-> inSafeBand feastol w.
Proof.
  unfold checkWeight, inSafeBand, fle, fge, maxWeight, minWeight.
  rewrite andb_true_iff. tauto.
Qed.

Lemma arcStep_trace (name : string) (arcRows : list (Z * double)) (colVal : double)
    (k : Z) (ch ch' : ArcChoice) (s s' : State) :
  arcStep name arcRows colVal k (ch, s) = Ok (ch', s') ->
  (ac_row ch <> -1 -> checkWeight (ac_weight ch) = true) ->
  (ac_row ch' <> -1 -> checkWeight (ac_weight ch') = true) /\
  aggregator s' = aggregator s /\ cutGen s' = cutGen s /\
  exists new, trace s' = new ++ trace s /\ quiet new /\
              Forall (fun e => isAddRow e = false) new.
Proof.
  intros H Hch. unfold arcStep in H. inv_bind H. destruct x as [thisRow coef].
  assert (Hsame : (ac_row ch <> -1 -> checkWeight (ac_weight ch) = true) /\
                  aggregator s = aggregator s /\ cutGen s = cutGen s /\
                  exists new, trace s = new ++ trace s /\ quiet new /\
                              Forall (fun e => isAddRow e = false) new).
  { split; [exact Hch|]. split; [reflexivity|]. split; [reflexivity|].
    exists []. split; [reflexivity|]. split; constructor. }
  destruct (checkWeight (- colVal / coef)%float) eqn:Ew; simpl in H.
  2:{ injection H as <- <-. exact Hsame. }
  inv_bind H. rename x into dual.
  match type of H with
  | (if ?c then _ else _) = _ => destruct c
  end.
  { injection H as <- <-. simpl. split; [intros _; exact Ew|]. apply Hsame. }
  match type of H with
  | (if ?c then _ else _) = _ => destruct c
  end.
  2:{ injection H as <- <-. exact Hsame. }
  unfold doBit in H. destruct (bit (randgen s)) as [b r] eqn:Eb.
  injection H as <- <-. simpl.
  split; [destruct b; simpl; auto|]. split; [reflexivity|]. split; [reflexivity|].
  exists [EvBit b]. split; [reflexivity|]. split; repeat constructor.
Qed.

Lemma scanArcRows_trace (name : string) (arcRows : list (Z * double)) (range : Z * Z)
    (colVal : double) (s s' : State) (ch : ArcChoice) :
  scanArcRows name arcRows range colVal s = Ok (ch, s') ->
  (ac_row ch <> -1 -> checkWeight (ac_weight ch) = true) /\
  aggregator s' = aggregator s /\ cutGen s' = cutGen s /\
  exists new, trace s' = new ++ trace s /\ quiet new /\
              Forall (fun e => isAddRow e = false) new.
Proof.
  unfold scanArcRows, forLt.
  generalize (zrange (fst range) (snd range)) as ks.
  assert (Hgen : forall ks ch0 s0,
            (ac_row ch0 <> -1 -> checkWeight (ac_weight ch0) = true) ->
            foldM (arcStep name arcRows colVal) ks (ch0, s0) = Ok (ch, s') ->
            (ac_row ch <> -1 -> checkWeight (ac_weight ch) = true) /\
            aggregator s' = aggregator s0 /\ cutGen s' = cutGen s0 /\
            exists new, trace s' = new ++ trace s0 /\ quiet new /\
                        Forall (fun e => isAddRow e = false) new).
  { induction ks as [|k ks IH]; intros ch0 s0 Hch H; simpl in H.
    - injection H as <- <-. split; [exact Hch|]. split; [reflexivity|].
      split; [reflexivity|]. exists []. split; [reflexivity|]. split; constructor.
    - inv_bind H. destruct x as [ch1 s1].
      destruct (arcStep_trace _ _ _ _ _ _ _ _ Hx Hch) as (Hch1 & Ha1 & Hc1 & n1 & Ht1 & Hq1 & Hn1).
      destruct (IH ch1 s1 Hch1 H) as (Hch2 & Ha2 & Hc2 & n2 & Ht2 & Hq2 & Hn2).
      split; [exact Hch2|]. split; [congruence|]. split; [congruence|].
      exists (n2 ++ n1). split; [rewrite Ht2, Ht1, app_assoc; reflexivity|].
      split; [apply quiet_app; auto|apply Forall_app; auto]. }
  intros ks H. apply (Hgen ks noChoice s); [|exact H].
  simpl. intros Hne. congruence.
Qed.


Lemma subsOnly_quiet (new : list event) : subsOnly new -> quiet new.
Proof.
  unfold subsOnly, quiet. apply Forall_impl. intros e (r & w & ->). reflexivity.
Qed.

Lemma scanEntry_trace (inds : list Z) (vals : list double) (j : Z) (s1 : State)
    (sc sc' : ScanState) :
  scanEntry adj inds vals j sc = Ok sc' ->
  (exists new, trace (sc_state sc) = new ++ trace s1 /\ subsOnly new) ->
  (addedSubstitutionRows sc = false -> sc_state sc = s1) ->
  (exists new, trace (sc_state sc') = new ++ trace s1 /\ subsOnly new) /\
  (addedSubstitutionRows sc' = false -> sc_state sc' = s1) /\
  cutGen (sc_state sc') = cutGen (sc_state sc) /\
  randgen (sc_state sc') = randgen (sc_state sc).
Proof.
  intros H Htr Hno. unfold scanEntry in H. inv_bind H. rename x into col.
  assert (Hsame : (exists new, trace (sc_state sc) = new ++ trace s1 /\ subsOnly new) /\
                  (addedSubstitutionRows sc = false -> sc_state sc = s1) /\
                  cutGen (sc_state sc) = cutGen (sc_state sc) /\
                  randgen (sc_state sc) = randgen (sc_state sc)) by auto.
  match type of H with (if ?c then _ else _) = _ => destruct c end.
  { injection H as <-. exact Hsame. }
  inv_bind H. rename x into sub.
  destruct (negb (fst sub =? -1)).
  { inv_bind H. injection H as <-. simpl.
    split; [|split; [discriminate|auto]].
    destruct Htr as (new & Hnew & Hsub).
    exists (EvAddRow SubstitutionRow (fst sub) (- x / snd sub)%float :: new).
    split; [rewrite Hnew; reflexivity|]. constructor; eauto. }
  destruct (addedSubstitutionRows sc) eqn:Eadd.
  { injection H as <-. rewrite Eadd. exact Hsame. }
  inv_bind H. rename x into v.
  destruct (flt v 0%float).
  - inv_bind H. destruct (fst x =? snd x); [injection H as <-; rewrite Eadd; exact Hsame|].
    match type of H with (if ?c then _ else _) = _ => destruct c end;
      injection H as <-; simpl; rewrite ?Eadd; auto.
  - inv_bind H. destruct (fst x =? snd x); [injection H as <-; rewrite Eadd; exact Hsame|].
    match type of H with (if ?c then _ else _) = _ => destruct c end;
      injection H as <-; simpl; rewrite ?Eadd; auto.
Qed.

Lemma scanBaseRow_trace (s : State) (inds : list Z) (vals : list double) (sc : ScanState) :
  scanBaseRow adj s = Ok (inds, vals, sc) ->
  (exists new, trace (sc_state sc) = new ++ trace s /\ subsOnly new) /\
  (addedSubstitutionRows sc = false ->
   sc_state sc = snd (doGetAggregation false s)) /\
  cutGen (sc_state sc) = cutGen s /\
  randgen (sc_state sc) = randgen s /\
  (inds, vals) = fst (doGetAggregation false s).
Proof.
  intros H. unfold scanBaseRow in H.
  destruct (doGetAggregation false s) as [[inds0 vals0] s1] eqn:Eg.
  assert (Hs1 : trace s1 = trace s /\ cutGen s1 = cutGen s /\ randgen s1 = randgen s).
  { unfold doGetAggregation in Eg.
    destruct (getCurrentAggregation (aggregator s) false) as [[? ?] ?].
    injection Eg as <- <- <-. simpl. auto. }
  destruct Hs1 as (Ht & Hc & Hr).
  inv_bind H. injection H as <- <- <-. simpl.
  apply (forNe_inv (fun _ sc =>
           (exists new, trace (sc_state sc) = new ++ trace s1 /\ subsOnly new) /\
           (addedSubstitutionRows sc = false -> sc_state sc = s1) /\
           cutGen (sc_state sc) = cutGen s1 /\
           randgen (sc_state sc) = randgen s1)) in Hx.
  - destruct Hx as (_ & Htr & Hno & Hc' & Hr'). rewrite Ht in Htr.
    split; [exact Htr|]. split; [exact Hno|]. split; [congruence|]. split; [congruence|].
    reflexivity.
  - simpl. split; [exists []; split; [reflexivity|constructor]|]. auto.
  - intros j sc0 sc1 _ (Htr & Hno & Hc' & Hr') Hstep.
    destruct (scanEntry_trace _ _ _ s1 _ _ Hstep Htr Hno) as (Htr1 & Hno1 & Hc1 & Hr1).
    split; [exact Htr1|]. split; [exact Hno1|]. split; congruence.
Qed.

(** The two attempts of lines 238-246, spelled out. *)
Lemma attemptCuts_eq (inds : list Z) (vals : list double) (s : State) :
  attemptCuts inds vals s =
    let '(ok1, c1) := generateCut (cutGen s) inds vals 0%float in
    let '(inds', vals', a') := getCurrentAggregation (aggregator s) true in
    if ok1
    then (true, mkSepState a' c1 (randgen s)
                  (EvGenerateCut false inds vals 0%float true :: trace s))
    else
      let '(ok2, c2) := generateCut c1 inds' vals' 0%float in
      (ok2, mkSepState a' c2 (randgen s)
              (EvGenerateCut true inds' vals' 0%float ok2
               :: EvGenerateCut false inds vals 0%float false :: trace s)).
Proof.
  unfold attemptCuts, doGenerateCut, doGetAggregation. simpl.
  destruct (generateCut (cutGen s) inds vals 0%float) as [ok1 c1]. simpl.
  destruct (getCurrentAggregation (aggregator s) true) as [[inds' vals'] a'].
  destruct ok1; [reflexivity|]. simpl.
  destruct (generateCut c1 inds' vals' 0%float) as [ok2 c2]. reflexivity.
Qed.

Lemma attemptCuts_trace (inds : list Z) (vals : list double) (s s' : State) (ok : bool) :
  attemptCuts inds vals s = (ok, s') ->
  randgen s' = randgen s /\
  exists new, trace s' = new ++ trace s /\ quiet new /\
              Forall (fun e => isAddRow e = false) new.
Proof.
  intros H. rewrite attemptCuts_eq in H.
  destruct (generateCut (cutGen s) inds vals 0%float) as [ok1 c1].
  destruct (getCurrentAggregation (aggregator s) true) as [[inds' vals'] a'].
  destruct ok1.
  - injection H as <- <-. simpl. split; [reflexivity|].
    exists [EvGenerateCut false inds vals 0%float true].
    split; [reflexivity|]. split; repeat constructor.
  - destruct (generateCut c1 inds' vals' 0%float) as [ok2 c2].
    injection H as <- <-. simpl. split; [reflexivity|].
    exists [EvGenerateCut true inds' vals' 0%float ok2;
            EvGenerateCut false inds vals 0%float false].
    split; [reflexivity|]. split; repeat constructor.
Qed.


Lemma checkOutArcCol_shape (c : Candidates) (len : Z) (s : State) (r : Round) :
  checkOutArcCol adj c (len + 1) s = Ok r -> roundShape s len r.
Proof.
  intros H. unfold checkOutArcCol in H. inv_bind H. inv_bind H. destruct x0 as [ch s1].
  destruct (scanArcRows_trace _ _ _ _ _ _ _ Hx0) as (Hch & _ & _ & new & Ht & Hq & _).
  destruct (ac_row ch =? -1) eqn:E.
  - injection H as <-. simpl. eauto.
  - injection H as <-. simpl. right. split; [reflexivity|].
    exists new, (ac_row ch), (ac_weight ch). rewrite Ht.
    split; [reflexivity|]. split; [exact Hq|]. apply Hch. apply Z.eqb_neq. exact E.
Qed.

Lemma roundShape_after (s0 s : State) (len : Z) (r : Round) (pre : list event) :
  trace s = pre ++ trace s0 -> quiet pre -> roundShape s len r -> roundShape s0 len r.
Proof.
  intros Ht Hq Hr. destruct r as [s' len'|s']; simpl in *.
  - destruct Hr as [[-> (new & Hn & Hqn)]|[-> (new & row & w & Hn & Hqn & Hw)]].
    + left. split; [reflexivity|]. exists (new ++ pre).
      split; [rewrite Hn, Ht, app_assoc; reflexivity|apply quiet_app; auto].
    + right. split; [reflexivity|]. exists (new ++ pre), row, w.
      split; [rewrite Hn, Ht, app_assoc; reflexivity|]. split; [apply quiet_app; auto|exact Hw].
  - destruct Hr as (new & Hn & Hqn). exists (new ++ pre).
    split; [rewrite Hn, Ht, app_assoc; reflexivity|apply quiet_app; auto].
Qed.

Lemma extendPath_shape (c : Candidates) (len : Z) (s : State) (r : Round) :
  extendPath adj c len s = Ok r -> roundShape s len r.
Proof.
  intros H. unfold extendPath in H. cbv zeta in H. destruct (preferOutArc c).
  - inv_bind H. inv_bind H. destruct x0 as [ch s1].
    destruct (scanArcRows_trace _ _ _ _ _ _ _ Hx0) as (Hch & _ & _ & new & Ht & Hq & _).
    destruct (ac_row ch =? -1) eqn:E.
    + apply (checkOutArcCol_shape c len s1 r) in H. eapply roundShape_after; eauto.
    + injection H as <-. simpl. right. split; [reflexivity|].
      exists new, (ac_row ch), (ac_weight ch). rewrite Ht.
      split; [reflexivity|]. split; [exact Hq|]. apply Hch. apply Z.eqb_neq. exact E.
  - apply (checkOutArcCol_shape c len s r). exact H.
Qed.

Lemma pathRound_shape (s : State) (len : Z) (r : Round) :
  pathRound adj s len = Ok r -> roundShape s len r.
Proof.
  intros H. unfold pathRound in H. inv_bind H. destruct x as [[inds vals] sc].
  destruct (scanBaseRow_trace _ _ _ _ Hx) as ((pre & Hpre & Hsubs) & _).
  apply subsOnly_quiet in Hsubs.
  destruct (addedSubstitutionRows sc).
  { injection H as <-. simpl. left. eauto. }
  destruct (attemptCuts inds vals (sc_state sc)) as [ok s2] eqn:Ea.
  destruct (attemptCuts_trace _ _ _ _ _ Ea) as (_ & mid & Hmid & Hqm & _).
  assert (Ht2 : trace s2 = (mid ++ pre) ++ trace s)
    by (rewrite Hmid, Hpre, app_assoc; reflexivity).
  assert (Hq2 : quiet (mid ++ pre)) by (apply quiet_app; auto).
  match type of H with (if ?c then _ else _) = _ => destruct c end.
  - injection H as <-. simpl. eauto.
  - apply extendPath_shape in H. eapply roundShape_after; eauto.
Qed.

End TraceFacts.

(* ================================================================== *)
(** ** The while loop of one seed row *)
(* ================================================================== *)






Section LoopFacts.
Context {R : Relaxation}.
Context {Agg Cut Rng : Type}.
Context {AggOps : LpAggregator Agg} {CutOps : CutGeneration Cut} {RngOps : Random Rng}.
Variable adj : Adjacency.

Abbreviation State := (SepState Agg Cut Rng).
Abbreviation Round := (@RoundResult Agg Cut Rng).












Lemma pathRows_app (a b : list event) : pathRows (a ++ b) = pathRows a ++ pathRows b.
Proof. apply filter_app. Qed.

Lemma quiet_safe (new : list event) : quiet new -> extensionsSafe feastol new.
Proof.
  intros Hq row w Hin. apply (quiet_no_addRow _ _ _ _ Hq) in Hin. discriminate.
Qed.

Lemma extensionsSafe_app (a b : list event) :
  extensionsSafe feastol a -> extensionsSafe feastol b -> extensionsSafe feastol (a ++ b).
Proof. intros Ha Hb row w Hin. apply in_app_or in Hin. destruct Hin; eauto. Qed.

(** What one round adds: at most one path row, which it adds exactly when
    the path length grows, and only extension rows with a safe weight. *)
Lemma pathRound_adds (s : State) (len : Z) (r : Round) :
  pathRound adj s len = Ok r ->
  exists s' len' new,
    (r = RoundBreak s' /\ len' = len \/ r = RoundContinue s' len') /\
    trace s' = new ++ trace s /\
    Z.of_nat (length (pathRows new)) = len' - len /\
    extensionsSafe feastol new /\
    (len' = len \/ len' = len + 1).
Proof.
  intros H. apply pathRound_shape in H. destruct r as [s' len'|s']; simpl in H.
  - destruct H as [[-> (new & Hn & Hq)]|[-> (new & row & w & Hn & Hq & Hw)]].
    + exists s', len, new. split; [auto|]. split; [exact Hn|].
      rewrite (quiet_pathRows _ Hq). simpl. split; [lia|]. split; [apply quiet_safe; auto|auto].
    + exists s', (len + 1), (EvAddRow ExtensionRow row w :: new).
      split; [auto|]. split; [exact Hn|].
      unfold pathRows. simpl. fold (pathRows new). rewrite (quiet_pathRows _ Hq). simpl.
      split; [lia|]. split; [|auto].
      intros row' w' [Heq|Hin].
      * injection Heq as _ <-. apply checkWeight_band. exact Hw.
      * apply (quiet_no_addRow _ _ _ _ Hq) in Hin. discriminate.
  - destruct H as (new & Hn & Hq). exists s', len, new. split; [auto|]. split; [exact Hn|].
    rewrite (quiet_pathRows _ Hq). simpl. split; [lia|]. split; [apply quiet_safe; auto|auto].
Qed.

Lemma pathLoop_adds :
  forall (fuel : nat) (s s' : State) (len : Z),
    len <= maxPathLen ->
    pathLoop adj fuel s len = Ok s' ->
    exists new,
      trace s' = new ++ trace s /\
      Z.of_nat (length (pathRows new)) <= maxPathLen - len /\
      extensionsSafe feastol new.
Proof.
  induction fuel as [|fuel IH]; intros s s' len Hlen H; simpl in H;
    destruct (len =? maxPathLen) eqn:E; try discriminate.
  - apply Z.eqb_eq in E. injection H as <-. exists [].
    split; [reflexivity|]. split; [change (pathRows []) with (@nil event); simpl length; lia|].
    intros row w [].
  - apply Z.eqb_eq in E. injection H as <-. exists [].
    split; [reflexivity|]. split; [change (pathRows []) with (@nil event); simpl length; lia|].
    intros row w [].
  - apply Z.eqb_neq in E. inv_bind H. rename x into r.
    destruct (pathRound_adds _ _ _ Hx) as (s1 & len1 & new1 & Hr & Ht1 & Hc1 & Hs1 & Hl1).
    destruct Hr as [[-> ->]| ->].
    + injection H as <-. exists new1. split; [exact Ht1|]. split; [lia|exact Hs1].
    + destruct (IH s1 s' len1 ltac:(lia) H) as (new2 & Ht2 & Hc2 & Hs2).
      exists (new2 ++ new1). split; [rewrite Ht2, Ht1, app_assoc; reflexivity|].
      rewrite pathRows_app, length_app. split; [lia|apply extensionsSafe_app; auto].
Qed.

Lemma separateRow_adds (fuel : nat) (i : Z) (s s' : State) :
  separateRow adj fuel i s = Ok s' ->
  exists new,
    trace s' = new ++ trace s /\
    Z.of_nat (length (pathRows new)) <= maxPathLen /\
    extensionsSafe feastol new.
Proof.
  intros H. unfold separateRow in H. inv_bind H. rename x into k.
  assert (Hgo : forall w,
            (s1 <- pathLoop adj fuel (doAddRow SeedRow i w s) 1 ;; Ok (doClear s1)) = Ok s' ->
            exists new,
              trace s' = new ++ trace s /\
              Z.of_nat (length (pathRows new)) <= maxPathLen /\
              extensionsSafe feastol new).
  { intros w Hw. inv_bind Hw. injection Hw as <-.
    apply pathLoop_adds in Hx0; [|unfold maxPathLen; lia].
    destruct Hx0 as (new & Ht & Hc & Hs). simpl in Ht.
    exists (EvClear :: new ++ [EvAddRow SeedRow i w]). simpl.
    split; [rewrite Ht, <- app_assoc; reflexivity|].
    unfold pathRows. simpl. fold (pathRows (new ++ [EvAddRow SeedRow i w])).
    rewrite pathRows_app, length_app. simpl. split; [lia|].
    intros row w' [Hd|Hin]; [discriminate|].
    apply in_app_or in Hin. destruct Hin as [Hin|[Hd|[]]]; [eauto|discriminate]. }
  destruct k; [|eapply Hgo; eauto ..].
  injection H as <-. exists []. split; [reflexivity|].
  split; [change (pathRows []) with (@nil event); simpl length; unfold maxPathLen; lia|].
  intros row w [].
Qed.





Lemma separateRows_adds (fuel : nat) (s s' : State) :
  separateRows adj fuel s = Ok s' ->
  exists new, trace s' = new ++ trace s /\ extensionsSafe feastol new.
Proof.
  intros H. unfold separateRows in H.
  apply (forNe_inv (fun _ t => exists new, trace t = new ++ trace s /\
                                           extensionsSafe feastol new)) in H.
  - tauto.
  - exists []. split; [reflexivity|]. intros row w [].
  - intros i t t' _ (new & Ht & Hs) Hstep.
    destruct (separateRow_adds _ _ _ _ Hstep) as (new' & Ht' & _ & Hs').
    exists (new' ++ new). split; [rewrite Ht', Ht, app_assoc; reflexivity|].
    apply extensionsSafe_app; auto.
Qed.

End LoopFacts.







(* ================================================================== *)
(** ** Weights, seeding and the fallback lookup *)
(* ================================================================== *)

Lemma foldM_app {X S} (body : X -> S -> res S) (xs ys : list X) (s : S) :
  foldM body (xs ++ ys) s = (s' <- foldM body xs s ;; foldM body ys s').
Proof.
  revert s. induction xs as [|x xs IH]; intros s; simpl; [reflexivity|].
  destruct (body x s); simpl; auto.
Qed.

Lemma zrange_app (lo k hi : Z) :
  lo <= k <= hi -> zrange lo hi = zrange lo k ++ zrange k hi.
Proof.
  intros H. remember (Z.to_nat (k - lo)) as n eqn:Hn. revert lo Hn H.
  induction n as [|n IH]; intros lo Hn H.
  - replace k with lo by lia. rewrite (zrange_nil lo lo) by lia. reflexivity.
  - rewrite (zrange_cons lo hi), (zrange_cons lo k) by lia. simpl. f_equal.
    apply IH; lia.
Qed.

Lemma zrange_split (lo k hi : Z) :
  lo <= k < hi -> zrange lo hi = zrange lo k ++ k :: zrange (k + 1) hi.
Proof.
  intros H. rewrite (zrange_app lo k hi) by lia. rewrite (zrange_cons k hi) by lia.
  reflexivity.
Qed.

Section WeightTheorem.
Context {R : Relaxation}.
Context {Agg Cut Rng : Type}.
Context {AggOps : LpAggregator Agg} {CutOps : CutGeneration Cut} {RngOps : Random Rng}.

Abbreviation State := (SepState Agg Cut Rng).

Lemma arcStep_rejected (name : string) (arcRows : list (Z * double)) (colVal : double)
    (k thisRow : Z) (coef : double) (st : ArcChoice * State) :
  vget name arcRows k = Ok (thisRow, coef) ->
  ~ inSafeBand feastol (- colVal / coef)%float ->
  arcStep name arcRows colVal k st = Ok st.
Proof.
  intros Hget Hband. unfold arcStep. destruct st as [ch s]. rewrite Hget. simpl.
  destruct (checkWeight (- colVal / coef)%float) eqn:E; [|reflexivity].
  exfalso. apply Hband. apply checkWeight_band. exact E.
Qed.

(** C8. Every extension row folded during a call of the separator was
    folded with a weight [w] such that tolerance <= |w| <= 1 / tolerance.
    A candidate row whose cancelling weight is outside the band is passed
    over by the scan, which goes on with the remaining candidates and ends as
    if the candidate had not been in the arc list. *)
Theorem extension_weights_safe :
  (forall (fuel : nat) (s s' : State),
     separateLpSolution fuel s = Ok s' ->
     exists new, trace s' = new ++ trace s /\ extensionsSafe feastol new) /\
  (forall (name : string) (arcRows : list (Z * double)) (colVal : double)
          (lo hi k thisRow : Z) (coef : double) (s : State),
     lo <= k < hi ->
     vget name arcRows k = Ok (thisRow, coef) ->
     ~ inSafeBand feastol (- colVal / coef)%float ->
     scanArcRows name arcRows (lo, hi) colVal s =
       foldM (arcStep name arcRows colVal) (zrange lo k ++ zrange (k + 1) hi) (noChoice, s)).
Proof.
  split.
  - intros fuel s s' H. unfold separateLpSolution in H. inv_bind H. rename x into adj.
    apply separateRows_adds in H. exact H.
  - intros name arcRows colVal lo hi k thisRow coef s Hk Hget Hband.
    unfold scanArcRows, forLt. simpl fst. simpl snd.
    rewrite (zrange_split lo k hi Hk), !foldM_app.
    destruct (foldM (arcStep name arcRows colVal) (zrange lo k) (noChoice, s)) as [st| |];
      simpl; try reflexivity.
    rewrite (arcStep_rejected _ _ _ _ _ _ st Hget Hband). reflexivity.
Qed.

(** C9. A call of the separator never reads the state its generator was
    left in: the generator is first set to [initialise (random_seed +
    number of LP iterations)]. Two calls on the same relaxation, tolerance,
    seed and iteration count, whatever the generator held before, return the
    same result: the same random bits, the same cut generation attempts with
    the same outcomes, the same final state. The seed and the iteration
    count matter through their sum only. *)
Theorem reseeded_every_call (fuel : nat) (s : State) (before : Rng)
    (seed1 iters1 seed2 iters2 : Z) :
  separateLpSolution fuel s =
    (adj <- buildAdjacency ;;
     separateRows adj fuel
       (mkSepState (aggregator s) (cutGen s)
          (initialise (random_seed + getNumLpIterations)) (trace s))) /\
  separateLpSolution fuel s =
    separateLpSolution fuel (mkSepState (aggregator s) (cutGen s) before (trace s)) /\
  (seed1 + iters1 = seed2 + iters2 ->
   @separateLpSolution (withSeed R seed1 iters1) _ _ _ _ _ _ fuel s =
   @separateLpSolution (withSeed R seed2 iters2) _ _ _ _ _ _ fuel
     (mkSepState (aggregator s) (cutGen s) before (trace s))).
Proof.
  split; [reflexivity|]. split; [reflexivity|].
  intros Hsum. unfold separateLpSolution. simpl random_seed. simpl getNumLpIterations.
  rewrite Hsum. reflexivity.
Qed.

(** The lookup of line 286 at an index that is no column. *)
Lemma checkOutArcCol_without_candidate (adj : Adjacency) (c : Candidates) (len : Z)
    (s : State) :
  bestInArcCol c = -1 ->
  checkOutArcCol adj c len s = Fault (OutOfRange "colOutArcs" (-1)).
Proof. intros H. unfold checkOutArcCol. rewrite H. reflexivity. Qed.

End WeightTheorem.


Example runSeparator_relaxC :
  exists s, runSeparator relaxC 20 (startA scriptC) = Ok s /\
    filter isAddRow (trace s) =
      [EvAddRow ExtensionRow 0 1%float; EvAddRow SeedRow 2 1%float;
       EvAddRow SeedRow 1 1%float;
       EvAddRow ExtensionRow 2 1%float; EvAddRow SeedRow 0 1%float].
Proof. eexists. split; vm_compute; reflexivity. Qed.

(** The theorem at relaxation C: both extension rows of the run were folded
    with weight 1, and the scan of the in-arcs of column 0 for the
    coefficient -1e7 passes over row 1, whose weight would be 1e7. *)
Lemma extension_weights_safe_witness :
  (exists s',
     runSeparator relaxC 20 (startA scriptC) = Ok s' /\
     exists new, trace s' = new ++ trace (startA scriptC) /\ extensionsSafe tol6 new) /\
  @scanArcRows relaxC _ _ _ ParityBits "inArcRows"%string (inArcRows adjC) (0, 1)
     (-1e7)%float (startA scriptC) =
  foldM (@arcStep relaxC _ _ _ ParityBits "inArcRows"%string (inArcRows adjC) (-1e7)%float)
     (zrange 0 0 ++ zrange (0 + 1) 1) (noChoice, startA scriptC).
Proof.
  split.
  - eexists. split; [vm_compute; reflexivity|].
    apply (proj1 (@extension_weights_safe relaxC _ _ _ (SumAggregator rowsC)
                    ScriptedCuts ParityBits) 20%nat (startA scriptC)).
    vm_compute. reflexivity.
  - apply (proj2 (@extension_weights_safe relaxC _ _ _ (SumAggregator rowsC)
                    ScriptedCuts ParityBits)
             "inArcRows"%string (inArcRows adjC) (-1e7)%float 0 1 0 1 1%float
             (startA scriptC)).
    + lia.
    + reflexivity.
    + intros [_ H]. vm_compute in H. discriminate H.
Defined.

(** The theorem at relaxation C: seed 0 after 3 iterations and seed 1 after
    2 iterations give the same call. *)
Lemma reseeded_every_call_witness :
  runSeparator relaxC 20 (startA scriptC) =
    (adj <- @buildAdjacency relaxC ;;
     @separateRows relaxC _ _ _ (SumAggregator rowsC) ScriptedCuts ParityBits adj 20
       (mkSepState [] scriptC (0 + 3) [])) /\
  runSeparator relaxC 20 (startA scriptC) =
    runSeparator relaxC 20 (mkSepState [] scriptC 12345 []) /\
  (0 + 3 = 1 + 2 ->
   @separateLpSolution (withSeed relaxC 0 3) _ _ _ (SumAggregator rowsC) ScriptedCuts
     ParityBits 20 (startA scriptC) =
   @separateLpSolution (withSeed relaxC 1 2) _ _ _ (SumAggregator rowsC) ScriptedCuts
     ParityBits 20 (mkSepState [] scriptC 12345 [])).
Proof.
  exact (@reseeded_every_call relaxC _ _ _ (SumAggregator rowsC) ScriptedCuts ParityBits
           20%nat (startA scriptC) 12345 0 3 1 2).
Defined.

(** C10, at relaxation A. Seeded with row 0, the aggregation holds column
    0 with coefficient -1e7: column 0 is the out-arc candidate and there is
    no in-arc candidate. Its only in-arc row has the cancelling weight 1e7,
    above 1 / tolerance, so it is passed over and the scan ends with
    [row == -1]; the jump to [check_out_arc_col] then reads
    [colOutArcs[bestInArcCol]] with [bestInArcCol == -1]. *)
Theorem fallback_lookup_out_of_range (fuel : nat) :
  runSeparator relaxA (S fuel) (startA []) = Fault (OutOfRange "colOutArcs"%string (-1)).
Proof. vm_compute. reflexivity. Qed.

(* ================================================================== *)
(** ** Which candidate is tried first *)
(* ================================================================== *)

Lemma compare_cont_Eq_antisym (p q : positive) :
  Pos.compare_cont Eq q p = CompOpp (Pos.compare_cont Eq p q).
Proof. rewrite Pos.compare_cont_antisym. reflexivity. Qed.

Lemma SFcompare_antisym (x y : spec_float) (c : comparison) :
  SFcompare x y = Some c -> SFcompare y x = Some (CompOpp c).
Proof.
  destruct x as [sx|sx| |sx mx ex], y as [sy|sy| |sy my ey]; simpl;
    try destruct sx; try destruct sy; intros H; try discriminate H;
    try (injection H as <-; reflexivity);
    injection H as <-; f_equal; rewrite (Z.compare_antisym ex ey);
    rewrite (compare_cont_Eq_antisym mx my);
    destruct (ex ?= ey); simpl; try reflexivity;
    destruct (Pos.compare_cont Eq mx my); reflexivity.
Qed.

Lemma not_nan_spec (x : float) : is_nan x = false -> Prim2SF x <> S754_nan.
Proof.
  unfold is_nan. rewrite eqb_spec. intros H E. rewrite E in H. discriminate H.
Qed.

(** For doubles that are numbers, [x >= y] fails exactly when [x < y]. *)
Lemma fge_false_iff_flt (x y : float) :
  is_nan x = false -> is_nan y = false ->
  fge x y = negb (flt x y).
Proof.
  intros Hx Hy. apply not_nan_spec in Hx, Hy. unfold fge, flt.
  rewrite leb_spec, ltb_spec. unfold SFleb, SFltb.
  destruct (SFcompare (Prim2SF x) (Prim2SF y)) as [c|] eqn:E.
  - rewrite (SFcompare_antisym _ _ _ E). destruct c; reflexivity.
  - exfalso. destruct (Prim2SF x) as [sx|sx| |sx mx ex], (Prim2SF y) as [sy|sy| |sy my ey];
      simpl in E; try destruct sx; try destruct sy; try discriminate E; congruence.
Qed.

Section PreferenceTheorem.
Context {R : Relaxation}.
Context {Agg Cut Rng : Type}.
Context {AggOps : LpAggregator Agg} {CutOps : CutGeneration Cut} {RngOps : Random Rng}.

Abbreviation State := (SepState Agg Cut Rng).

(** C7. When the path is extended (some candidate exists) and the bound
    distances compared are numbers, the out-arc candidate is tried first
    unless there is no out-arc candidate, or there is an in-arc candidate
    whose bound distance exceeds the out-arc candidate's by more than the
    tolerance; a tie or near-tie selects the out-arc candidate. Tried first
    means: [extendPath] scans the in-arc rows of [bestOutArcCol]; otherwise
    it goes straight to the out-arc rows of [bestInArcCol]. *)
Theorem out_arc_preferred (c : Candidates) :
  bestOutArcCol c <> -1 \/ bestInArcCol c <> -1 ->
  is_nan (outArcColBoundDist c) = false ->
  is_nan (inArcColBoundDist c - feastol)%float = false ->
  (preferOutArc c = false <->
   bestOutArcCol c = -1 \/
   (bestInArcCol c <> -1 /\
    exceedsByMoreThan feastol (inArcColBoundDist c) (outArcColBoundDist c) = true)) /\
  (bestOutArcCol c <> -1 ->
   exceedsByMoreThan feastol (inArcColBoundDist c) (outArcColBoundDist c) = false ->
   preferOutArc c = true) /\
  (forall (adj : Adjacency) (len : Z) (s : State),
     extendPath adj c len s =
       if preferOutArc c
       then
         range <- vget "colInArcs" (colInArcs adj) (bestOutArcCol c) ;;
         '(ch, s1) <- scanArcRows "inArcRows" (inArcRows adj) range (outArcColVal c) s ;;
         if ac_row ch =? -1 then checkOutArcCol adj c (len + 1) s1
         else Ok (RoundContinue
                    (doAddRow ExtensionRow (ac_row ch) (ac_weight ch) s1) (len + 1))
       else checkOutArcCol adj c (len + 1) s).
Proof.
  intros Hsome Hout Hin.
  assert (Hge : fge (outArcColBoundDist c) (inArcColBoundDist c - feastol)%float =
                negb (exceedsByMoreThan feastol (inArcColBoundDist c) (outArcColBoundDist c))).
  { unfold exceedsByMoreThan, fgt. apply fge_false_iff_flt; assumption. }
  split; [|split].
  - unfold preferOutArc. rewrite Hge.
    destruct (Z.eqb_spec (bestInArcCol c) (-1)) as [Ei|Ei];
      destruct (Z.eqb_spec (bestOutArcCol c) (-1)) as [Eo|Eo];
      destruct (exceedsByMoreThan feastol (inArcColBoundDist c) (outArcColBoundDist c));
      simpl; split; intros H; try discriminate H; try tauto;
      try (destruct H as [H|[H1 H2]]; congruence);
      try (destruct Hsome; congruence).
  - intros Ho Hx. unfold preferOutArc. rewrite Hge, Hx.
    destruct (Z.eqb_spec (bestInArcCol c) (-1)) as [Ei|Ei];
      destruct (Z.eqb_spec (bestOutArcCol c) (-1)) as [Eo|Eo]; simpl; congruence.
  - intros adj len s. reflexivity.
Qed.

End PreferenceTheorem.

(** The theorem at relaxation C, seed row 0: both candidates exist at bound
    distance 1, and the out-arc candidate, column 0, is tried first. *)
Lemma out_arc_preferred_witness :
  let c := mkCandidates 0 (-1e7)%float 1%float 1 1%float 1%float in
  (@preferOutArc relaxC c = false <->
   bestOutArcCol c = -1 \/
   (bestInArcCol c <> -1 /\
    exceedsByMoreThan tol6 (inArcColBoundDist c) (outArcColBoundDist c) = true)) /\
  (bestOutArcCol c <> -1 ->
   exceedsByMoreThan tol6 (inArcColBoundDist c) (outArcColBoundDist c) = false ->
   @preferOutArc relaxC c = true) /\
  (forall (adj : Adjacency) (len : Z) (s : SepState (list (Z * double)) (list bool) Z),
     @extendPath relaxC _ _ _ (SumAggregator rowsC) ParityBits adj c len s =
       if @preferOutArc relaxC c
       then
         range <- vget "colInArcs" (colInArcs adj) (bestOutArcCol c) ;;
         '(ch, s1) <- @scanArcRows relaxC _ _ _ ParityBits
                        "inArcRows" (inArcRows adj) range (outArcColVal c) s ;;
         if ac_row ch =? -1
         then @checkOutArcCol relaxC _ _ _ (SumAggregator rowsC) ParityBits adj c (len + 1) s1
         else Ok (RoundContinue
                    (@doAddRow _ _ _ (SumAggregator rowsC) ExtensionRow
                       (ac_row ch) (ac_weight ch) s1) (len + 1))
       else @checkOutArcCol relaxC _ _ _ (SumAggregator rowsC) ParityBits adj c (len + 1) s).
Proof.
  apply (@out_arc_preferred relaxC _ _ _ (SumAggregator rowsC) ParityBits
           (mkCandidates 0 (-1e7)%float 1%float 1 1%float 1%float)).
  - left. discriminate.
  - reflexivity.
  - reflexivity.
Defined.

(* ================================================================== *)
(** ** Cut generation attempts and dead ends *)
(* ================================================================== *)

Section RoundTheorems.
Context {R : Relaxation}.
Context {Agg Cut Rng : Type}.
Context {AggOps : LpAggregator Agg} {CutOps : CutGeneration Cut} {RngOps : Random Rng}.
Variable adj : Adjacency.

Abbreviation State := (SepState Agg Cut Rng).

(** C1, amended. In a round that reaches the extension step, the in-arc
    candidate's out-arc rows are scanned either at once, when the in-arc
    candidate is tried first, or as a fallback after the scan of the out-arc
    candidate's in-arc rows found no qualifying row: either way the
    extension step is the scan of the in-arc candidate's out-arc rows. When
    that scan finds no qualifying row, the path ends there as a dead end: the while loop of the seed row returns, with the
    aggregation left as it was after the cut generation attempts and no row
    folded since. *)
Theorem dead_end_stops_path (s sA s1 sE : State) (len : Z) (fuel : nat)
    (inds : list Z) (vals : list double) (sc : ScanState)
    (rangeOut : Z * Z) (ch : ArcChoice) :
  len <> maxPathLen ->
  scanBaseRow adj s = Ok (inds, vals, sc) ->
  addedSubstitutionRows sc = false ->
  attemptCuts inds vals (sc_state sc) = (false, sA) ->
  bestOutArcCol (sc_cands sc) <> -1 \/ bestInArcCol (sc_cands sc) <> -1 ->
  (preferOutArc (sc_cands sc) = false /\ s1 = sA) \/
  (preferOutArc (sc_cands sc) = true /\
   exists rangeIn ch1,
     vget "colInArcs" (colInArcs adj) (bestOutArcCol (sc_cands sc)) = Ok rangeIn /\
     scanArcRows "inArcRows" (inArcRows adj) rangeIn (outArcColVal (sc_cands sc)) sA
       = Ok (ch1, s1) /\
     ac_row ch1 = -1) ->
  vget "colOutArcs" (colOutArcs adj) (bestInArcCol (sc_cands sc)) = Ok rangeOut ->
  scanArcRows "outArcRows" (outArcRows adj) rangeOut (inArcColVal (sc_cands sc)) s1
    = Ok (ch, sE) ->
  ac_row ch = -1 ->
  extendPath adj (sc_cands sc) len sA = checkOutArcCol adj (sc_cands sc) (len + 1) s1 /\
  pathLoop adj (S fuel) s len = Ok sE /\
  aggregator sE = aggregator sA /\
  exists new, trace sE = new ++ trace sA /\ Forall (fun e => isAddRow e = false) new.
Proof.
  intros Hlen Hscan Hadd Hcuts Hsome Hreach Hrange Hout Hnone.
  assert (Hfall : checkOutArcCol adj (sc_cands sc) (len + 1) s1 = Ok (RoundBreak sE)).
  { unfold checkOutArcCol. rewrite Hrange. simpl. rewrite Hout. simpl.
    rewrite Hnone. reflexivity. }
  assert (Hfb : extendPath adj (sc_cands sc) len sA =
                checkOutArcCol adj (sc_cands sc) (len + 1) s1).
  { unfold extendPath. cbv zeta.
    destruct Hreach as [[Hp ->]|[Hp (rangeIn & ch1 & Hri & Hin & Hn1)]]; rewrite Hp.
    - reflexivity.
    - rewrite Hri. simpl. rewrite Hin. simpl. rewrite Hn1. reflexivity. }
  assert (Hext : extendPath adj (sc_cands sc) len sA = Ok (RoundBreak sE))
    by (rewrite Hfb; exact Hfall).
  split; [exact Hfb|]. split; [|split].
  - simpl. destruct (len =? maxPathLen) eqn:E; [apply Z.eqb_eq in E; contradiction|].
    unfold pathRound. rewrite Hscan. simpl. rewrite Hadd, Hcuts. simpl.
    replace ((bestOutArcCol (sc_cands sc) =? -1) && (bestInArcCol (sc_cands sc) =? -1))
      with false.
    + rewrite Hext. reflexivity.
    + symmetry. apply andb_false_iff.
      destruct Hsome as [Hs|Hs]; [left|right]; apply Z.eqb_neq; exact Hs.
  - destruct (scanArcRows_trace _ _ _ _ _ _ _ Hout) as (_ & Ha & _).
    destruct Hreach as [[_ ->]|[_ (rangeIn & ch1 & _ & Hin & _)]]; [exact Ha|].
    destruct (scanArcRows_trace _ _ _ _ _ _ _ Hin) as (_ & Ha1 & _). congruence.
  - destruct (scanArcRows_trace _ _ _ _ _ _ _ Hout) as (_ & _ & _ & new & Ht & _ & Hn).
    destruct Hreach as [[_ ->]|[_ (rangeIn & ch1 & _ & Hin & _)]]; [eauto|].
    destruct (scanArcRows_trace _ _ _ _ _ _ _ Hin) as (_ & _ & _ & new1 & Ht1 & _ & Hn1).
    exists (new ++ new1). split; [rewrite Ht, Ht1, app_assoc; reflexivity|].
    apply Forall_app. auto.
Qed.

End RoundTheorems.

(** C2, at relaxation C, seed row 0, with a cut generator whose first
    attempt succeeds. The round folds no substitution row and cut generation
    is attempted once, on the aggregated row as it is: the [||] of lines
    245-246 skips the attempt on the complemented form, which line 242 has
    just read and which the comment of lines 123-124 says is tried "in any
    case". The trace of the round holds one attempt, not two. *)
Lemma one_attempt_when_first_succeeds :
  exists sc s',
    @scanBaseRow relaxC _ _ _ (SumAggregator rowsC) adjC (seedC 0 [true])
      = Ok ([0; 1], [(-1e7)%float; 1%float], sc) /\
    addedSubstitutionRows sc = false /\
    @pathRound relaxC _ _ _ (SumAggregator rowsC) ScriptedCuts ParityBits adjC
      (seedC 0 [true]) 1 = Ok (RoundBreak s') /\
    filter isGenerateCut (trace s') =
      [EvGenerateCut false [0; 1] [(-1e7)%float; 1%float] 0%float true].
Proof.
  do 2 eexists. split; [reflexivity|]. split; [reflexivity|].
  split; reflexivity.
Qed.

(** C1 as stated fails at relaxation C, seed row 0. The out-arc candidate,
    column 0, is the column chosen; the scan of its in-arc rows finds no
    qualifying row (the only weight, 1e7, is rejected); yet the round goes
    on: it scans the out-arc rows of the in-arc candidate and folds row 2
    into the aggregation. *)
Lemma fallback_folds_after_failed_scan :
  (exists sc,
     @scanBaseRow relaxC _ _ _ (SumAggregator rowsC) adjC (seedC 0 [])
       = Ok ([0; 1], [(-1e7)%float; 1%float], sc) /\
     sc_cands sc = candsC0) /\
  @preferOutArc relaxC candsC0 = true /\
  (forall st : SepState (list (Z * double)) (list bool) Z,
     @scanArcRows relaxC _ _ _ ParityBits "inArcRows" (inArcRows adjC) (0, 1)
       (outArcColVal candsC0) st = Ok (noChoice, st)) /\
  (exists s',
     @pathRound relaxC _ _ _ (SumAggregator rowsC) ScriptedCuts ParityBits adjC
       (seedC 0 []) 1 = Ok (RoundContinue s' 2) /\
     filter isAddRow (trace s') =
       [EvAddRow ExtensionRow 2 1%float; EvAddRow SeedRow 0 1%float]).
Proof.
  split; [eexists; split; reflexivity|].
  split; [reflexivity|].
  split; [intros st; reflexivity|].
  eexists. split; reflexivity.
Qed.

(** The amended C1 at relaxation C, seed row 1: column 0 is the in-arc
    candidate, the only out-arc row has weight 1e-7, below the tolerance,
    and the path of seed row 1 ends there. *)
Lemma dead_end_stops_path_witness :
  @extendPath relaxC _ _ _ (SumAggregator rowsC) ParityBits adjC candsC1 1 afterCutsC1 =
  @checkOutArcCol relaxC _ _ _ (SumAggregator rowsC) ParityBits adjC candsC1 (1 + 1)
    afterCutsC1 /\
  @pathLoop relaxC _ _ _ (SumAggregator rowsC) ScriptedCuts ParityBits adjC 1
    (seedC 1 []) 1 = Ok afterCutsC1 /\
  aggregator afterCutsC1 = aggregator afterCutsC1 /\
  exists new,
    trace afterCutsC1 = new ++ trace afterCutsC1 /\
    Forall (fun e => isAddRow e = false) new.
Proof.
  apply (@dead_end_stops_path relaxC _ _ _ (SumAggregator rowsC) ScriptedCuts ParityBits
           adjC (seedC 1 []) afterCutsC1 afterCutsC1 afterCutsC1 1 0%nat
           [0] [1%float] (mkScanState (seedC 1 []) false candsC1) (0, 1) noChoice).
  - discriminate.
  - reflexivity.
  - reflexivity.
  - reflexivity.
  - right. discriminate.
  - left. split; reflexivity.
  - reflexivity.
  - reflexivity.
  - reflexivity.
Defined.

(* ================================================================== *)
(** ** The counts of eligible continuous incidences *)
(* ================================================================== *)

Section CountFacts.
Context {R : Relaxation}.

Lemma countColumn_run (b e : Z) (nc nc' : list Z) :
  forNe b e
    (fun i nc =>
       r <- vget "a_index_" (a_index_ lp) i ;;
       c <- vget "numContinuous" nc r ;;
       vset "numContinuous" nc r (c + 1)) nc = Ok nc' ->
  vsize nc' = vsize nc /\
  forall r c0,
    vget "numContinuous" nc r = Ok c0 ->
    vget "numContinuous" nc' r =
      Ok (c0 + Z.of_nat (length (filter (fun e => fst e =? r) (map entryAt (zrange b e))))).
Proof.
  intros H.
  apply (forNe_inv (fun p ncp =>
           vsize ncp = vsize nc /\
           forall r c0,
             vget "numContinuous" nc r = Ok c0 ->
             vget "numContinuous" ncp r =
               Ok (c0 + Z.of_nat (length (filter (fun e => fst e =? r)
                                            (map entryAt (zrange b p))))))) in H.
  - tauto.
  - split; [reflexivity|]. intros r c0 Hr. rewrite zrange_nil by lia. simpl.
    rewrite Hr. f_equal. lia.
  - intros p ncp ncp' Hp [Hsz Hcnt] Hstep.
    inv_bind Hstep. rename x into r'. inv_bind Hstep. rename x into c.
    apply vset_Ok in Hstep. destruct Hstep as [Hr' ->].
    split; [rewrite vsize_update; exact Hsz|].
    intros r c0 Hr. specialize (Hcnt r c0 Hr).
    rewrite zrange_snoc by lia. rewrite map_app, filter_app, length_app. simpl.
    rewrite (vget_nth _ _ _ _ 0 Hx). destruct (Z.eqb_spec r' r) as [->|Hne].
    + rewrite vget_update_same by exact Hr'. rewrite Hx0 in Hcnt.
      injection Hcnt as ->. simpl. f_equal. lia.
    + pose proof (vget_range _ _ _ _ Hr) as Hrr.
      rewrite vget_update_other by lia. rewrite Hcnt. simpl. f_equal. lia.
Qed.

Lemma countColumns_run (cols : list Z) :
  forall nc nc',
    foldM
      (fun col nc =>
         if atBound col then Ok nc
         else
           b <- vget "a_start_" (a_start_ lp) col ;;
           e <- vget "a_start_" (a_start_ lp) (col + 1) ;;
           forNe b e
             (fun i nc =>
                r <- vget "a_index_" (a_index_ lp) i ;;
                c <- vget "numContinuous" nc r ;;
                vset "numContinuous" nc r (c + 1))
             nc) cols nc = Ok nc' ->
    vsize nc' = vsize nc /\
    forall r c0,
      vget "numContinuous" nc r = Ok c0 ->
      vget "numContinuous" nc' r = Ok (c0 + eligibleIncidences cols r).
Proof.
  induction cols as [|col cols IH]; intros nc nc' H; simpl in H.
  - injection H as <-. split; [reflexivity|]. intros r c0 Hr. simpl. rewrite Hr. f_equal. lia.
  - inv_bind H. rename x into nc1. destruct (IH nc1 nc' H) as [Hsz Hcnt].
    assert (Hcol : vsize nc1 = vsize nc /\
                   forall r c0, vget "numContinuous" nc r = Ok c0 ->
                     vget "numContinuous" nc1 r =
                       Ok (c0 + (if atBound col then 0 else incidencesIn col r))).
    { destruct (atBound col).
      - injection Hx as <-. split; [reflexivity|]. intros r c0 Hr. rewrite Hr. f_equal. lia.
      - inv_bind Hx. rename x into b. inv_bind Hx. rename x into e.
        apply countColumn_run in Hx. destruct Hx as [Hs1 Hc1]. split; [exact Hs1|].
        intros r c0 Hr. rewrite (Hc1 r c0 Hr). unfold incidencesIn, columnEntries.
        rewrite (vget_nth _ _ _ _ 0 Hx0), (vget_nth _ _ _ _ 0 Hx1). reflexivity. }
    destruct Hcol as [Hs1 Hc1]. split; [congruence|].
    intros r c0 Hr. rewrite (Hcnt r _ (Hc1 r c0 Hr)). simpl. f_equal. lia.
Qed.

(** [numContinuous[r]] is the number of incidences of row [r] in the
    continuous columns that are off their bound: the count that
    [qualifies] compares with one. *)
Lemma countContinuous_spec (nc : list Z) :
  countContinuous = Ok nc ->
  vsize nc = num_row_ lp /\
  forall r, 0 <= r < num_row_ lp ->
    vget "numContinuous" nc r = Ok (eligibleIncidences continuous_cols r).
Proof.
  intros H. unfold countContinuous in H. inv_bind H.
  apply vnew_Ok in Hx. destruct Hx as [Hn ->].
  apply countColumns_run in H. destruct H as [Hsz Hcnt].
  rewrite vsize_repeat in Hsz by exact Hn. split; [exact Hsz|].
  intros r Hr. rewrite (Hcnt r 0 (vget_repeat _ 0 _ r Hr)). reflexivity.
Qed.

End CountFacts.

(* ================================================================== *)
(** ** The separator run on the three relaxations *)
(* ================================================================== *)

Example buildAdjacency_relaxA :
  @buildAdjacency relaxA =
    Ok (mkAdjacency [kGeq; kGeq] [(-1, 0%float)]
          [(1, 1%float)] [(0, 1)] [(0, (-1e7)%float)] [(0, 1)]).
Proof. reflexivity. Qed.

Example classifyRows_relaxB : @classifyRows relaxB = Ok [kEq; kEq; kGeq].
Proof. reflexivity. Qed.

Example countContinuous_relaxB : @countContinuous relaxB = Ok [1; 1; 2].
Proof. reflexivity. Qed.

Example detectSubstitutions_relaxB :
  @detectSubstitutions relaxB [kEq; kEq; kGeq] [1; 1; 2] =
    Ok ([(0, 1%float); (-1, 0%float); (-1, 0%float)], [kUnusuable; kEq; kGeq]).
Proof. reflexivity. Qed.

Example buildAdjacency_relaxB :
  @buildAdjacency relaxB =
    Ok (mkAdjacency [kUnusuable; kEq; kGeq]
          [(0, 1%float); (-1, 0%float); (-1, 0%float)]
          [] [(0, 0); (0, 0); (0, 0)] [(2, (-1)%float)] [(0, 0); (0, 1); (0, 0)]).
Proof. reflexivity. Qed.

Example buildAdjacency_relaxC : @buildAdjacency relaxC = Ok adjC.
Proof. reflexivity. Qed.

(** On relaxation B every seed row starts with a round of substitutions
    (row 0 cancels column 0) and ends at the next round, where no candidate
    is left. *)
Example runSeparator_relaxB :
  exists s, runSeparator relaxB 10 (startA []) = Ok s /\
    filter isAddRow (trace s) =
      [EvAddRow SubstitutionRow 0 (-1)%float; EvAddRow SeedRow 2 1%float;
       EvAddRow SubstitutionRow 0 (-3)%float; EvAddRow SeedRow 1 1%float].
Proof. eexists. split; vm_compute; reflexivity. Qed.

(* ================================================================== *)
(** ** Faults of loops *)
(* ================================================================== *)

Lemma bind_Fault_inv {A B} (m : res A) (k : A -> res B) (f : fault) :
  bind m k = Fault f -> m = Fault f \/ exists a, m = Ok a /\ k a = Fault f.
Proof.
  destruct m; simpl; intros H; try discriminate; [right; eauto|left; congruence].
Qed.

(** A loop whose body cannot fault at the values its counter takes does
    not fault. *)
Lemma foldM_no_fault {X S} (body : X -> S -> res S) (xs : list X) (f : fault) :
  (forall x s, In x xs -> body x s <> Fault f) ->
  forall s, foldM body xs s <> Fault f.
Proof.
  induction xs as [|x xs IH]; intros Hb s H; simpl in H; [discriminate|].
  apply bind_Fault_inv in H. destruct H as [H|(a & _ & H)].
  - exact (Hb x s (or_introl eq_refl) H).
  - refine (IH _ a H). intros y t Hy. apply Hb. right. exact Hy.
Qed.

Lemma forLt_no_fault {S} (lo hi : Z) (body : Z -> S -> res S) (f : fault) :
  (forall i s, lo <= i < hi -> body i s <> Fault f) ->
  forall s, forLt lo hi body s <> Fault f.
Proof.
  intros Hb s. unfold forLt. apply foldM_no_fault.
  intros i t Hi. apply Hb. apply zrange_In. exact Hi.
Qed.

Lemma forNe_no_fault {S} (lo hi : Z) (body : Z -> S -> res S) (f : fault) :
  lo <= hi ->
  (forall i s, lo <= i < hi -> body i s <> Fault f) ->
  forall s, forNe lo hi body s <> Fault f.
Proof.
  intros Hle Hb s. unfold forNe. destruct (hi <? lo) eqn:E; [apply Z.ltb_lt in E; lia|].
  apply foldM_no_fault. intros i t Hi. apply Hb. apply zrange_In. exact Hi.
Qed.

Lemma vget_Fault {A} (name : string) (v : list A) (i : Z) (f : fault) :
  vget name v i = Fault f -> f = OutOfRange name i /\ ~ (0 <= i < vsize v).
Proof.
  unfold vget, vsize. destruct (i <? 0) eqn:E.
  - apply Z.ltb_lt in E. intros [= <-]. split; [reflexivity|lia].
  - apply Z.ltb_ge in E. destruct (nth_error v (Z.to_nat i)) eqn:En; [discriminate|].
    intros [= <-]. split; [reflexivity|]. apply nth_error_None in En. lia.
Qed.

Lemma vget_safe {A} (name : string) (v : list A) (i : Z) (f : fault) :
  0 <= i < vsize v -> vget name v i <> Fault f.
Proof. intros Hi H. apply vget_Fault in H. tauto. Qed.

(* ================================================================== *)
(** ** The scan of an arc list (lines 258-275 and 283-300) *)
(* ================================================================== *)

Section ArcScan.
Context {R : Relaxation}.
Context {Agg Cut Rng : Type}.
Context {AggOps : LpAggregator Agg} {CutOps : CutGeneration Cut} {RngOps : Random Rng}.

Abbreviation State := (SepState Agg Cut Rng).

Lemma doBit_state (s : State) :
  aggregator (snd (doBit s)) = aggregator s /\
  cutGen (snd (doBit s)) = cutGen s /\
  trace (snd (doBit s)) = EvBit (fst (doBit s)) :: trace s.
Proof. unfold doBit. destruct (bit (randgen s)) as [b r]. simpl. auto. Qed.

(** The outcomes of one step of the scan. *)
Lemma arcStep_cases (name : string) (arcRows : list (Z * double)) (colVal : double)
    (k : Z) (ch ch' : ArcChoice) (s s' : State) :
  arcStep name arcRows colVal k (ch, s) = Ok (ch', s') ->
  exists r coef,
    vget name arcRows k = Ok (r, coef) /\
    ((checkWeight (- colVal / coef)%float = false /\ ch' = ch /\ s' = s) \/
     (checkWeight (- colVal / coef)%float = true /\
      exists dual,
        vget "row_dual" (row_dual lpSolution) r = Ok dual /\
        let chosen := mkArcChoice r (- colVal / coef)%float
                        (abs ((- colVal / coef) * dual))%float in
        ((ch' = chosen /\ s' = s) \/
         (ac_row ch <> -1 /\ s' = snd (doBit s) /\
          ch' = if fst (doBit s) then chosen else ch) \/
         (ac_row ch <> -1 /\ ch' = ch /\ s' = s)))).
Proof.
  intros H. unfold arcStep in H. inv_bind H. destruct x as [r coef].
  exists r, coef. split; [exact Hx|].
  destruct (checkWeight (- colVal / coef)%float) eqn:Ew; simpl in H.
  2:{ injection H as <- <-. left. auto. }
  right. split; [reflexivity|]. inv_bind H. rename x into dual.
  exists dual. split; [exact Hx0|]. cbv zeta.
  destruct (ac_row ch =? -1) eqn:Er; simpl in H.
  { injection H as <- <-. left. auto. }
  apply Z.eqb_neq in Er.
  match type of H with (if ?c then _ else _) = _ => destruct c end.
  { injection H as <- <-. left. auto. }
  match type of H with (if ?c then _ else _) = _ => destruct c end.
  - right. left. unfold doBit in *. destruct (bit (randgen s)) as [b rg].
    injection H as <- <-. simpl. auto.
  - injection H as <- <-. right. right. auto.
Qed.

Lemma scanInv_step (name : string) (arcRows : list (Z * double)) (colVal : double)
    (lo : Z) (s : State) (p : Z) (st st' : ArcChoice * State) :
  lo <= p ->
  scanInv name arcRows colVal lo s p st ->
  arcStep name arcRows colVal p st = Ok st' ->
  scanInv name arcRows colVal lo s (p + 1) st'.
Proof.
  intros Hp Hinv Hstep. destruct st as [ch s0], st' as [ch' s1].
  destruct Hinv as (Ha & Hc & Hnone & Hsome & bs & Hbs).
  destruct (arcStep_cases _ _ _ _ _ _ _ _ Hstep) as (r & coef & Hget & Hcase).
  assert (Hwiden : ac_row ch <> -1 ->
            exists k coef dual,
              lo <= k < p + 1 /\
              vget name arcRows k = Ok (ac_row ch, coef) /\
              vget "row_dual" (row_dual lpSolution) (ac_row ch) = Ok dual /\
              ac_weight ch = (- colVal / coef)%float /\
              checkWeight (ac_weight ch) = true /\
              ac_score ch = abs (ac_weight ch * dual)%float).
  { intros Hne. destruct (Hsome Hne) as (k & c0 & d0 & Hk & Hrest).
    exists k, c0, d0. split; [lia|exact Hrest]. }
  destruct Hcase as [(Hw & -> & ->)|(Hw & dual & Hdual & Hcase)].
  - split; [exact Ha|]. split; [exact Hc|]. split; [|split; [exact Hwiden|eauto]].
    intros Hrow. destruct (Hnone Hrow) as (Ht & Hr & Hrej).
    split; [exact Ht|]. split; [exact Hr|].
    intros k r' coef' Hk Hget'. destruct (Z.eq_dec k p) as [->|Hne].
    + rewrite Hget in Hget'. injection Hget' as <- <-. exact Hw.
    + apply (Hrej k r' coef'); [lia|exact Hget'].
  - cbv zeta in Hcase.
    assert (Hr0 : 0 <= r) by (apply vget_range in Hdual; lia).
    assert (Hchosen : forall c,
              c = mkArcChoice r (- colVal / coef)%float
                    (abs ((- colVal / coef) * dual))%float ->
              (ac_row c = -1 ->
               trace s1 = trace s /\ randgen s1 = randgen s /\
               forall k r coef, lo <= k < p + 1 -> vget name arcRows k = Ok (r, coef) ->
                 checkWeight (- colVal / coef)%float = false) /\
              (ac_row c <> -1 ->
               exists k coef dual,
                 lo <= k < p + 1 /\
                 vget name arcRows k = Ok (ac_row c, coef) /\
                 vget "row_dual" (row_dual lpSolution) (ac_row c) = Ok dual /\
                 ac_weight c = (- colVal / coef)%float /\
                 checkWeight (ac_weight c) = true /\
                 ac_score c = abs (ac_weight c * dual)%float)).
    { intros c ->. simpl. split; [intros; lia|]. intros _.
      exists p, coef, dual. split; [lia|]. auto. }
    destruct Hcase as [(-> & ->)|[(Hne & -> & ->)|(Hne & -> & ->)]].
    + split; [exact Ha|]. split; [exact Hc|].
      destruct (Hchosen _ eq_refl) as [H1 H2]. split; [exact H1|]. split; [exact H2|eauto].
    + destruct (doBit_state s0) as (Hba & Hbc & Hbt).
      split; [congruence|]. split; [congruence|].
      assert (Hbits : exists bs', trace (snd (doBit s0)) = map EvBit bs' ++ trace s).
      { exists (fst (doBit s0) :: bs). rewrite Hbt, Hbs. reflexivity. }
      destruct (fst (doBit s0)).
      * destruct (Hchosen _ eq_refl) as [_ H2].
        split; [simpl; intros; lia|]. split; [exact H2|exact Hbits].
      * split; [intros Hrow; contradiction|]. split; [exact Hwiden|exact Hbits].
    + split; [exact Ha|]. split; [exact Hc|].
      split; [intros Hrow; contradiction|]. split; [exact Hwiden|eauto].
Qed.

Lemma scanArcRows_inv (name : string) (arcRows : list (Z * double)) (lo hi : Z)
    (colVal : double) (s s' : State) (ch : ArcChoice) :
  scanArcRows name arcRows (lo, hi) colVal s = Ok (ch, s') ->
  scanInv name arcRows colVal lo s (Z.max lo hi) (ch, s').
Proof.
  intros H. unfold scanArcRows in H. simpl fst in H. simpl snd in H.
  assert (Hstart : scanInv name arcRows colVal lo s lo (noChoice, s)).
  { simpl. split; [reflexivity|]. split; [reflexivity|]. split.
    - intros _. split; [reflexivity|]. split; [reflexivity|]. intros; lia.
    - split; [intros Hne; congruence|]. exists []. reflexivity. }
  destruct (Z_le_gt_dec lo hi) as [Hle|Hgt].
  - rewrite Z.max_r by lia.
    refine (forLt_inv (scanInv name arcRows colVal lo s) _ lo hi _ _ Hle Hstart _ H).
    intros i st st' Hi Hinv Hstep. eapply scanInv_step; eauto. lia.
  - unfold forLt in H. rewrite zrange_nil in H by lia. simpl in H.
    injection H as <- <-. rewrite Z.max_l by lia. exact Hstart.
Qed.

End ArcScan.

Section ArcScanChoice.
Context {R : Relaxation}.
Context {Agg Cut Rng : Type}.
Context {AggOps : LpAggregator Agg} {CutOps : CutGeneration Cut} {RngOps : Random Rng}.

(** X3. The scan of an arc list (lines 261-275 for the in-arc rows, 286-300
    for the out-arc rows) over the entries [lo .. hi-1] with the weight
    [-colVal / coef] of each entry: it ends with [row == -1] exactly when
    the weight of every entry of the range fails [checkWeight], and then it
    has drawn no random bit and left the state as it was; a row it ends with
    is the row of an entry of the range, with that entry's weight, which
    passes [checkWeight], and with the score [|weight * row_dual[row]|]; the
    scan touches neither the aggregator nor the cut generator and records
    nothing but the random bits it draws to break ties. *)
Theorem arc_scan_choice (name : string) (arcRows : list (Z * double)) (lo hi : Z)
    (colVal : double) (s s' : SepState Agg Cut Rng) (ch : ArcChoice) :
  scanArcRows name arcRows (lo, hi) colVal s = Ok (ch, s') ->
  (ac_row ch = -1 <->
   forall k r coef, lo <= k < hi -> vget name arcRows k = Ok (r, coef) ->
     checkWeight (- colVal / coef)%float = false) /\
  (ac_row ch = -1 -> s' = s) /\
  (ac_row ch <> -1 ->
   exists k coef dual,
     lo <= k < hi /\
     vget name arcRows k = Ok (ac_row ch, coef) /\
     vget "row_dual" (row_dual lpSolution) (ac_row ch) = Ok dual /\
     ac_weight ch = (- colVal / coef)%float /\
     checkWeight (ac_weight ch) = true /\
     ac_score ch = abs (ac_weight ch * dual)%float) /\
  aggregator s' = aggregator s /\ cutGen s' = cutGen s /\
  exists bs, trace s' = map EvBit bs ++ trace s.
Proof.
  intros H. apply scanArcRows_inv in H.
  destruct H as (Ha & Hc & Hnone & Hsome & Hbits).
  assert (Hchosen : ac_row ch <> -1 ->
            exists k coef dual,
              lo <= k < hi /\
              vget name arcRows k = Ok (ac_row ch, coef) /\
              vget "row_dual" (row_dual lpSolution) (ac_row ch) = Ok dual /\
              ac_weight ch = (- colVal / coef)%float /\
              checkWeight (ac_weight ch) = true /\
              ac_score ch = abs (ac_weight ch * dual)%float).
  { intros Hne. destruct (Hsome Hne) as (k & coef & dual & Hk & Hrest).
    exists k, coef, dual. split; [lia|exact Hrest]. }
  split; [split|].
  - intros Hrow k r coef Hk. destruct (Hnone Hrow) as (_ & _ & Hrej).
    apply Hrej. lia.
  - intros Hall. destruct (Z.eq_dec (ac_row ch) (-1)) as [Heq|Hne]; [exact Heq|].
    destruct (Hchosen Hne) as (k & coef & dual & Hk & Hget & _ & Hw & Hcheck & _).
    rewrite Hw in Hcheck. rewrite (Hall k _ coef Hk Hget) in Hcheck. discriminate.
  - split; [|split; [exact Hchosen|auto]].
    intros Hrow. destruct (Hnone Hrow) as (Ht & Hr & _).
    destruct s', s. simpl in *. congruence.
Qed.

End ArcScanChoice.

Lemma arc_scan_choice_witness :
  (ac_row (mkArcChoice 0 (-1)%float 1%float) = -1 <->
   forall k r coef, 0 <= k < 2 -> vget "inArcRows" (inArcRows adjC) k = Ok (r, coef) ->
     @checkWeight relaxC (- 1 / coef)%float = false) /\
  (ac_row (mkArcChoice 0 (-1)%float 1%float) = -1 ->
   mkSepState ([] : list (Z * double)) ([] : list bool) 0 [EvBit true] =
   mkSepState [] [] 1 []) /\
  (ac_row (mkArcChoice 0 (-1)%float 1%float) <> -1 ->
   exists k coef dual,
     0 <= k < 2 /\
     vget "inArcRows" (inArcRows adjC) k = Ok (0, coef) /\
     vget "row_dual" (row_dual (@lpSolution relaxC)) 0 = Ok dual /\
     (-1)%float = (- 1 / coef)%float /\
     @checkWeight relaxC (-1)%float = true /\
     1%float = abs (-1 * dual)%float) /\
  ([] : list (Z * double)) = [] /\ ([] : list bool) = [] /\
  exists bs, [EvBit true] = map EvBit bs ++ [].
Proof.
  apply (@arc_scan_choice relaxC _ _ _ ParityBits "inArcRows"%string (inArcRows adjC) 0 2
           1%float (mkSepState [] [] 1 []) (mkSepState [] [] 0 [EvBit true])
           (mkArcChoice 0 (-1)%float 1%float)).
  vm_compute. reflexivity.
Defined.

(* ================================================================== *)
(** ** The choice of the candidate columns (lines 194-234) *)
(* ================================================================== *)

Lemma compare_cont_Eq (p q : positive) : Pos.compare_cont Eq p q = (p ?= q)%positive.
Proof. reflexivity. Qed.

Lemma SFcompare_Lt_trans (x y z : spec_float) :
  SFcompare x y = Some Lt -> SFcompare y z = Some Lt -> SFcompare x z = Some Lt.
Proof.
  destruct x as [sx|sx| |sx mx ex], y as [sy|sy| |sy my ey], z as [sz|sz| |sz mz ez];
    simpl; try destruct sx; try destruct sy; try destruct sz;
    intros H1 H2; try discriminate H1; try discriminate H2; try reflexivity;
    injection H1 as H1; injection H2 as H2; f_equal;
    rewrite ?compare_cont_Eq in *;
    destruct (Z.compare_spec ex ey), (Z.compare_spec ey ez), (Z.compare_spec ex ez);
    try discriminate H1; try discriminate H2; try reflexivity; try lia;
    destruct (Pos.compare_spec mx my), (Pos.compare_spec my mz), (Pos.compare_spec mx mz);
    simpl in *; try discriminate H1; try discriminate H2; try reflexivity; lia.
Qed.

Lemma flt_trans (x y z : double) : flt x y = true -> flt y z = true -> flt x z = true.
Proof.
  unfold flt. rewrite !ltb_spec. unfold SFltb.
  destruct (SFcompare (Prim2SF x) (Prim2SF y)) as [[| |]|] eqn:E1; try discriminate.
  destruct (SFcompare (Prim2SF y) (Prim2SF z)) as [[| |]|] eqn:E2; try discriminate.
  rewrite (SFcompare_Lt_trans _ _ _ E1 E2). reflexivity.
Qed.

(** A value that does not exceed [b] does not exceed a larger [b'] either;
    this holds for every double, the ones that are not numbers included. *)
Lemma fgt_not_exceeded (x b b' : double) :
  fgt x b = false -> fgt b' b = true -> fgt x b' = false.
Proof.
  unfold fgt. intros Hx Hb. destruct (PrimFloat.ltb b' x) eqn:E; [|reflexivity].
  pose proof (flt_trans b b' x Hb E) as Ht. unfold flt in Ht. congruence.
Qed.

Section CandidateScan.
Context {R : Relaxation}.
Context {Agg Cut Rng : Type}.
Context {AggOps : LpAggregator Agg} {CutOps : CutGeneration Cut} {RngOps : Random Rng}.

Abbreviation State := (SepState Agg Cut Rng).
Abbreviation Scan := (@ScanState Agg Cut Rng).

(** The outcomes of the body of the scan loop for one entry. *)
Lemma scanEntry_cases (adj : Adjacency) (inds : list Z) (vals : list double) (j : Z)
    (sc sc' : Scan) :
  scanEntry adj inds vals j sc = Ok sc' ->
  exists col,
    vget "baseRowInds" inds j = Ok col /\
    ((scanned col = false /\ sc' = sc) \/
     (scanned col = true /\
      exists row piv,
        vget "colSubstitutions" (colSubstitutions adj) col = Ok (row, piv) /\
        ((row <> -1 /\
          exists v, vget "baseRowVals" vals j = Ok v /\
            sc' = mkScanState
                    (doAddRow SubstitutionRow row (- v / piv)%float (sc_state sc))
                    true (sc_cands sc)) \/
         (row = -1 /\ addedSubstitutionRows sc = true /\ sc' = sc) \/
         (row = -1 /\ addedSubstitutionRows sc = false /\
          exists v, vget "baseRowVals" vals j = Ok v /\
            let c := sc_cands sc in
            ((flt v 0%float = true /\
              exists lo hi,
                vget "colInArcs" (colInArcs adj) col = Ok (lo, hi) /\
                ((lo = hi /\ sc' = sc) \/
                 (lo <> hi /\
                  (bestOutArcCol c = -1 \/
                   fgt (boundDistance col) (outArcColBoundDist c) = true) /\
                  sc' = mkScanState (sc_state sc) false
                          (mkCandidates col v (boundDistance col)
                             (bestInArcCol c) (inArcColVal c) (inArcColBoundDist c))) \/
                 (lo <> hi /\ bestOutArcCol c <> -1 /\
                  fgt (boundDistance col) (outArcColBoundDist c) = false /\
                  sc' = sc))) \/
             (flt v 0%float = false /\
              exists lo hi,
                vget "colOutArcs" (colOutArcs adj) col = Ok (lo, hi) /\
                ((lo = hi /\ sc' = sc) \/
                 (lo <> hi /\
                  (bestInArcCol c = -1 \/
                   fgt (boundDistance col) (inArcColBoundDist c) = true) /\
                  sc' = mkScanState (sc_state sc) false
                          (mkCandidates (bestOutArcCol c) (outArcColVal c)
                             (outArcColBoundDist c) col v (boundDistance col))) \/
                 (lo <> hi /\ bestInArcCol c <> -1 /\
                  fgt (boundDistance col) (inArcColBoundDist c) = false /\
                  sc' = sc)))))))).
Proof.
  intros H. unfold scanEntry in H. inv_bind H. rename x into col.
  exists col. split; [exact Hx|]. unfold scanned.
  destruct ((col >=? num_col_ lp) || atBound col || isColIntegral col); simpl in H |- *.
  { injection H as <-. left. auto. }
  right. split; [reflexivity|]. inv_bind H. destruct x as [row piv]. simpl in H.
  exists row, piv. split; [exact Hx0|].
  destruct (row =? -1) eqn:Erow; simpl in H.
  2:{ apply Z.eqb_neq in Erow. left. split; [exact Erow|]. inv_bind H.
      injection H as <-. eauto. }
  apply Z.eqb_eq in Erow. right.
  destruct (addedSubstitutionRows sc) eqn:Eflag.
  { injection H as <-. left. auto. }
  right. split; [exact Erow|]. split; [reflexivity|].
  inv_bind H. rename x into v. exists v. split; [exact Hx1|]. cbv zeta in H |- *.
  destruct (flt v 0%float); [left|right]; (split; [reflexivity|]);
    inv_bind H; destruct x as [lo hi]; simpl in H; exists lo, hi; (split; [assumption|]);
    (destruct (lo =? hi) eqn:Earc;
       [apply Z.eqb_eq in Earc; injection H as <-; left; auto|apply Z.eqb_neq in Earc]).
  - destruct (bestOutArcCol (sc_cands sc) =? -1) eqn:Eb; simpl in H.
    + apply Z.eqb_eq in Eb. injection H as <-. right. left. auto.
    + apply Z.eqb_neq in Eb.
      destruct (fgt (boundDistance col) (outArcColBoundDist (sc_cands sc))) eqn:Ed;
        injection H as <-; right; [left|right]; auto.
  - destruct (bestInArcCol (sc_cands sc) =? -1) eqn:Eb; simpl in H.
    + apply Z.eqb_eq in Eb. injection H as <-. right. left. auto.
    + apply Z.eqb_neq in Eb.
      destruct (fgt (boundDistance col) (inArcColBoundDist (sc_cands sc))) eqn:Ed;
        injection H as <-; right; [left|right]; auto.
Qed.

Lemma fgt_irrefl (x : double) : fgt x x = false.
Proof.
  unfold fgt. rewrite ltb_spec. unfold SFltb.
  destruct (Prim2SF x) as [sx|sx| |sx mx ex]; simpl; try destruct sx; try reflexivity;
    rewrite Z.compare_refl, compare_cont_Eq, Pos.compare_refl; reflexivity.
Qed.

Lemma entryBefore_last (inds : list Z) (vals : list double) (p j col : Z) (v : double) :
  entryBefore inds vals (p + 1) j col v ->
  entryBefore inds vals p j col v \/
  (j = p /\ vget "baseRowInds" inds p = Ok col /\ vget "baseRowVals" vals p = Ok v).
Proof.
  intros (Hj & Hi & Hv). destruct (Z.eq_dec j p) as [->|Hne].
  - right. auto.
  - left. split; [lia|auto].
Qed.

Lemma entryBefore_widen (inds : list Z) (vals : list double) (p j col : Z) (v : double) :
  entryBefore inds vals p j col v -> entryBefore inds vals (p + 1) j col v.
Proof. intros (Hj & Hi & Hv). split; [lia|auto]. Qed.

(** The next entry is not acceptable: the candidate stays the right one. *)
Lemma outBest_skip (adj : Adjacency) (inds : list Z) (vals : list double) (p : Z)
    (c c' : Candidates) :
  bestOutArcCol c' = bestOutArcCol c -> outArcColVal c' = outArcColVal c ->
  outArcColBoundDist c' = outArcColBoundDist c ->
  (forall col v, vget "baseRowInds" inds p = Ok col -> vget "baseRowVals" vals p = Ok v ->
     ~ outEntry adj col v) ->
  outBest adj inds vals p c -> outBest adj inds vals (p + 1) c'.
Proof.
  intros E1 E2 E3 Hnot (Hnone & Hsome & Hmax). unfold outBest. rewrite E1, E2, E3.
  split; [|split].
  - intros Hb j col v He. destruct (entryBefore_last _ _ _ _ _ _ He) as [Hold|(_ & Hi & Hv)].
    + exact (Hnone Hb j col v Hold).
    + exact (Hnot col v Hi Hv).
  - intros Hb. destruct (Hsome Hb) as ((j & He) & Hrest).
    split; [exists j; apply entryBefore_widen; exact He|exact Hrest].
  - intros j col v He Hout.
    destruct (entryBefore_last _ _ _ _ _ _ He) as [Hold|(_ & Hi & Hv)].
    + exact (Hmax j col v Hold Hout).
    + destruct (Hnot col v Hi Hv Hout).
Qed.

(** The next entry is acceptable but does not beat the candidate. *)
Lemma outBest_keep (adj : Adjacency) (inds : list Z) (vals : list double) (p col : Z)
    (c : Candidates) :
  vget "baseRowInds" inds p = Ok col ->
  bestOutArcCol c <> -1 ->
  fgt (boundDistance col) (outArcColBoundDist c) = false ->
  outBest adj inds vals p c -> outBest adj inds vals (p + 1) c.
Proof.
  intros Hi Hb Hd (Hnone & Hsome & Hmax). split; [|split].
  - intros Hb'. contradiction.
  - intros _. destruct (Hsome Hb) as ((j & He) & Hrest).
    split; [exists j; apply entryBefore_widen; exact He|exact Hrest].
  - intros j col' v He Hout.
    destruct (entryBefore_last _ _ _ _ _ _ He) as [Hold|(_ & Hi' & Hv)].
    + exact (Hmax j col' v Hold Hout).
    + rewrite Hi in Hi'. injection Hi' as <-. exact Hd.
Qed.

(** The next entry is acceptable and becomes the candidate. *)
Lemma outBest_take (adj : Adjacency) (inds : list Z) (vals : list double) (p col : Z)
    (v : double) (c c' : Candidates) :
  0 <= p ->
  vget "baseRowInds" inds p = Ok col -> vget "baseRowVals" vals p = Ok v ->
  outEntry adj col v ->
  bestOutArcCol c = -1 \/ fgt (boundDistance col) (outArcColBoundDist c) = true ->
  bestOutArcCol c' = col -> outArcColVal c' = v ->
  outArcColBoundDist c' = boundDistance col ->
  outBest adj inds vals p c -> outBest adj inds vals (p + 1) c'.
Proof.
  intros Hp Hi Hv Hout Hbeat E1 E2 E3 (Hnone & Hsome & Hmax).
  unfold outBest. rewrite E1, E2, E3.
  assert (Hcol : col <> -1).
  { destruct Hout as (_ & (piv & Hs) & _). apply vget_range in Hs. lia. }
  split; [|split].
  - intros Hb. contradiction.
  - intros _. split; [|auto]. exists p. split; [lia|auto].
  - intros j col' v' He Hout'.
    destruct (entryBefore_last _ _ _ _ _ _ He) as [Hold|(_ & Hi' & Hv')].
    + destruct Hbeat as [Hb|Hd].
      * destruct (Hnone Hb j col' v' Hold Hout').
      * exact (fgt_not_exceeded _ _ _ (Hmax j col' v' Hold Hout') Hd).
    + rewrite Hi in Hi'. injection Hi' as <-. apply fgt_irrefl.
Qed.

Lemma inBest_skip (adj : Adjacency) (inds : list Z) (vals : list double) (p : Z)
    (c c' : Candidates) :
  bestInArcCol c' = bestInArcCol c -> inArcColVal c' = inArcColVal c ->
  inArcColBoundDist c' = inArcColBoundDist c ->
  (forall col v, vget "baseRowInds" inds p = Ok col -> vget "baseRowVals" vals p = Ok v ->
     ~ inEntry adj col v) ->
  inBest adj inds vals p c -> inBest adj inds vals (p + 1) c'.
Proof.
  intros E1 E2 E3 Hnot (Hnone & Hsome & Hmax). unfold inBest. rewrite E1, E2, E3.
  split; [|split].
  - intros Hb j col v He. destruct (entryBefore_last _ _ _ _ _ _ He) as [Hold|(_ & Hi & Hv)].
    + exact (Hnone Hb j col v Hold).
    + exact (Hnot col v Hi Hv).
  - intros Hb. destruct (Hsome Hb) as ((j & He) & Hrest).
    split; [exists j; apply entryBefore_widen; exact He|exact Hrest].
  - intros j col v He Hin.
    destruct (entryBefore_last _ _ _ _ _ _ He) as [Hold|(_ & Hi & Hv)].
    + exact (Hmax j col v Hold Hin).
    + destruct (Hnot col v Hi Hv Hin).
Qed.

Lemma inBest_keep (adj : Adjacency) (inds : list Z) (vals : list double) (p col : Z)
    (c : Candidates) :
  vget "baseRowInds" inds p = Ok col ->
  bestInArcCol c <> -1 ->
  fgt (boundDistance col) (inArcColBoundDist c) = false ->
  inBest adj inds vals p c -> inBest adj inds vals (p + 1) c.
Proof.
  intros Hi Hb Hd (Hnone & Hsome & Hmax). split; [|split].
  - intros Hb'. contradiction.
  - intros _. destruct (Hsome Hb) as ((j & He) & Hrest).
    split; [exists j; apply entryBefore_widen; exact He|exact Hrest].
  - intros j col' v He Hin.
    destruct (entryBefore_last _ _ _ _ _ _ He) as [Hold|(_ & Hi' & Hv)].
    + exact (Hmax j col' v Hold Hin).
    + rewrite Hi in Hi'. injection Hi' as <-. exact Hd.
Qed.

Lemma inBest_take (adj : Adjacency) (inds : list Z) (vals : list double) (p col : Z)
    (v : double) (c c' : Candidates) :
  0 <= p ->
  vget "baseRowInds" inds p = Ok col -> vget "baseRowVals" vals p = Ok v ->
  inEntry adj col v ->
  bestInArcCol c = -1 \/ fgt (boundDistance col) (inArcColBoundDist c) = true ->
  bestInArcCol c' = col -> inArcColVal c' = v ->
  inArcColBoundDist c' = boundDistance col ->
  inBest adj inds vals p c -> inBest adj inds vals (p + 1) c'.
Proof.
  intros Hp Hi Hv Hin Hbeat E1 E2 E3 (Hnone & Hsome & Hmax).
  unfold inBest. rewrite E1, E2, E3.
  assert (Hcol : col <> -1).
  { destruct Hin as (_ & (piv & Hs) & _). apply vget_range in Hs. lia. }
  split; [|split].
  - intros Hb. contradiction.
  - intros _. split; [|auto]. exists p. split; [lia|auto].
  - intros j col' v' He Hin'.
    destruct (entryBefore_last _ _ _ _ _ _ He) as [Hold|(_ & Hi' & Hv')].
    + destruct Hbeat as [Hb|Hd].
      * destruct (Hnone Hb j col' v' Hold Hin').
      * exact (fgt_not_exceeded _ _ _ (Hmax j col' v' Hold Hin') Hd).
    + rewrite Hi in Hi'. injection Hi' as <-. apply fgt_irrefl.
Qed.

Lemma noSubstitutionBefore_step (adj : Adjacency) (inds : list Z) (p : Z) :
  (forall col, vget "baseRowInds" inds p = Ok col -> scanned col = true ->
     exists piv, vget "colSubstitutions" (colSubstitutions adj) col = Ok (-1, piv)) ->
  noSubstitutionBefore adj inds p -> noSubstitutionBefore adj inds (p + 1).
Proof.
  intros Hnew Hold j col Hj Hi Hs. destruct (Z.eq_dec j p) as [->|Hne].
  - exact (Hnew col Hi Hs).
  - apply (Hold j col); [lia|exact Hi|exact Hs].
Qed.

End CandidateScan.

Section CandidateChoice.
Context {R : Relaxation}.
Context {Agg Cut Rng : Type}.
Context {AggOps : LpAggregator Agg} {CutOps : CutGeneration Cut} {RngOps : Random Rng}.

Lemma candInv_step (adj : Adjacency) (inds : list Z) (vals : list double)
    (s1 : SepState Agg Cut Rng) (p : Z) (sc sc' : @ScanState Agg Cut Rng) :
  0 <= p ->
  candInv adj inds vals s1 p sc ->
  scanEntry adj inds vals p sc = Ok sc' ->
  candInv adj inds vals s1 (p + 1) sc'.
Proof.
  intros Hp Hinv Hstep Hflag.
  destruct (scanEntry_cases _ _ _ _ _ _ Hstep) as (col & Hi & Hcase).
  destruct Hcase as [(Hskip & ->)|(Hsc & row & piv & Hsub & Hcase)].
  { destruct (Hinv Hflag) as (Hs & Hout & Hin & Hno).
    split; [exact Hs|]. split; [|split].
    - apply (outBest_skip adj inds vals p (sc_cands sc)); auto.
      intros col' v Hi' _ (Hs' & _). rewrite Hi in Hi'. injection Hi' as <-. congruence.
    - apply (inBest_skip adj inds vals p (sc_cands sc)); auto.
      intros col' v Hi' _ (Hs' & _). rewrite Hi in Hi'. injection Hi' as <-. congruence.
    - apply noSubstitutionBefore_step; [|exact Hno].
      intros col' Hi' Hs'. rewrite Hi in Hi'. injection Hi' as <-. congruence. }
  destruct Hcase as [(_ & v & _ & ->)|[(_ & Hf & ->)|(-> & Hf & v & Hv & Hcase)]].
  { simpl in Hflag. discriminate. }
  { congruence. }
  cbv zeta in Hcase.
  assert (Hnosub : noSubstitutionBefore adj inds p ->
                   noSubstitutionBefore adj inds (p + 1)).
  { apply noSubstitutionBefore_step. intros col' Hi' _.
    rewrite Hi in Hi'. injection Hi' as <-. eauto. }
  destruct (Hinv Hf) as (Hs & Hout & Hin & Hno).
  assert (Hsame : forall col' v', vget "baseRowInds" inds p = Ok col' ->
            vget "baseRowVals" vals p = Ok v' -> col' = col /\ v' = v).
  { intros col' v' Hi' Hv'. rewrite Hi in Hi'. rewrite Hv in Hv'.
    injection Hi' as <-. injection Hv' as <-. auto. }
  destruct Hcase as [(Hneg & lo & hi & Harcs & Hcase)|(Hneg & lo & hi & Harcs & Hcase)].
  - assert (Hnotin : forall col' v', vget "baseRowInds" inds p = Ok col' ->
              vget "baseRowVals" vals p = Ok v' -> ~ inEntry adj col' v').
    { intros col' v' Hi' Hv' (_ & _ & Hnn & _).
      destruct (Hsame _ _ Hi' Hv') as [-> ->]. congruence. }
    destruct Hcase as [(-> & ->)|[(Hne & Hbeat & ->)|(Hne & Hb & Hd & ->)]].
    + split; [exact Hs|]. split; [|split; [|auto]].
      * apply (outBest_skip adj inds vals p (sc_cands sc)); auto.
        intros col' v' Hi' Hv' (_ & _ & _ & lo' & hi' & Ha & Hne).
        destruct (Hsame _ _ Hi' Hv') as [-> ->]. rewrite Harcs in Ha.
        injection Ha as <- <-. apply Hne. reflexivity.
      * apply (inBest_skip adj inds vals p (sc_cands sc)); auto.
    + simpl. split; [exact Hs|]. split; [|split; [|auto]].
      * apply (outBest_take adj inds vals p col v (sc_cands sc)); auto.
        split; [exact Hsc|]. split; [eauto|]. split; [exact Hneg|eauto].
      * apply (inBest_skip adj inds vals p (sc_cands sc)); auto.
    + split; [exact Hs|]. split; [|split; [|auto]].
      * apply (outBest_keep adj inds vals p col (sc_cands sc)); auto.
      * apply (inBest_skip adj inds vals p (sc_cands sc)); auto.
  - assert (Hnotout : forall col' v', vget "baseRowInds" inds p = Ok col' ->
              vget "baseRowVals" vals p = Ok v' -> ~ outEntry adj col' v').
    { intros col' v' Hi' Hv' (_ & _ & Hnn & _).
      destruct (Hsame _ _ Hi' Hv') as [-> ->]. congruence. }
    destruct Hcase as [(-> & ->)|[(Hne & Hbeat & ->)|(Hne & Hb & Hd & ->)]].
    + split; [exact Hs|]. split; [|split; [|auto]].
      * apply (outBest_skip adj inds vals p (sc_cands sc)); auto.
      * apply (inBest_skip adj inds vals p (sc_cands sc)); auto.
        intros col' v' Hi' Hv' (_ & _ & _ & lo' & hi' & Ha & Hne).
        destruct (Hsame _ _ Hi' Hv') as [-> ->]. rewrite Harcs in Ha.
        injection Ha as <- <-. apply Hne. reflexivity.
    + simpl. split; [exact Hs|]. split; [|split; [|auto]].
      * apply (outBest_skip adj inds vals p (sc_cands sc)); auto.
      * apply (inBest_take adj inds vals p col v (sc_cands sc)); auto.
        split; [exact Hsc|]. split; [eauto|]. split; [exact Hneg|eauto].
    + split; [exact Hs|]. split; [|split; [|auto]].
      * apply (outBest_skip adj inds vals p (sc_cands sc)); auto.
      * apply (inBest_keep adj inds vals p col (sc_cands sc)); auto.
Qed.

Lemma candInv_start (adj : Adjacency) (inds : list Z) (vals : list double)
    (s1 : SepState Agg Cut Rng) :
  candInv adj inds vals s1 0 (mkScanState s1 false noCandidates).
Proof.
  intros _. simpl. split; [reflexivity|].
  split; [|split].
  - split; [|split].
    + intros _ j col v (Hj & _). lia.
    + simpl. intros Hne. congruence.
    + intros j col v (Hj & _). lia.
  - split; [|split].
    + intros _ j col v (Hj & _). lia.
    + simpl. intros Hne. congruence.
    + intros j col v (Hj & _). lia.
  - intros j col Hj. lia.
Qed.

Lemma scanBaseRow_candInv (adj : Adjacency) (s : SepState Agg Cut Rng)
    (inds : list Z) (vals : list double) (sc : @ScanState Agg Cut Rng) :
  scanBaseRow adj s = Ok (inds, vals, sc) ->
  fst (doGetAggregation false s) = (inds, vals) /\
  candInv adj inds vals (snd (doGetAggregation false s)) (vsize inds) sc.
Proof.
  intros H. unfold scanBaseRow in H.
  destruct (doGetAggregation false s) as [[inds0 vals0] s1] eqn:Eagg.
  inv_bind H. injection H as <- <- <-. split; [reflexivity|]. simpl snd.
  refine (proj2 (forNe_inv (candInv adj inds0 vals0 s1) _ 0 (vsize inds0) _ _
                   (candInv_start adj inds0 vals0 s1) _ Hx)).
  intros i t t' Hi Ht Hb. apply (candInv_step adj inds0 vals0 s1 i t t'); auto. lia.
Qed.

(** X4. The choice of the two candidate columns by the scan of the
    aggregated row (lines 190-234). When the scan ends without having folded
    in a substitution row, the state is still the one the aggregation was
    read in and no scanned entry has a recorded substitution; the out-arc
    candidate is [-1] exactly when no entry of the row is acceptable
    (structural column, off its bound, not integral, negative coefficient,
    non-empty in-arc range), otherwise it is an acceptable entry recorded
    with its coefficient and its bound distance, and no acceptable entry has
    a bound distance above the recorded one; the same holds for the in-arc
    candidate with a coefficient that is not negative and the out-arc
    range. *)
Theorem candidates_are_best (adj : Adjacency) (s : SepState Agg Cut Rng)
    (inds : list Z) (vals : list double) (sc : @ScanState Agg Cut Rng) :
  scanBaseRow adj s = Ok (inds, vals, sc) ->
  addedSubstitutionRows sc = false ->
  doGetAggregation false s = (inds, vals, sc_state sc) /\
  outBest adj inds vals (vsize inds) (sc_cands sc) /\
  inBest adj inds vals (vsize inds) (sc_cands sc) /\
  noSubstitutionBefore adj inds (vsize inds).
Proof.
  intros H Hflag. destruct (scanBaseRow_candInv adj s inds vals sc H) as [Hread Hinv].
  destruct (Hinv Hflag) as (Hs & Hout & Hin & Hno).
  split; [|auto].
  destruct (doGetAggregation false s) as [[inds0 vals0] s1].
  simpl in Hread, Hs. injection Hread as -> ->. rewrite Hs. reflexivity.
Qed.

End CandidateChoice.

Lemma candidates_are_best_witness :
  @doGetAggregation _ _ _ (SumAggregator rowsC) false (seedC 0 []) =
    ([0; 1], [(-1e7)%float; 1%float], seedC 0 []) /\
  @outBest relaxC adjC [0; 1] [(-1e7)%float; 1%float] (vsize [0; 1]) candsC0 /\
  @inBest relaxC adjC [0; 1] [(-1e7)%float; 1%float] (vsize [0; 1]) candsC0 /\
  @noSubstitutionBefore relaxC adjC [0; 1] (vsize [0; 1]).
Proof.
  apply (@candidates_are_best relaxC _ _ _ (SumAggregator rowsC)
           adjC (seedC 0 []) [0; 1] [(-1e7)%float; 1%float]
           (mkScanState (seedC 0 []) false candsC0)).
  - vm_compute. reflexivity.
  - reflexivity.
Defined.

Section SubstitutionFolding.
Context {R : Relaxation}.
Context {Agg Cut Rng : Type}.
Context {AggOps : LpAggregator Agg} {CutOps : CutGeneration Cut} {RngOps : Random Rng}.

Lemma substitutionFolds_next (adj : Adjacency) (inds : list Z) (vals : list double)
    (p : Z) :
  0 <= p ->
  substitutionFolds adj inds vals (p + 1) =
  substitutionFolds adj inds vals p ++ substitutionFold adj inds vals p.
Proof.
  intros Hp. unfold substitutionFolds. rewrite (zrange_snoc 0 p) by lia.
  rewrite flat_map_app. simpl. rewrite app_nil_r. reflexivity.
Qed.

Lemma foldSubstitutions_app (xs ys : list (Z * double)) (s : SepState Agg Cut Rng) :
  foldSubstitutions (xs ++ ys) s = foldSubstitutions ys (foldSubstitutions xs s).
Proof. unfold foldSubstitutions. apply fold_left_app. Qed.

Lemma folds_step (adj : Adjacency) (inds : list Z) (vals : list double)
    (s1 : SepState Agg Cut Rng) (p : Z) (sc sc' : @ScanState Agg Cut Rng) :
  0 <= p ->
  foldsInv adj inds vals s1 p sc ->
  scanEntry adj inds vals p sc = Ok sc' ->
  foldsInv adj inds vals s1 (p + 1) sc'.
Proof.
  intros Hp [Hs Hflag] Hstep. unfold foldsInv.
  rewrite substitutionFolds_next by exact Hp. rewrite foldSubstitutions_app, <- Hs.
  destruct (scanEntry_cases _ _ _ _ _ _ Hstep) as (col & Hi & Hcase).
  unfold substitutionFold. rewrite Hi.
  assert (Hold : addedSubstitutionRows sc = true ->
            exists j col row piv,
              0 <= j < p + 1 /\ vget "baseRowInds" inds j = Ok col /\
              scanned col = true /\
              vget "colSubstitutions" (colSubstitutions adj) col = Ok (row, piv) /\
              row <> -1).
  { intros Hf. destruct (proj1 Hflag Hf) as (j & c & r & pv & Hj & Hrest).
    exists j, c, r, pv. split; [lia|exact Hrest]. }
  assert (Hnew :
            (exists j col row piv,
               0 <= j < p + 1 /\ vget "baseRowInds" inds j = Ok col /\
               scanned col = true /\
               vget "colSubstitutions" (colSubstitutions adj) col = Ok (row, piv) /\
               row <> -1) ->
            (scanned col = true ->
             exists piv, vget "colSubstitutions" (colSubstitutions adj) col = Ok (-1, piv)) ->
            addedSubstitutionRows sc = true).
  { intros (j & c & r & pv & Hj & Hi' & Hsc' & Hs' & Hr) Hnone.
    apply (proj2 Hflag). destruct (Z.eq_dec j p) as [->|Hne].
    - rewrite Hi in Hi'. injection Hi' as <-. destruct (Hnone Hsc') as (pv' & Hs'').
      rewrite Hs' in Hs''. injection Hs'' as -> _. destruct Hr. reflexivity.
    - exists j, c, r, pv. split; [lia|auto]. }
  destruct Hcase as [(Hskip & ->)|(Hsc & row & piv & Hsub & Hcase)].
  { rewrite Hskip. split; [reflexivity|]. split; [exact Hold|].
    intros He. apply (Hnew He). intros Hsc'. congruence. }
  rewrite Hsc, Hsub.
  destruct Hcase as [(Hrow & v & Hv & ->)|[(-> & Hf0 & ->)|(-> & Hf0 & v & Hv & Hcase)]].
  - pose proof Hrow as Hrow'. apply Z.eqb_neq in Hrow'. rewrite Hrow', Hv. simpl.
    split; [reflexivity|]. split; [|reflexivity]. intros _.
    exists p, col, row, piv. split; [lia|auto].
  - simpl. split; [reflexivity|]. split; [exact Hold|]. auto.
  - simpl. cbv zeta in Hcase.
    assert (Hsame : sc_state sc' = sc_state sc /\
                    addedSubstitutionRows sc' = addedSubstitutionRows sc).
    { destruct Hcase as [(_ & lo & hi & _ & Hc)|(_ & lo & hi & _ & Hc)];
        destruct Hc as [(_ & ->)|[(_ & _ & ->)|(_ & _ & _ & ->)]]; simpl; auto. }
    destruct Hsame as [-> ->]. split; [reflexivity|]. split; [exact Hold|].
    intros He. apply (Hnew He). intros _. eauto.
Qed.

(** X5. The substitution rows folded in by the scan of the aggregated row
    (lines 202-234). The scan adds to the aggregation exactly one row for
    each scanned entry (structural column, off its bound, not integral)
    whose column has a recorded substitution, in the order of the entries
    and also after the first of them, each as row [colSubstitutions[col].first]
    with weight [-baseRowVals[j] / colSubstitutions[col].second]; it changes
    the state in no other way, and [addedSubstitutionRows] is set exactly
    when there is such an entry. *)
Theorem scan_folds_substitutions (adj : Adjacency) (s : SepState Agg Cut Rng)
    (inds : list Z) (vals : list double) (sc : @ScanState Agg Cut Rng) :
  scanBaseRow adj s = Ok (inds, vals, sc) ->
  fst (doGetAggregation false s) = (inds, vals) /\
  sc_state sc =
    foldSubstitutions (substitutionFolds adj inds vals (vsize inds))
      (snd (doGetAggregation false s)) /\
  (addedSubstitutionRows sc = true <->
   exists j col row piv,
     0 <= j < vsize inds /\ vget "baseRowInds" inds j = Ok col /\ scanned col = true /\
     vget "colSubstitutions" (colSubstitutions adj) col = Ok (row, piv) /\ row <> -1).
Proof.
  intros H. unfold scanBaseRow in H.
  destruct (doGetAggregation false s) as [[inds0 vals0] s1] eqn:Eagg.
  inv_bind H. injection H as <- <- <-. simpl fst. simpl snd.
  split; [reflexivity|].
  refine (proj2 (forNe_inv (foldsInv adj inds0 vals0 s1) _ 0 (vsize inds0) _ _ _ _ Hx)).
  - split; [reflexivity|]. simpl. split; [discriminate|].
    intros (j & _ & _ & _ & Hj & _). lia.
  - intros i t t' Hi Ht Hb. apply (folds_step adj inds0 vals0 s1 i t t'); auto. lia.
Qed.

End SubstitutionFolding.

Lemma scan_folds_substitutions_witness :
  fst (@doGetAggregation _ _ _ (SumAggregator rowsB) false (seedB 1 [])) =
    ([0; 2], [3%float; 1%float]) /\
  @doAddRow _ _ _ (SumAggregator rowsB) SubstitutionRow 0 (-3)%float (seedB 1 []) =
    @foldSubstitutions _ _ _ (SumAggregator rowsB)
      (@substitutionFolds relaxB adjB [0; 2] [3%float; 1%float] (vsize [0; 2]))
      (snd (@doGetAggregation _ _ _ (SumAggregator rowsB) false (seedB 1 []))) /\
  (true = true <->
   exists j col row piv,
     0 <= j < vsize [0; 2] /\ vget "baseRowInds" [0; 2] j = Ok col /\
     @scanned relaxB col = true /\
     vget "colSubstitutions" (colSubstitutions adjB) col = Ok (row, piv) /\ row <> -1).
Proof.
  apply (@scan_folds_substitutions relaxB _ _ _ (SumAggregator rowsB) adjB (seedB 1 [])
           [0; 2] [3%float; 1%float]
           (mkScanState
              (@doAddRow _ _ _ (SumAggregator rowsB) SubstitutionRow 0 (-3)%float
                 (seedB 1 []))
              true noCandidates)).
  vm_compute. reflexivity.
Defined.

(* ================================================================== *)
(** ** The roles of the rows folded into an aggregation *)
(* ================================================================== *)

Lemma vget_In {A} (name : string) (v : list A) (i : Z) (x : A) :
  vget name v i = Ok x -> In x v.
Proof. intros H. apply vget_Ok in H. destruct H as [_ H]. exact (nth_error_In _ _ H). Qed.

Lemma In_vget {A} (name : string) (v : list A) (x : A) :
  In x v -> exists i, vget name v i = Ok x.
Proof.
  intros H. apply In_nth_error in H. destruct H as [n Hn].
  exists (Z.of_nat n). apply vget_Ok. split; [lia|]. rewrite Nat2Z.id. exact Hn.
Qed.

Lemma foldM_inv {X S} (I : S -> Prop) (body : X -> S -> res S) (xs : list X) :
  (forall x s s', In x xs -> I s -> body x s = Ok s' -> I s') ->
  forall s s', I s -> foldM body xs s = Ok s' -> I s'.
Proof.
  induction xs as [|x xs IH]; intros Hstep s s' HI H; simpl in H.
  - injection H as <-. exact HI.
  - inv_bind H. apply (IH (fun y t t' Hy => Hstep y t t' (or_intror Hy)) x0 s'); auto.
    apply (Hstep x s x0); auto. left. reflexivity.
Qed.

Section ArcRowsUsable.
Context {R : Relaxation}.
Variable rt : list RowType.
Variable subst : list (Z * double).

Lemma arcEntry_usable (p : Z) (t t' : ArcTables) :
  arcRowsUsable rt t -> arcEntry rt p t = Ok t' -> arcRowsUsable rt t'.
Proof.
  intros [Hi Ho] H. unfold arcEntry in H. inv_bind H. rename x into r.
  inv_bind H. rename x into k.
  assert (Hu : k <> kUnusuable -> usable rt r) by (intros Hk; exists k; auto).
  destruct k.
  - injection H as <-. split; assumption.
  - inv_bind H. destruct (isInArc kGeq x); injection H as <-; split; simpl; auto;
      apply Forall_app; split; auto; constructor; auto; apply Hu; discriminate.
  - inv_bind H. destruct (isInArc kEq x); injection H as <-; split; simpl; auto;
      apply Forall_app; split; auto; constructor; auto; apply Hu; discriminate.
  - inv_bind H. destruct (isInArc kLeq x); injection H as <-; split; simpl; auto;
      apply Forall_app; split; auto; constructor; auto; apply Hu; discriminate.
Qed.

Lemma arcColumn_usable (col : Z) (t t' : ArcTables) :
  arcRowsUsable rt t -> arcColumn rt subst col t = Ok t' -> arcRowsUsable rt t'.
Proof.
  intros Ht H. unfold arcColumn in H.
  destruct (atBound col); [injection H as <-; exact Ht|].
  inv_bind H. destruct (negb (fst x =? -1)); [injection H as <-; exact Ht|].
  inv_bind H. inv_bind H. inv_bind H. inv_bind H. inv_bind H. inv_bind H.
  inv_bind H. rename x6 into t2.
  inv_bind H. inv_bind H. inv_bind H. inv_bind H. injection H as <-.
  assert (H2 : arcRowsUsable rt t2).
  { refine (proj2 (forNe_inv (fun _ u => arcRowsUsable rt u) _ _ _ _ _ _ _ Hx6)).
    - exact Ht.
    - intros i u u' _ Hu Hb. exact (arcEntry_usable i u u' Hu Hb). }
  exact H2.
Qed.

Lemma buildArcs_usable (t : ArcTables) :
  buildArcs rt subst = Ok t -> arcRowsUsable rt t.
Proof.
  intros H. unfold buildArcs in H. inv_bind H. inv_bind H.
  refine (foldM_inv (arcRowsUsable rt) _ _ _ _ _ _ H).
  - intros col u u' _ Hu Hb. exact (arcColumn_usable col u u' Hu Hb).
  - split; constructor.
Qed.

End ArcRowsUsable.

Section AdjacencySound.
Context {R : Relaxation}.

Lemma buildAdjacency_sound (adj : Adjacency) :
  buildAdjacency = Ok adj -> adjSound adj.
Proof.
  intros H. unfold buildAdjacency in H. inv_bind H. rename x into rowtype0.
  inv_bind H. rename x into nc. inv_bind H. destruct x as [subst rt].
  inv_bind H. rename x into t. injection H as <-. simpl.
  apply detectSubstitutions_inv in Hx1. destruct Hx1 as (_ & _ & _ & _ & Hrec).
  apply buildArcs_usable in Hx2. destruct Hx2 as [Hi Ho].
  split; [|split]; simpl.
  - intros col r piv Hget Hr.
    destruct (Hrec col r piv Hget) as [[-> _]|(_ & _ & _ & Hu)]; [congruence|exact Hu].
  - intros k r coef Hget. apply vget_In in Hget.
    rewrite Forall_forall in Hi. exact (Hi _ Hget).
  - intros k r coef Hget. apply vget_In in Hget.
    rewrite Forall_forall in Ho. exact (Ho _ Hget).
Qed.

End AdjacencySound.

Section EventsOfTheLoop.
Context {R : Relaxation}.
Context {Agg Cut Rng : Type}.
Context {AggOps : LpAggregator Agg} {CutOps : CutGeneration Cut} {RngOps : Random Rng}.
Variable adj : Adjacency.

(** A property of events that holds of everything the while loop can
    record: substitution rows of scanned columns, cut generation attempts,
    random bits, and extension rows taken from an arc list. *)
Variable P : event -> Prop.
Hypothesis Hsub : forall col row piv w,
  scanned col = true ->
  vget "colSubstitutions" (colSubstitutions adj) col = Ok (row, piv) -> row <> -1 ->
  P (EvAddRow SubstitutionRow row w).
Hypothesis Hcut : forall negate inds vals rhs ok, P (EvGenerateCut negate inds vals rhs ok).
Hypothesis Hbit : forall b, P (EvBit b).
Hypothesis Hext : forall r w,
  (exists k coef, vget "inArcRows" (inArcRows adj) k = Ok (r, coef)) \/
  (exists k coef, vget "outArcRows" (outArcRows adj) k = Ok (r, coef)) ->
  P (EvAddRow ExtensionRow r w).

Abbreviation State := (SepState Agg Cut Rng).
Abbreviation Round := (@RoundResult Agg Cut Rng).

Lemma grows_refl (tr : list event) : grows P tr tr.
Proof. exists []. split; [reflexivity|constructor]. Qed.

Lemma grows_trans (a b c : list event) : grows P a b -> grows P b c -> grows P a c.
Proof.
  intros (n1 & -> & H1) (n2 & -> & H2). exists (n2 ++ n1).
  split; [apply app_assoc|apply Forall_app; auto].
Qed.

Lemma grows_event (tr : list event) (e : event) : P e -> grows P tr (e :: tr).
Proof. intros H. exists [e]. split; [reflexivity|constructor; auto]. Qed.

Lemma grows_bits (tr : list event) (bs : list bool) : grows P tr (map EvBit bs ++ tr).
Proof.
  exists (map EvBit bs). split; [reflexivity|].
  apply Forall_forall. intros e He. apply in_map_iff in He. destruct He as (b & <- & _).
  apply Hbit.
Qed.

Lemma doGetAggregation_trace (negate : bool) (s : State) :
  trace (snd (doGetAggregation negate s)) = trace s.
Proof.
  unfold doGetAggregation. destruct (getCurrentAggregation (aggregator s) negate) as [[? ?] ?].
  reflexivity.
Qed.

Lemma substitutionFold_events (inds : list Z) (vals : list double) (j : Z) :
  Forall (fun rw => P (EvAddRow SubstitutionRow (fst rw) (snd rw)))
    (substitutionFold adj inds vals j).
Proof.
  unfold substitutionFold.
  destruct (vget "baseRowInds" inds j) as [col| |]; try constructor.
  destruct (scanned col) eqn:Esc; try constructor.
  destruct (vget "colSubstitutions" (colSubstitutions adj) col) as [[row piv]| |] eqn:Es;
    try constructor.
  destruct (row =? -1) eqn:Er; try constructor. apply Z.eqb_neq in Er.
  destruct (vget "baseRowVals" vals j) as [v| |]; try constructor; [|constructor].
  simpl. exact (Hsub col row piv _ Esc Es Er).
Qed.

Lemma foldSubstitutions_grows (rows : list (Z * double)) :
  Forall (fun rw => P (EvAddRow SubstitutionRow (fst rw) (snd rw))) rows ->
  forall s : State, grows P (trace s) (trace (foldSubstitutions rows s)).
Proof.
  induction rows as [|rw rows IH]; intros Hall s; simpl.
  - apply grows_refl.
  - inversion Hall as [|? ? Hrw Hrest]; subst.
    eapply grows_trans; [|apply (IH Hrest)]. simpl. apply grows_event. exact Hrw.
Qed.

Lemma scanBaseRow_grows (s : State) (inds : list Z) (vals : list double)
    (sc : @ScanState Agg Cut Rng) :
  scanBaseRow adj s = Ok (inds, vals, sc) ->
  grows P (trace s) (trace (sc_state sc)).
Proof.
  intros H. unfold scanBaseRow in H.
  pose proof (doGetAggregation_trace false s) as Htr.
  destruct (doGetAggregation false s) as [[inds0 vals0] s1] eqn:Eagg.
  inv_bind H. injection H as <- <- <-. simpl in Htr.
  assert (Hinv : foldsInv adj inds0 vals0 s1 (vsize inds0) x).
  { refine (proj2 (forNe_inv (foldsInv adj inds0 vals0 s1) _ 0 (vsize inds0) _ _ _ _ Hx)).
    - split; [reflexivity|]. simpl. split; [discriminate|].
      intros (j & _ & _ & _ & Hj & _). lia.
    - intros i t t' Hi Ht Hb. apply (folds_step adj inds0 vals0 s1 i t t'); auto. lia. }
  destruct Hinv as [-> _]. rewrite <- Htr. apply foldSubstitutions_grows.
  unfold substitutionFolds. apply Forall_flat_map. apply Forall_forall.
  intros j _. apply substitutionFold_events.
Qed.

Lemma attemptCuts_grows (inds : list Z) (vals : list double) (s s' : State) (ok : bool) :
  attemptCuts inds vals s = (ok, s') -> grows P (trace s) (trace s').
Proof.
  intros H. rewrite attemptCuts_eq in H.
  destruct (generateCut (cutGen s) inds vals 0%float) as [ok1 c1].
  destruct (getCurrentAggregation (aggregator s) true) as [[inds' vals'] a'].
  destruct ok1.
  - injection H as <- <-. simpl. apply grows_event. apply Hcut.
  - destruct (generateCut c1 inds' vals' 0%float) as [ok2 c2].
    injection H as <- <-. simpl.
    eapply grows_trans; apply grows_event; apply Hcut.
Qed.

(** A scan of an arc list followed by the fold of the row it chose. *)
Lemma scanArcRows_grows (name : string) (arcRows : list (Z * double)) (range : Z * Z)
    (colVal : double) (s s1 : State) (ch : ArcChoice) :
  (forall k r coef, vget name arcRows k = Ok (r, coef) ->
     P (EvAddRow ExtensionRow r (ac_weight ch))) ->
  scanArcRows name arcRows range colVal s = Ok (ch, s1) ->
  grows P (trace s) (trace s1) /\
  (ac_row ch <> -1 ->
   grows P (trace s) (trace (doAddRow ExtensionRow (ac_row ch) (ac_weight ch) s1))).
Proof.
  intros Hrows H. destruct range as [lo hi]. apply scanArcRows_inv in H.
  destruct H as (_ & _ & _ & Hsome & bs & Hbs).
  assert (Hg : grows P (trace s) (trace s1)) by (rewrite Hbs; apply grows_bits).
  split; [exact Hg|]. intros Hne.
  destruct (Hsome Hne) as (k & coef & dual & _ & Hget & _).
  eapply grows_trans; [exact Hg|]. simpl. apply grows_event. exact (Hrows k _ coef Hget).
Qed.

Lemma checkOutArcCol_grows (c : Candidates) (len : Z) (s : State) (r : Round) :
  checkOutArcCol adj c len s = Ok r ->
  match r with
  | RoundContinue s' _ => grows P (trace s) (trace s')
  | RoundBreak s' => grows P (trace s) (trace s')
  end.
Proof.
  intros H. unfold checkOutArcCol in H. inv_bind H. rename x into range.
  inv_bind H. destruct x as [ch s1].
  apply scanArcRows_grows in Hx0.
  2:{ intros k r0 coef Hget. apply Hext. right. eauto. }
  destruct Hx0 as [Hg Hadd].
  destruct (ac_row ch =? -1) eqn:E; injection H as <-; [exact Hg|].
  apply Z.eqb_neq in E. exact (Hadd E).
Qed.

Lemma extendPath_grows (c : Candidates) (len : Z) (s : State) (r : Round) :
  extendPath adj c len s = Ok r ->
  match r with
  | RoundContinue s' _ => grows P (trace s) (trace s')
  | RoundBreak s' => grows P (trace s) (trace s')
  end.
Proof.
  intros H. unfold extendPath in H.
  destruct (preferOutArc c); [|exact (checkOutArcCol_grows _ _ _ _ H)].
  inv_bind H. rename x into range. inv_bind H. destruct x as [ch s1].
  apply scanArcRows_grows in Hx0.
  2:{ intros k r0 coef Hget. apply Hext. left. eauto. }
  destruct Hx0 as [Hg Hadd].
  destruct (ac_row ch =? -1) eqn:E.
  - apply checkOutArcCol_grows in H.
    destruct r; eapply grows_trans; eauto.
  - injection H as <-. apply Z.eqb_neq in E. exact (Hadd E).
Qed.

Lemma pathRound_grows (s : State) (len : Z) (r : Round) :
  pathRound adj s len = Ok r ->
  match r with
  | RoundContinue s' _ => grows P (trace s) (trace s')
  | RoundBreak s' => grows P (trace s) (trace s')
  end.
Proof.
  intros H. unfold pathRound in H. inv_bind H. destruct x as [[inds vals] sc].
  apply scanBaseRow_grows in Hx.
  destruct (addedSubstitutionRows sc); [injection H as <-; exact Hx|].
  destruct (attemptCuts inds vals (sc_state sc)) as [ok s2] eqn:Ecuts.
  apply attemptCuts_grows in Ecuts.
  assert (Hg : grows P (trace s) (trace s2)) by (eapply grows_trans; eauto).
  match type of H with (if ?b then _ else _) = _ => destruct b end.
  - injection H as <-. exact Hg.
  - apply extendPath_grows in H. destruct r; eapply grows_trans; eauto.
Qed.

Lemma pathLoop_grows :
  forall (fuel : nat) (s s' : State) (len : Z),
    pathLoop adj fuel s len = Ok s' -> grows P (trace s) (trace s').
Proof.
  induction fuel as [|fuel IH]; intros s s' len H; simpl in H;
    destruct (len =? maxPathLen); try discriminate;
    try (injection H as <-; apply grows_refl).
  inv_bind H. rename x into r. apply pathRound_grows in Hx. destruct r as [s1 len1|s1].
  - eapply grows_trans; [exact Hx|]. exact (IH _ _ _ H).
  - injection H as <-. exact Hx.
Qed.

End EventsOfTheLoop.

Section RolesInTheLoop.
Context {R : Relaxation}.
Context {Agg Cut Rng : Type}.
Context {AggOps : LpAggregator Agg} {CutOps : CutGeneration Cut} {RngOps : Random Rng}.
Variable adj : Adjacency.
Hypothesis Hsound : adjSound adj.

Abbreviation State := (SepState Agg Cut Rng).

Lemma pathLoop_roles (fuel : nat) (s s' : State) (len : Z) :
  pathLoop adj fuel s len = Ok s' -> grows (rolesOk adj) (trace s) (trace s').
Proof.
  apply (pathLoop_grows adj (rolesOk adj)).
  - intros col row piv w Hsc Hget Hrow. simpl.
    split; [exact (proj1 Hsound col row piv Hget Hrow)|eauto].
  - intros. exact I.
  - intros. exact I.
  - intros r w Harc. simpl. split; [|exact Harc].
    destruct Harc as [(k & coef & Hget)|(k & coef & Hget)].
    + exact (proj1 (proj2 Hsound) k r coef Hget).
    + exact (proj2 (proj2 Hsound) k r coef Hget).
Qed.

Lemma separateRow_roles (fuel : nat) (i : Z) (s s' : State) :
  separateRow adj fuel i s = Ok s' -> grows (rolesOk adj) (trace s) (trace s').
Proof.
  intros H. unfold separateRow in H. inv_bind H. rename x into k.
  assert (Hgo : k <> kUnusuable ->
            (s1 <- pathLoop adj fuel (doAddRow SeedRow i (seedWeight k) s) 1 ;;
             Ok (doClear s1)) = Ok s' ->
            grows (rolesOk adj) (trace s) (trace s')).
  { intros Hk Hrun. inv_bind Hrun. injection Hrun as <-.
    apply pathLoop_roles in Hx0. simpl in Hx0 |- *.
    eapply grows_trans; [apply grows_event|].
    2:{ eapply grows_trans; [exact Hx0|]. apply grows_event. exact I. }
    simpl. exists k. auto. }
  destruct k; [injection H as <-; apply grows_refl|..]; apply Hgo; try discriminate; exact H.
Qed.

Lemma separateRows_roles (fuel : nat) (s s' : State) :
  separateRows adj fuel s = Ok s' -> grows (rolesOk adj) (trace s) (trace s').
Proof.
  intros H. unfold separateRows in H.
  refine (proj2 (forNe_inv (fun _ t => grows (rolesOk adj) (trace s) (trace t))
                   _ _ _ _ _ _ _ H)).
  - apply grows_refl.
  - intros i t t' _ Ht Hb. eapply grows_trans; [exact Ht|].
    exact (separateRow_roles _ _ _ _ Hb).
Qed.

End RolesInTheLoop.

Section RolesTheorem.
Context {R : Relaxation}.
Context {Agg Cut Rng : Type}.
Context {AggOps : LpAggregator Agg} {CutOps : CutGeneration Cut} {RngOps : Random Rng}.

(** X6. The rows a call of the separator folds into its aggregations keep
    to their roles (the calls of [addRow] at lines 174, 177, 210, 279 and
    304, over the tables built at lines 78-162). With
    [adj] the tables the call builds, every row added is: as a seed row, a
    row whose final kind is not [kUnusuable], with weight [-1] for a [kLeq]
    row and [1] otherwise; as a substitution row, the recorded source of the
    substitution of a scanned column, which the construction has made
    [kUnusuable]; as a path extension, a row of an arc list, whose kind is
    not [kUnusuable]. So a row that is the source of a substitution is never
    a seed row nor an extension row. *)
Theorem rows_keep_their_roles (fuel : nat) (s s' : SepState Agg Cut Rng) :
  separateLpSolution fuel s = Ok s' ->
  exists adj new,
    buildAdjacency = Ok adj /\
    trace s' = new ++ trace s /\
    Forall (rolesOk adj) new /\
    forall role r w col piv,
      In (EvAddRow role r w) new ->
      vget "colSubstitutions" (colSubstitutions adj) col = Ok (r, piv) ->
      role = SubstitutionRow.
Proof.
  intros H. unfold separateLpSolution in H. cbv zeta in H. inv_bind H. rename x into adj.
  pose proof (buildAdjacency_sound adj Hx) as Hsound.
  apply (separateRows_roles adj Hsound) in H. simpl in H.
  destruct H as (new & Hnew & Hall).
  exists adj, new. split; [exact Hx|]. split; [exact Hnew|]. split; [exact Hall|].
  intros role r w col piv Hin Hsub.
  rewrite Forall_forall in Hall. specialize (Hall _ Hin).
  assert (Hun : forall k, vget "rowtype" (rowtype adj) r = Ok k -> k <> kUnusuable -> False).
  { intros k Hk Hne. apply Hne.
    assert (Hr : r <> -1) by (apply vget_range in Hk; lia).
    pose proof (proj1 Hsound col r piv Hsub Hr) as Hu. congruence. }
  destruct role; simpl in Hall.
  - destruct Hall as (k & Hk & Hne & _). destruct (Hun k Hk Hne).
  - reflexivity.
  - destruct Hall as [(k & Hk & Hne) _]. destruct (Hun k Hk Hne).
Qed.

End RolesTheorem.

Lemma rows_keep_their_roles_witness :
  exists s',
    runSeparator relaxB 10 (startA []) = Ok s' /\
    exists adj new,
      @buildAdjacency relaxB = Ok adj /\
      trace s' = new ++ trace (startA []) /\
      Forall (@rolesOk relaxB adj) new /\
      forall role r w col piv,
        In (EvAddRow role r w) new ->
        vget "colSubstitutions" (colSubstitutions adj) col = Ok (r, piv) ->
        role = SubstitutionRow.
Proof.
  eexists. split; [vm_compute; reflexivity|].
  apply (@rows_keep_their_roles relaxB _ _ _ (SumAggregator rowsB) ScriptedCuts ParityBits
           10%nat (startA [])).
  vm_compute. reflexivity.
Defined.

(* ================================================================== *)
(** ** The construction phase on consistent data (lines 41-162) *)
(* ================================================================== *)

Lemma foldM_total {X S} (I : S -> Prop) (body : X -> S -> res S) (xs : list X) :
  (forall x s, In x xs -> I s -> exists s', body x s = Ok s' /\ I s') ->
  forall s, I s -> exists s', foldM body xs s = Ok s' /\ I s'.
Proof.
  induction xs as [|x xs IH]; intros Hstep s HI; simpl.
  - exists s. auto.
  - destruct (Hstep x s (or_introl eq_refl) HI) as (s1 & -> & HI1). simpl.
    apply IH; auto. intros y t Hy. apply Hstep. right. exact Hy.
Qed.

Section ConstructionTotal.
Context {R : Relaxation}.

Lemma wellFormed_sizes :
  wellFormed = true ->
  0 <= num_row_ lp /\ 0 <= num_col_ lp /\
  num_row_ lp <= vsize (row_lower_ lp) /\
  num_row_ lp <= vsize (row_upper_ lp) /\
  num_row_ lp <= vsize (row_value lpSolution) /\
  num_col_ lp < vsize (a_start_ lp).
Proof.
  unfold wellFormed. rewrite !andb_true_iff.
  intros [[[[[[[H1 H2] H3] H4] H5] H6] _] _]. lia.
Qed.

Lemma wellFormed_column (col : Z) :
  wellFormed = true -> In col continuous_cols -> atBound col = false ->
  0 <= col < num_col_ lp /\
  0 <= nth (Z.to_nat col) (a_start_ lp) 0 <= nth (Z.to_nat (col + 1)) (a_start_ lp) 0 /\
  nth (Z.to_nat (col + 1)) (a_start_ lp) 0 <= vsize (a_index_ lp) /\
  nth (Z.to_nat (col + 1)) (a_start_ lp) 0 <= vsize (a_value_ lp) /\
  forall i, nth (Z.to_nat col) (a_start_ lp) 0 <= i
              < nth (Z.to_nat (col + 1)) (a_start_ lp) 0 ->
    0 <= nth (Z.to_nat i) (a_index_ lp) 0 < num_row_ lp.
Proof.
  unfold wellFormed. rewrite !andb_true_iff. intros [[_ Hcols] _] Hin Hb.
  rewrite forallb_forall in Hcols. specialize (Hcols col Hin).
  unfold wfColumn in Hcols. rewrite Hb in Hcols. cbv zeta in Hcols. simpl orb in Hcols.
  rewrite !andb_true_iff in Hcols.
  destruct Hcols as [[[[[[H1 H2] H3] H4] H5] H6] H7].
  rewrite forallb_forall in H7.
  split; [lia|]. split; [lia|]. split; [lia|]. split; [lia|].
  intros i Hi. specialize (H7 i (proj2 (zrange_In _ _ _) Hi)). cbv zeta in H7.
  rewrite andb_true_iff in H7. lia.
Qed.

Lemma wellFormed_row (i : Z) :
  wellFormed = true -> 0 <= i < num_row_ lp ->
  eligibleIncidences continuous_cols i = 1 ->
  exists col val,
    vget "rowinds" (getRow i) (firstEligible (getRow i) 0) = Ok (col, val) /\
    0 <= col < num_col_ lp.
Proof.
  unfold wellFormed. rewrite !andb_true_iff. intros [_ Hrows] Hi Hone.
  rewrite forallb_forall in Hrows. specialize (Hrows i (proj2 (zrange_In _ _ _) Hi)).
  unfold rowLocated in Hrows. rewrite Hone in Hrows. simpl in Hrows.
  destruct (vget "rowinds" (getRow i) (firstEligible (getRow i) 0)) as [[col val]| |];
    try discriminate.
  exists col, val. split; [reflexivity|]. rewrite andb_true_iff in Hrows. lia.
Qed.

Lemma classifyRows_total :
  wellFormed = true -> exists rt, classifyRows = Ok rt /\ vsize rt = num_row_ lp.
Proof.
  intros Hwf. destruct (wellFormed_sizes Hwf) as (Hr & _ & Hl & Hu & Hv & _).
  unfold classifyRows. unfold vnew. destruct (num_row_ lp <? 0) eqn:E; [apply Z.ltb_lt in E; lia|]. cbn [bind].
  apply (forNe_total (fun _ rt => vsize rt = num_row_ lp)); [lia| |].
  - apply vsize_repeat. exact Hr.
  - intros i rt Hi Hsz.
    assert (Hgl : vget "row_lower_" (row_lower_ lp) i =
                  Ok (nth (Z.to_nat i) (row_lower_ lp) 0%float))
      by (apply vget_in_range; lia).
    assert (Hgu : vget "row_upper_" (row_upper_ lp) i =
                  Ok (nth (Z.to_nat i) (row_upper_ lp) 0%float))
      by (apply vget_in_range; lia).
    assert (Hgv : vget "row_value" (row_value lpSolution) i =
                  Ok (nth (Z.to_nat i) (row_value lpSolution) 0%float))
      by (apply vget_in_range; lia).
    rewrite (classifyRow_spec i _ _ _ Hgl Hgu Hgv).
    cbn [bind]. rewrite vset_in_range by lia. eexists. split; [reflexivity|].
    rewrite vsize_update. exact Hsz.
Qed.

Lemma countContinuous_total :
  wellFormed = true -> exists nc, countContinuous = Ok nc.
Proof.
  intros Hwf. destruct (wellFormed_sizes Hwf) as (Hr & _ & _ & _ & _ & Hs).
  unfold countContinuous. unfold vnew. destruct (num_row_ lp <? 0) eqn:E; [apply Z.ltb_lt in E; lia|].
  cbn [bind].
  destruct (foldM_total (fun nc => vsize nc = num_row_ lp)
              (fun col nc =>
                 if atBound col then Ok nc
                 else
                   b <- vget "a_start_" (a_start_ lp) col ;;
                   e <- vget "a_start_" (a_start_ lp) (col + 1) ;;
                   forNe b e
                     (fun i nc =>
                        r <- vget "a_index_" (a_index_ lp) i ;;
                        c <- vget "numContinuous" nc r ;;
                        vset "numContinuous" nc r (c + 1))
                     nc)
              continuous_cols) with (s := repeat 0 (Z.to_nat (num_row_ lp)))
    as (nc & Hnc & _).
  - intros col nc Hin Hsz. destruct (atBound col) eqn:Eb; [eauto|].
    destruct (wellFormed_column col Hwf Hin Eb) as (Hc & Hbe & Hei & _ & Hrows).
    rewrite (vget_in_range _ _ col 0) by lia. cbn [bind].
    rewrite (vget_in_range _ _ (col + 1) 0) by lia. cbn [bind].
    apply (forNe_total (fun _ nc => vsize nc = num_row_ lp)); [lia|exact Hsz|].
    intros i nc1 Hi Hsz1. specialize (Hrows i Hi).
    rewrite (vget_in_range _ _ i 0) by lia. cbn [bind].
    rewrite (vget_in_range _ _ _ 0) by lia. cbn [bind].
    rewrite vset_in_range by lia. eexists. split; [reflexivity|].
    rewrite vsize_update. exact Hsz1.
  - apply vsize_repeat. exact Hr.
  - exists nc. exact Hnc.
Qed.

Lemma detectSubstitutions_total (rowtype0 : list RowType) (nc : list Z) :
  wellFormed = true ->
  vsize rowtype0 = num_row_ lp ->
  countContinuous = Ok nc ->
  exists subst rt,
    detectSubstitutions rowtype0 nc = Ok (subst, rt) /\
    vsize subst = num_col_ lp /\ vsize rt = num_row_ lp.
Proof.
  intros Hwf Hrt0 Hnc. destruct (wellFormed_sizes Hwf) as (Hr & Hc & _).
  destruct (countContinuous_spec nc Hnc) as [Hncs Hcnt].
  unfold detectSubstitutions. unfold vnew. destruct (num_col_ lp <? 0) eqn:E; [apply Z.ltb_lt in E; lia|].
  cbn [bind].
  destruct (forNe_total
              (fun _ (st : list (Z * double) * list RowType) =>
                 vsize (fst st) = num_col_ lp /\ vsize (snd st) = num_row_ lp)
              (detectRow nc) 0 (num_row_ lp)
              (repeat (-1, 0%float) (Z.to_nat (num_col_ lp)), rowtype0))
    as ([subst rt] & Hrun & Hs1 & Hs2).
  - exact Hr.
  - simpl. split; [apply vsize_repeat; exact Hc|exact Hrt0].
  - intros i [subst rt] Hi [Hs1 Hs2]. simpl in Hs1, Hs2. unfold detectRow.
    rewrite (vget_in_range _ _ i kUnusuable) by lia. cbn [bind].
    destruct (RowType_eqb _ kEq); [|eexists; split; [reflexivity|auto]].
    rewrite (Hcnt i Hi). cbn [bind].
    destruct (eligibleIncidences continuous_cols i =? 1) eqn:Eone;
      [|eexists; split; [reflexivity|auto]].
    apply Z.eqb_eq in Eone.
    destruct (wellFormed_row i Hwf Hi Eone) as (col & val & Hget & Hcol).
    cbv zeta. rewrite Hget. cbn [bind].
    rewrite (vget_in_range _ _ col (-1, 0%float)) by lia. cbn [bind].
    destruct (negb _); [eexists; split; [reflexivity|auto]|].
    rewrite vset_in_range by lia. cbn [bind].
    rewrite vset_in_range by lia. cbn [bind].
    eexists. split; [reflexivity|]. simpl. rewrite !vsize_update. auto.
  - exists subst, rt. auto.
Qed.

Lemma arcEntry_total (rt : list RowType) (i : Z) (t : ArcTables) :
  0 <= i < vsize (a_index_ lp) -> i < vsize (a_value_ lp) ->
  0 <= nth (Z.to_nat i) (a_index_ lp) 0 < vsize rt ->
  exists t', arcEntry rt i t = Ok t' /\
             t_colInArcs t' = t_colInArcs t /\ t_colOutArcs t' = t_colOutArcs t.
Proof.
  intros Hi Hv Hr. unfold arcEntry.
  rewrite (vget_in_range _ _ i 0) by lia. cbn [bind].
  rewrite (vget_in_range _ _ _ kUnusuable) by lia. cbn [bind].
  destruct (nth _ rt kUnusuable); [eauto|..];
    rewrite (vget_in_range _ _ i 0%float) by lia; cbn [bind];
    match goal with |- context [if ?b then _ else _] => destruct b end; eauto.
Qed.

Lemma buildArcs_total (rt : list RowType) (subst : list (Z * double)) :
  wellFormed = true ->
  vsize rt = num_row_ lp -> vsize subst = num_col_ lp ->
  exists t, buildArcs rt subst = Ok t.
Proof.
  intros Hwf Hrt Hsub. destruct (wellFormed_sizes Hwf) as (_ & Hc & _ & _ & _ & Hs).
  unfold buildArcs. unfold vnew. destruct (num_col_ lp <? 0) eqn:E; [apply Z.ltb_lt in E; lia|]. cbn [bind].
  destruct (foldM_total
              (fun t => vsize (t_colInArcs t) = num_col_ lp /\
                        vsize (t_colOutArcs t) = num_col_ lp)
              (arcColumn rt subst) continuous_cols)
    with (s := mkArcTables [] (repeat (0, 0) (Z.to_nat (num_col_ lp))) []
                 (repeat (0, 0) (Z.to_nat (num_col_ lp))))
    as (t & Ht & _).
  - intros col t Hin [Hci Hco]. unfold arcColumn.
    destruct (atBound col) eqn:Eb; [eauto|].
    destruct (wellFormed_column col Hwf Hin Eb) as (Hcol & Hbe & Hei & Hev & Hrows).
    rewrite (vget_in_range _ _ col (-1, 0%float)) by lia. cbn [bind].
    destruct (negb _); [eauto|].
    rewrite (vget_in_range _ _ col (0, 0)) by lia. cbn [bind].
    rewrite vset_in_range by lia. cbn [bind].
    rewrite (vget_in_range _ _ col (0, 0)) by lia. cbn [bind].
    rewrite vset_in_range by lia. cbn [bind].
    rewrite (vget_in_range _ _ col 0) by lia. cbn [bind].
    rewrite (vget_in_range _ _ (col + 1) 0) by lia. cbn [bind].
    match goal with
    | |- context [forNe ?b ?e ?body ?t0] =>
        destruct (forNe_total
                    (fun _ u => t_colInArcs u = t_colInArcs t0 /\
                                t_colOutArcs u = t_colOutArcs t0)
                    body b e t0) as (t2 & -> & Hci2 & Hco2)
    end.
    + lia.
    + auto.
    + intros i u Hi [Hu1 Hu2].
      destruct (arcEntry_total rt i u) as (u' & Hu' & Hk1 & Hk2);
        [lia|lia|rewrite Hrt; apply Hrows; lia|].
      exists u'. split; [exact Hu'|]. split; congruence.
    + cbn [bind]. simpl in Hci2, Hco2.
      rewrite (vget_in_range _ _ col (0, 0)) by (rewrite Hci2, vsize_update; lia).
      cbn [bind].
      rewrite vset_in_range by (rewrite Hci2, vsize_update; lia). cbn [bind].
      rewrite (vget_in_range _ _ col (0, 0)) by (rewrite Hco2, vsize_update; lia).
      cbn [bind].
      rewrite vset_in_range by (rewrite Hco2, vsize_update; lia). cbn [bind].
      eexists. split; [reflexivity|]. simpl.
      rewrite Hci2, Hco2, !vsize_update. auto.
  - simpl. split; apply vsize_repeat; exact Hc.
  - exists t. exact Ht.
Qed.

End ConstructionTotal.

Lemma Forall_update_twice {A} (P : A -> Prop) (l : list A) (n : nat) (x y : A) :
  Forall P l -> P y -> Forall P (update (update l n x) n y).
Proof.
  intros Hl Hy. revert n. induction Hl as [|a l Ha Hl IH]; intros [|n]; simpl;
    try constructor; auto.
Qed.

Lemma rangesWithin_mono (cols : list (Z * Z)) (n n' : Z) :
  n <= n' -> rangesWithin cols n -> rangesWithin cols n'.
Proof.
  intros Hle H. unfold rangesWithin in *. eapply Forall_impl; [|exact H].
  intros p Hp. simpl in Hp. lia.
Qed.

Lemma rangesWithin_repeat (n : nat) : rangesWithin (repeat (0, 0) n) 0.
Proof. apply Forall_forall. intros p Hp. apply repeat_spec in Hp. subst. simpl. lia. Qed.

Section ConstructionShape.
Context {R : Relaxation}.

Lemma classifyRows_size (rt : list RowType) :
  classifyRows = Ok rt -> vsize rt = num_row_ lp.
Proof.
  intros H. unfold classifyRows in H. inv_bind H.
  apply vnew_Ok in Hx. destruct Hx as [Hn ->].
  refine (proj2 (forNe_inv (fun _ v => vsize v = num_row_ lp) _ _ _ _ _ _ _ H)).
  - apply vsize_repeat. exact Hn.
  - intros i v v' _ Hv Hb. inv_bind Hb. apply vset_Ok in Hb. destruct Hb as [_ ->].
    rewrite vsize_update. exact Hv.
Qed.

Lemma arcColumn_shape (rt : list RowType) (subst : list (Z * double)) (col : Z)
    (t t' : ArcTables) :
  arcColumn rt subst col t = Ok t' -> tablesShape t -> tablesShape t'.
Proof.
  intros H (Hs1 & Hs2 & Hr1 & Hr2). unfold arcColumn in H.
  destruct (atBound col); [injection H as <-; repeat split; assumption|].
  inv_bind H. destruct (negb (fst x =? -1)); [injection H as <-; repeat split; assumption|].
  inv_bind H. rename x0 into ci. inv_bind H. rename x0 into cin1.
  inv_bind H. rename x0 into co. inv_bind H. rename x0 into cout1.
  inv_bind H. rename x0 into b. inv_bind H. rename x0 into e.
  inv_bind H. rename x0 into t2.
  inv_bind H. rename x0 into ci2. inv_bind H. rename x0 into cin3.
  inv_bind H. rename x0 into co2. inv_bind H. rename x0 into cout3.
  injection H as <-.
  apply vset_Ok in Hx1. destruct Hx1 as [Hc1 ->].
  apply vset_Ok in Hx3. destruct Hx3 as [Hc2 ->].
  apply arcEntries_run in Hx6. simpl in Hx6.
  destruct Hx6 as (Hbe & Hin & Hout & Hci & Hco).
  rewrite Hci in Hx7, Hx8. rewrite Hco in Hx9, Hx10.
  rewrite vget_update_same in Hx7 by exact Hc1. injection Hx7 as <-.
  rewrite vget_update_same in Hx9 by exact Hc2. injection Hx9 as <-.
  apply vset_Ok in Hx8. destruct Hx8 as [_ ->].
  apply vset_Ok in Hx10. destruct Hx10 as [_ ->].
  simpl fst.
  assert (Hgi : vsize (t_inArcRows t) <= vsize (t_inArcRows t2))
    by (rewrite Hin, vsize_app; pose proof (vsize_nonneg
          (filter (goesTo rt true) (map entryAt (zrange b e)))); lia).
  assert (Hgo : vsize (t_outArcRows t) <= vsize (t_outArcRows t2))
    by (rewrite Hout, vsize_app; pose proof (vsize_nonneg
          (filter (goesTo rt false) (map entryAt (zrange b e)))); lia).
  pose proof (vsize_nonneg (t_inArcRows t)) as Hni.
  pose proof (vsize_nonneg (t_outArcRows t)) as Hno.
  unfold tablesShape. simpl. rewrite !vsize_update.
  split; [exact Hs1|]. split; [exact Hs2|]. split.
  - apply Forall_update_twice; [|simpl; lia].
    exact (rangesWithin_mono _ _ _ Hgi Hr1).
  - apply Forall_update_twice; [|simpl; lia].
    exact (rangesWithin_mono _ _ _ Hgo Hr2).
Qed.

Lemma buildArcs_shape (rt : list RowType) (subst : list (Z * double)) (t : ArcTables) :
  buildArcs rt subst = Ok t -> tablesShape t.
Proof.
  intros H. unfold buildArcs in H. inv_bind H. inv_bind H.
  apply vnew_Ok in Hx, Hx0. destruct Hx as [Hn ->]. destruct Hx0 as [_ ->].
  refine (foldM_inv tablesShape _ _ _ _ _ _ H).
  - intros col u u' _ Hu Hb. exact (arcColumn_shape rt subst col u u' Hb Hu).
  - unfold tablesShape. simpl. rewrite !vsize_repeat by exact Hn.
    split; [reflexivity|]. split; [reflexivity|].
    split; apply rangesWithin_repeat.
Qed.

Lemma buildAdjacency_shape (adj : Adjacency) :
  buildAdjacency = Ok adj -> adjShape adj.
Proof.
  intros H. unfold buildAdjacency in H. inv_bind H. rename x into rowtype0.
  inv_bind H. rename x into nc. inv_bind H. destruct x as [subst rt].
  inv_bind H. rename x into t. injection H as <-.
  apply classifyRows_size in Hx.
  apply detectSubstitutions_inv in Hx1. destruct Hx1 as (Hs & Hr & _).
  apply buildArcs_shape in Hx2. destruct Hx2 as (H1 & H2 & H3 & H4).
  unfold adjShape. simpl. split; [congruence|]. auto.
Qed.

(** X1. On consistent data the count of lines 67-76 returns, without
    leaving any vector, one number per row, and the number of row [r] is
    the number of entries that the continuous columns off their bound
    hold in row [r] in the column-wise matrix. *)
Theorem continuous_incidences_counted :
  wellFormed = true ->
  exists nc,
    countContinuous = Ok nc /\
    vsize nc = num_row_ lp /\
    forall r, 0 <= r < num_row_ lp ->
      vget "numContinuous" nc r = Ok (eligibleIncidences continuous_cols r).
Proof.
  intros Hwf. destruct (countContinuous_total Hwf) as (nc & Hnc).
  exists nc. split; [exact Hnc|]. exact (countContinuous_spec nc Hnc).
Qed.

(** X2. On consistent data (sizes that cover the rows and columns, column
    entries within the matrix vectors and naming rows of the LP, and a
    row-wise copy in which every row with one eligible incidence holds an
    eligible column) the construction phase of lines 41-162 returns its
    tables without leaving any vector. The tables hold one kind per row and
    one substitution entry and one pair of arc ranges per column; every arc
    range lies within its arc list; every row of an arc list is usable, and
    every row recorded as the source of a substitution is unusable. *)
Theorem construction_returns_tables :
  wellFormed = true ->
  exists adj, buildAdjacency = Ok adj /\ adjShape adj /\ adjSound adj.
Proof.
  intros Hwf.
  destruct (classifyRows_total Hwf) as (rt0 & Hrt0 & Hsz0).
  destruct (countContinuous_total Hwf) as (nc & Hnc).
  destruct (detectSubstitutions_total rt0 nc Hwf Hsz0 Hnc)
    as (subst & rt & Hdet & Hss & Hsr).
  destruct (buildArcs_total rt subst Hwf Hsr Hss) as (t & Ht).
  assert (Hrun : buildAdjacency =
                 Ok (mkAdjacency rt subst (t_inArcRows t) (t_colInArcs t)
                       (t_outArcRows t) (t_colOutArcs t))).
  { unfold buildAdjacency. rewrite Hrt0. cbn [bind]. rewrite Hnc. cbn [bind].
    rewrite Hdet. cbn [bind]. rewrite Ht. reflexivity. }
  eexists. split; [exact Hrun|].
  split; [exact (buildAdjacency_shape _ Hrun)|exact (buildAdjacency_sound _ Hrun)].
Qed.

End ConstructionShape.

Lemma continuous_incidences_counted_witness :
  exists nc,
    @countContinuous relaxB = Ok nc /\
    vsize nc = num_row_ (@lp relaxB) /\
    forall r, 0 <= r < num_row_ (@lp relaxB) ->
      vget "numContinuous" nc r =
        Ok (@eligibleIncidences relaxB (@continuous_cols relaxB) r).
Proof.
  apply (@continuous_incidences_counted relaxB). vm_compute. reflexivity.
Defined.

Lemma construction_returns_tables_witness :
  exists adj, @buildAdjacency relaxB = Ok adj /\ @adjShape relaxB adj /\ adjSound adj.
Proof.
  apply (@construction_returns_tables relaxB). vm_compute. reflexivity.
Defined.

(* ================================================================== *)
(** ** The vector accesses of a round of the path loop (lines 189-305) *)
(* ================================================================== *)

Section RoundSafety.
Context {R : Relaxation}.
Context {Agg Cut Rng : Type}.
Context {AggOps : LpAggregator Agg} {CutOps : CutGeneration Cut} {RngOps : Random Rng}.
Variable adj : Adjacency.
Hypothesis Hshape : adjShape adj.
Hypothesis Hsound : adjSound adj.
Hypothesis Hdual : num_row_ lp <= vsize (row_dual lpSolution).

Abbreviation State := (SepState Agg Cut Rng).
Abbreviation Round := (@RoundResult Agg Cut Rng).

Lemma usable_has_dual (r : Z) :
  usable (rowtype adj) r -> 0 <= r < vsize (row_dual lpSolution).
Proof.
  intros (k & Hk & _). apply vget_range in Hk.
  destruct Hshape as (Hrt & _). lia.
Qed.

Lemma rangesWithin_get (name : string) (cols : list (Z * Z)) (n col lo hi : Z) :
  rangesWithin cols n -> vget name cols col = Ok (lo, hi) -> 0 <= lo <= hi /\ hi <= n.
Proof.
  intros Hr Hget. apply vget_In in Hget. unfold rangesWithin in Hr.
  rewrite Forall_forall in Hr. exact (Hr _ Hget).
Qed.

Lemma arcStep_no_fault (name : string) (arcRows : list (Z * double)) (colVal : double)
    (k : Z) (st : ArcChoice * State) (f : fault) :
  0 <= k < vsize arcRows ->
  (forall k r coef, vget name arcRows k = Ok (r, coef) -> usable (rowtype adj) r) ->
  arcStep name arcRows colVal k st <> Fault f.
Proof.
  intros Hk Hrows. destruct st as [ch s]. unfold arcStep.
  pose proof (vget_in_range name arcRows k (0, 0%float) Hk) as Hget.
  destruct (nth (Z.to_nat k) arcRows (0, 0%float)) as [r coef].
  rewrite Hget. cbn [bind].
  destruct (negb (checkWeight (- colVal / coef)%float)); [discriminate|].
  rewrite (vget_in_range _ _ r 0%float) by (apply usable_has_dual; eapply Hrows; eauto).
  cbn [bind]. cbv zeta.
  match goal with |- context [if ?b then _ else _] => destruct b end; [discriminate|].
  match goal with |- context [if ?b then _ else _] => destruct b end; [|discriminate].
  destruct (doBit s). discriminate.
Qed.

Lemma scanArcRows_no_fault (name : string) (arcRows : list (Z * double)) (lo hi : Z)
    (colVal : double) (s : State) (f : fault) :
  0 <= lo -> hi <= vsize arcRows ->
  (forall k r coef, vget name arcRows k = Ok (r, coef) -> usable (rowtype adj) r) ->
  scanArcRows name arcRows (lo, hi) colVal s <> Fault f.
Proof.
  intros Hlo Hhi Hrows. unfold scanArcRows. simpl fst. simpl snd.
  apply forLt_no_fault. intros i st Hi. apply arcStep_no_fault; [lia|exact Hrows].
Qed.

(** The lookup at the label [check_out_arc_col] is the one access that can
    leave its vector. *)
Lemma checkOutArcCol_fault (c : Candidates) (len : Z) (s : State) (f : fault) :
  bestInArcCol c = -1 \/ 0 <= bestInArcCol c < num_col_ lp ->
  checkOutArcCol adj c len s = Fault f ->
  bestInArcCol c = -1 /\ f = OutOfRange "colOutArcs" (-1).
Proof.
  intros Hin H. unfold checkOutArcCol in H.
  destruct Hshape as (_ & _ & _ & Hco & _ & Hro).
  apply bind_Fault_inv in H. destruct H as [H|([lo hi] & Hget & H)].
  - apply vget_Fault in H. destruct H as [-> Hout].
    destruct Hin as [E|Hr]; [rewrite E; auto|]. exfalso. apply Hout. lia.
  - exfalso. destruct (rangesWithin_get _ _ _ _ _ _ Hro Hget) as [Hlo Hhi].
    apply bind_Fault_inv in H. destruct H as [H|([ch s1] & _ & H)].
    + revert H. apply scanArcRows_no_fault; [lia|lia|].
      intros k r coef Hk. exact (proj2 (proj2 Hsound) k r coef Hk).
    + destruct (ac_row ch =? -1); discriminate.
Qed.

Lemma extendPath_fault (c : Candidates) (len : Z) (s : State) (f : fault) :
  bestOutArcCol c = -1 \/ 0 <= bestOutArcCol c < num_col_ lp ->
  bestInArcCol c = -1 \/ 0 <= bestInArcCol c < num_col_ lp ->
  bestOutArcCol c <> -1 \/ bestInArcCol c <> -1 ->
  extendPath adj c len s = Fault f ->
  bestInArcCol c = -1 /\ f = OutOfRange "colOutArcs" (-1).
Proof.
  intros Hout Hin Hsome H. unfold extendPath in H.
  destruct (preferOutArc c) eqn:Epref; [|exact (checkOutArcCol_fault c _ s f Hin H)].
  assert (Hrange : 0 <= bestOutArcCol c < num_col_ lp).
  { destruct Hout as [E|Hr]; [|exact Hr]. exfalso.
    unfold preferOutArc in Epref. rewrite E in Epref. simpl in Epref.
    rewrite orb_false_r in Epref. apply Z.eqb_eq in Epref. lia. }
  destruct Hshape as (_ & _ & Hci & _ & Hri & _).
  apply bind_Fault_inv in H. destruct H as [H|([lo hi] & Hget & H)].
  { exfalso. apply vget_Fault in H. destruct H as [_ Hno]. apply Hno. lia. }
  destruct (rangesWithin_get _ _ _ _ _ _ Hri Hget) as [Hlo Hhi].
  apply bind_Fault_inv in H. destruct H as [H|([ch s1] & _ & H)].
  { exfalso. revert H. apply scanArcRows_no_fault; [lia|lia|].
    intros k r coef Hk. exact (proj1 (proj2 Hsound) k r coef Hk). }
  destruct (ac_row ch =? -1); [|discriminate].
  exact (checkOutArcCol_fault c _ s1 f Hin H).
Qed.

Lemma scanEntry_no_fault (inds : list Z) (vals : list double) (j : Z)
    (sc : @ScanState Agg Cut Rng) (f : fault) :
  0 <= j < vsize inds -> vsize inds <= vsize vals ->
  Forall (fun col => 0 <= col) inds ->
  scanEntry adj inds vals j sc <> Fault f.
Proof.
  intros Hj Hvals Hpos. unfold scanEntry.
  destruct Hshape as (_ & Hcs & Hci & Hco & _).
  pose proof (vget_in_range "baseRowInds" inds j 0 Hj) as Hget.
  rewrite Hget. cbn [bind]. set (col := nth (Z.to_nat j) inds 0) in *.
  assert (Hcol : 0 <= col).
  { rewrite Forall_forall in Hpos. apply Hpos. exact (vget_In _ _ _ _ Hget). }
  destruct (col >=? num_col_ lp) eqn:Ecol; [discriminate|].
  assert (Hlt : col < num_col_ lp) by (rewrite Z.geb_leb in Ecol; apply Z.leb_gt in Ecol; lia).
  simpl orb. destruct (atBound col || isColIntegral col); [discriminate|].
  rewrite (vget_in_range _ _ col (-1, 0%float)) by lia. cbn [bind].
  rewrite (vget_in_range "baseRowVals" vals j 0%float) by lia. cbn [bind].
  destruct (negb _); [discriminate|].
  destruct (addedSubstitutionRows sc); [discriminate|]. cbv zeta.
  destruct (flt _ _).
  - rewrite (vget_in_range _ _ col (0, 0)) by lia. cbn [bind].
    repeat match goal with |- context [if ?b then _ else _] => destruct b end;
      discriminate.
  - rewrite (vget_in_range _ _ col (0, 0)) by lia. cbn [bind].
    repeat match goal with |- context [if ?b then _ else _] => destruct b end;
      discriminate.
Qed.

Lemma scanBaseRow_no_fault (s : State) (f : fault) :
  readOk s -> scanBaseRow adj s <> Fault f.
Proof.
  intros [Hlen Hpos] H. unfold scanBaseRow in H.
  destruct (doGetAggregation false s) as [[inds vals] s1]. simpl in Hlen, Hpos.
  apply bind_Fault_inv in H. destruct H as [H|(sc & _ & H)]; [|discriminate].
  revert H. apply forNe_no_fault; [apply vsize_nonneg|].
  intros i sc Hi. apply scanEntry_no_fault; auto.
Qed.

Lemma candidate_in_range_out (inds : list Z) (vals : list double) (p : Z) (c : Candidates) :
  outBest adj inds vals p c ->
  bestOutArcCol c = -1 \/ 0 <= bestOutArcCol c < num_col_ lp.
Proof.
  intros (_ & Hsome & _). destruct (Z.eq_dec (bestOutArcCol c) (-1)) as [E|Hne]; [auto|].
  right. destruct (Hsome Hne) as (_ & (_ & (piv & Hs) & _) & _).
  apply vget_range in Hs. destruct Hshape as (_ & Hcs & _). lia.
Qed.

Lemma candidate_in_range_in (inds : list Z) (vals : list double) (p : Z) (c : Candidates) :
  inBest adj inds vals p c ->
  bestInArcCol c = -1 \/ 0 <= bestInArcCol c < num_col_ lp.
Proof.
  intros (_ & Hsome & _). destruct (Z.eq_dec (bestInArcCol c) (-1)) as [E|Hne]; [auto|].
  right. destruct (Hsome Hne) as (_ & (_ & (piv & Hs) & _) & _).
  apply vget_range in Hs. destruct Hshape as (_ & Hcs & _). lia.
Qed.

End RoundSafety.

Section RoundSafetyTheorem.
Context {R : Relaxation}.
Context {Agg Cut Rng : Type}.
Context {AggOps : LpAggregator Agg} {CutOps : CutGeneration Cut} {RngOps : Random Rng}.

(** X7. The vector accesses of one iteration of the while loop (lines
    189-305). With the tables the construction phase returns, a dual value
    for every row, and an aggregation read with a value for every index and no
    negative index, the iteration leaves a vector at one place only: the
    lookup [colOutArcs[bestInArcCol]] at the label [check_out_arc_col],
    reached with [bestInArcCol == -1] after the scan of the in-arc rows of
    the out-arc candidate chose no row. Every other access of the iteration
    is within bounds. *)
Theorem round_leaves_vectors_only_at_fallback (adj : Adjacency)
    (s : SepState Agg Cut Rng) (len : Z) (f : fault) :
  buildAdjacency = Ok adj ->
  num_row_ lp <= vsize (row_dual lpSolution) ->
  readOk s ->
  pathRound adj s len = Fault f ->
  f = OutOfRange "colOutArcs" (-1) /\
  exists inds vals sc,
    scanBaseRow adj s = Ok (inds, vals, sc) /\
    addedSubstitutionRows sc = false /\
    bestInArcCol (sc_cands sc) = -1 /\
    bestOutArcCol (sc_cands sc) <> -1.
Proof.
  intros Hadj Hdual Hread H.
  pose proof (buildAdjacency_shape adj Hadj) as Hshape.
  pose proof (buildAdjacency_sound adj Hadj) as Hsound.
  unfold pathRound in H.
  apply bind_Fault_inv in H. destruct H as [H|([[inds vals] sc] & Hscan & H)].
  { destruct (scanBaseRow_no_fault adj Hshape s f Hread H). }
  destruct (addedSubstitutionRows sc) eqn:Eflag; [discriminate|].
  destruct (scanBaseRow_candInv adj s inds vals sc Hscan) as [_ Hinv].
  destruct (Hinv Eflag) as (_ & Hout & Hin & _).
  destruct (attemptCuts inds vals (sc_state sc)) as [ok s2].
  destruct (ok || ((bestOutArcCol (sc_cands sc) =? -1) && (bestInArcCol (sc_cands sc) =? -1)))
    eqn:Estop; [discriminate|].
  apply orb_false_iff in Estop. destruct Estop as [_ Eboth].
  assert (Hsome : bestOutArcCol (sc_cands sc) <> -1 \/ bestInArcCol (sc_cands sc) <> -1).
  { apply andb_false_iff in Eboth. destruct Eboth as [E|E]; apply Z.eqb_neq in E; auto. }
  destruct (extendPath_fault adj Hshape Hsound Hdual (sc_cands sc) len s2 f
              (candidate_in_range_out adj Hshape _ _ _ _ Hout)
              (candidate_in_range_in adj Hshape _ _ _ _ Hin) Hsome H) as [Hnone ->].
  split; [reflexivity|]. exists inds, vals, sc.
  split; [exact Hscan|]. split; [exact Eflag|]. split; [exact Hnone|].
  destruct Hsome as [Hs|Hs]; [exact Hs|contradiction].
Qed.

End RoundSafetyTheorem.

Lemma round_leaves_vectors_only_at_fallback_witness :
  OutOfRange "colOutArcs" (-1) = OutOfRange "colOutArcs" (-1) /\
  exists inds vals sc,
    @scanBaseRow relaxA _ _ _ (SumAggregator rowsA) adjA (seedA 0 []) = Ok (inds, vals, sc) /\
    addedSubstitutionRows sc = false /\
    bestInArcCol (sc_cands sc) = -1 /\
    bestOutArcCol (sc_cands sc) <> -1.
Proof.
  apply (@round_leaves_vectors_only_at_fallback relaxA _ _ _ (SumAggregator rowsA)
           ScriptedCuts ParityBits adjA (seedA 0 []) 1).
  - reflexivity.
  - vm_compute. discriminate.
  - unfold readOk. simpl. split; [vm_compute; discriminate|repeat constructor; lia].
  - vm_compute. reflexivity.
Defined.

(* ================================================================== *)
(** ** The seed rows of a call (lines 169-178 and 308) *)
(* ================================================================== *)


Section SeedRows.
Context {R : Relaxation}.
Context {Agg Cut Rng : Type}.
Context {AggOps : LpAggregator Agg} {CutOps : CutGeneration Cut} {RngOps : Random Rng}.
Variable adj : Adjacency.

Abbreviation State := (SepState Agg Cut Rng).





End SeedRows.

Section SeedTheorem.
Context {R : Relaxation}.
Context {Agg Cut Rng : Type}.
Context {AggOps : LpAggregator Agg} {CutOps : CutGeneration Cut} {RngOps : Random Rng}.


End SeedTheorem.


(* ================================================================== *)
(** ** A round over a row without scanned columns (lines 189-248) *)
(* ================================================================== *)

Section UnscannedRow.
Context {R : Relaxation}.
Context {Agg Cut Rng : Type}.
Context {AggOps : LpAggregator Agg} {CutOps : CutGeneration Cut} {RngOps : Random Rng}.

Lemma scanEntry_unscanned (adj : Adjacency) (inds : list Z) (vals : list double) (j : Z)
    (sc : @ScanState Agg Cut Rng) :
  0 <= j < vsize inds ->
  Forall (fun col => scanned col = false) inds ->
  scanEntry adj inds vals j sc = Ok sc.
Proof.
  intros Hj Hall. unfold scanEntry.
  pose proof (vget_in_range "baseRowInds" inds j 0 Hj) as Hget. rewrite Hget. cbn [bind].
  rewrite Forall_forall in Hall. specialize (Hall _ (vget_In _ _ _ _ Hget)).
  unfold scanned in Hall. apply negb_false_iff in Hall. rewrite Hall. reflexivity.
Qed.

(** X9. A round of the while loop over an aggregated row none of whose
    columns is scanned (each is a slack column, at its bound, or integral;
    the empty row included) ends the path (lines 189-248): whatever the
    tables hold, the round reads no table and folds in no row, it makes the
    cut generation attempts on the row as it was read, and leaves the loop
    by the [break] of line 248, also when no cut was found. *)
Theorem unscanned_row_ends_path (adj : Adjacency) (s : SepState Agg Cut Rng) (len : Z) :
  Forall (fun col => scanned col = false) (fst (fst (doGetAggregation false s))) ->
  pathRound adj s len =
    Ok (RoundBreak
          (snd (attemptCuts (fst (fst (doGetAggregation false s)))
                  (snd (fst (doGetAggregation false s)))
                  (snd (doGetAggregation false s))))).
Proof.
  intros Hall. unfold pathRound, scanBaseRow.
  destruct (doGetAggregation false s) as [[inds vals] s1]. simpl in Hall |- *.
  destruct (forNe_total (fun _ sc => sc = mkScanState s1 false noCandidates)
              (scanEntry adj inds vals) 0 (vsize inds)
              (mkScanState s1 false noCandidates)) as (sc & Hrun & ->).
  - apply vsize_nonneg.
  - reflexivity.
  - intros i sc Hi ->. exists (mkScanState s1 false noCandidates).
    split; [|reflexivity]. apply scanEntry_unscanned; [lia|exact Hall].
  - rewrite Hrun. cbn [bind]. simpl.
    destruct (attemptCuts inds vals s1) as [ok s2]. simpl.
    rewrite orb_true_r. reflexivity.
Qed.

End UnscannedRow.

Lemma unscanned_row_ends_path_witness :
  @pathRound relaxB _ _ _ (SumAggregator rowsB) ScriptedCuts ParityBits adjB
    integerRowB 1 =
  Ok (RoundBreak
        (snd (@attemptCuts _ _ _ (SumAggregator rowsB) ScriptedCuts
                (fst (fst (@doGetAggregation _ _ _ (SumAggregator rowsB) false
                             integerRowB)))
                (snd (fst (@doGetAggregation _ _ _ (SumAggregator rowsB) false
                             integerRowB)))
                (snd (@doGetAggregation _ _ _ (SumAggregator rowsB) false
                        integerRowB))))).
Proof.
  apply (@unscanned_row_ends_path relaxB _ _ _ (SumAggregator rowsB) ScriptedCuts ParityBits
           adjB integerRowB 1).
  vm_compute. repeat constructor.
Defined.
